(** * Band-limited wavetables (sfizz [Wavetables.cpp]): a shallow embedding

    The translation unit is embedded function by function.  IEEE-754
    arithmetic is the Standard Library's executable specification
    ([SpecFloat]): C++ [float] is the binary32 instance, [double] the
    binary64 one.  The flat sample buffer of [WavetableMulti] is a list
    addressed by integer offsets; reads and writes outside the buffer are
    errors.  The numerical primitives the unit links against (libm's
    [logf]/[expf], [std::polar], the [std::complex] products and kiss_fft)
    are the variables of a section. *)

From Stdlib Require Import ZArith Lia Bool SpecFloat.
From stdpp Require Import base list option.
From Stdlib Require String Ascii.

Open Scope Z_scope.

(** ** IEEE-754 formats and the C++ arithmetic conversions *)

Record format := Format { fprec : Z; femax : Z }.

Definition binary32 : format := Format 24 128.
Definition binary64 : format := Format 53 1024.

Section Arith.
Variable fmt : format.

Definition fadd := SFadd (fprec fmt) (femax fmt).
Definition fsub := SFsub (fprec fmt) (femax fmt).
Definition fmul := SFmul (fprec fmt) (femax fmt).
Definition fdiv := SFdiv (fprec fmt) (femax fmt).

(** The value [m * 2^e], rounded to nearest even: integer conversions and
    literals. *)
Definition dyadic (m e : Z) : spec_float :=
  binary_normalize (fprec fmt) (femax fmt) m e false.

Definition of_Z (z : Z) : spec_float := dyadic z 0.

(** Conversion from another format (exact when widening). *)
Definition convert (x : spec_float) : spec_float :=
  match x with
  | S754_finite s m e => binary_round (fprec fmt) (femax fmt) s m e
  | _ => x
  end.

Definition fvalid (x : spec_float) : bool :=
  valid_binary (fprec fmt) (femax fmt) x.
End Arith.

(** [operator<] and [operator<=]; both are false when an operand is NaN. *)
Definition flt (x y : spec_float) : bool := SFltb x y.
Definition fle (x y : spec_float) : bool := SFleb x y.

(** [static_cast<int>(x)]: truncation toward zero.  The conversion is
    undefined for NaN, infinities and values outside [int]. *)
Definition int_min : Z := - 2 ^ 31.
Definition int_max : Z := 2 ^ 31 - 1.

Definition trunc_Z (x : spec_float) : option Z :=
  match x with
  | S754_zero _ => Some 0
  | S754_finite s m e =>
      Some (cond_Zopp s (match e with
                         | Zneg p => Z.pos m / 2 ^ Z.pos p
                         | _ => Z.pos m * 2 ^ e
                         end))
  | _ => None
  end.

Definition to_int (x : spec_float) : option Z :=
  z ← trunc_Z x;
  if decide (int_min <= z <= int_max) then Some z else None.

(** [static_cast<unsigned>(x)], also the implicit conversion of a [float]
    argument to an [unsigned] parameter: truncation toward zero, undefined
    when the truncated value is not an [unsigned]. *)
Definition to_unsigned (x : spec_float) : option Z :=
  z ← trunc_Z x;
  if decide (0 <= z < 2 ^ 32) then Some z else None.

(** [unsigned] arithmetic wraps modulo 2^32. *)
Definition wrap32 (z : Z) : Z := z mod 2 ^ 32.

(** ** [template <class F> F clamp(F x, F lo, F hi)]

    [std::min(a, b)] is [(b < a) ? b : a] and [std::max(a, b)] is
    [(a < b) ? b : a]. *)
Definition std_min {A} (lt : A -> A -> bool) (a b : A) : A :=
  if lt b a then b else a.
Definition std_max {A} (lt : A -> A -> bool) (a b : A) : A :=
  if lt a b then b else a.
Definition clamp {A} (lt : A -> A -> bool) (x lo hi : A) : A :=
  std_max lt lo (std_min lt hi x).

Definition clamp_float := clamp flt.
Definition clamp_int := clamp Z.ltb.

(** ** A reference libm

    [ref_logf] and [ref_expf] evaluate the series of the logarithm and of
    the exponential in fixed point with 64 fractional bits and round the
    result to binary32.  They only serve to instantiate the libm variables
    of the sections below on concrete inputs. *)
Module RefLibm.
Definition fbits : Z := 64.
Definition fone : Z := 2 ^ fbits.

(** [sum_{k < n} z^(2k+1) / (2k+1)], all values scaled by [2^fbits]. *)
Fixpoint atanh_series (n : nat) (k : Z) (zpow zsq acc : Z) : Z :=
  match n with
  | O => acc
  | S n' =>
      atanh_series n' (k + 2) (Z.shiftr (zpow * zsq) fbits) zsq (acc + zpow / k)
  end.

Definition atanh_fix (num den : Z) : Z :=
  let z := num * fone / den in
  atanh_series 24 1 z (Z.shiftr (z * z) fbits) 0.

Definition ln2_fix : Z := 2 * atanh_fix 1 3.

(** [ln (m * 2^e)] for [m > 0], scaled by [2^fbits]. *)
Definition ln_fix (m : positive) (e : Z) : Z :=
  let d := Z.pos (digits2_pos m) in
  let top := 2 ^ (d - 1) in
  (e + d - 1) * ln2_fix + 2 * atanh_fix (Z.pos m - top) (Z.pos m + top).

Definition ref_logf (x : spec_float) : spec_float :=
  match x with
  | S754_nan => S754_nan
  | S754_zero _ => S754_infinity true
  | S754_infinity false => S754_infinity false
  | S754_infinity true => S754_nan
  | S754_finite true _ _ => S754_nan
  | S754_finite false m e => dyadic binary32 (ln_fix m e) (- fbits)
  end.

(** [sum_{j < n} r^j / j!], scaled by [2^fbits]. *)
Fixpoint exp_series (n : nat) (j : Z) (term r acc : Z) : Z :=
  match n with
  | O => acc
  | S n' => exp_series n' (j + 1) (Z.shiftr (term * r) fbits / j) r (acc + term)
  end.

(** The argument [m * 2^e], scaled by [2^fbits]. *)
Definition arg_fix (m : Z) (e : Z) : Z :=
  match fbits + e with
  | Zneg p => m / 2 ^ Z.pos p
  | s => m * 2 ^ s
  end.

Definition exp_finite (s : bool) (m : positive) (e : Z) : spec_float :=
  if 8 <? Z.pos (digits2_pos m) + e
  then (if s then S754_zero false else S754_infinity false)
  else
    let x := cond_Zopp s (arg_fix (Z.pos m) e) in
    let k := (2 * x + ln2_fix) / (2 * ln2_fix) in
    let r := x - k * ln2_fix in
    dyadic binary32 (exp_series 20 1 fone r 0) (k - fbits).

Definition ref_expf (x : spec_float) : spec_float :=
  match x with
  | S754_nan => S754_nan
  | S754_zero _ => of_Z binary32 1
  | S754_infinity false => S754_infinity false
  | S754_infinity true => S754_zero false
  | S754_finite s m e => exp_finite s m e
  end.
End RefLibm.

(** ** [class MipmapRange] *)

Record MipmapRange := { minFrequency : spec_float; maxFrequency : spec_float }.

Module Mipmap.
#[local] Abbreviation f32 := binary32.

Definition N : Z := 24.
Definition F1 : spec_float := of_Z f32 20.
Definition FN : spec_float := of_Z f32 12000.

(** [const float K = 1.0 / F1]: a double division, stored as float. *)
Definition K : spec_float :=
  convert f32 (fdiv binary64 (of_Z binary64 1) (convert binary64 F1)).

Section Libm.
Variable logf expf : spec_float -> spec_float.

(** [const float LogB = std::log(FN / F1) / (N - 1)] *)
Definition LogB : spec_float :=
  fdiv f32 (logf (fdiv f32 FN F1)) (of_Z f32 (N - 1)).

Definition getExactIndexForFrequency (f : spec_float) : spec_float :=
  let t := if flt f F1 then of_Z f32 0
           else fdiv f32 (logf (fmul f32 K f)) LogB in
  clamp_float t (of_Z f32 0) (of_Z f32 (N - 1)).

Definition FrequencyToIndex_size : Z := 1024.

(** Body of the loop that fills [FrequencyToIndex]. *)
Definition FrequencyToIndex_entry (i : Z) : spec_float :=
  let r := fmul f32 (of_Z f32 i)
             (fdiv f32 (of_Z f32 1) (of_Z f32 (FrequencyToIndex_size - 1))) in
  let f := fadd f32 F1 (fmul f32 r (fsub f32 FN F1)) in
  getExactIndexForFrequency f.

Definition FrequencyToIndex : list spec_float :=
  map (fun i : nat => FrequencyToIndex_entry (Z.of_nat i))
      (seq 0 (Z.to_nat (FrequencyToIndex_size - 1)))
  ++ [of_Z f32 (N - 1)].

(** Array subscript; the index is within the array at every use. *)
Definition at_index (table : list spec_float) (i : Z) : spec_float :=
  nth (Z.to_nat i) table S754_nan.

Definition getIndexForFrequency (f : spec_float) : option spec_float :=
  let tableSize := FrequencyToIndex_size in
  let pos := fmul f32 (fsub f32 f F1)
               (fdiv f32 (of_Z f32 (tableSize - 1)) (fsub f32 FN F1)) in
  let pos := clamp_float pos (of_Z f32 0) (of_Z f32 (tableSize - 1)) in
  index1 ← to_int pos;
  let index2 := std_min Z.ltb (index1 + 1) (tableSize - 1) in
  let frac := fsub f32 pos (of_Z f32 index1) in
  Some (fadd f32
          (fmul f32 (fsub f32 (of_Z f32 1) frac) (at_index FrequencyToIndex index1))
          (fmul f32 frac (at_index FrequencyToIndex index2))).

(** [IndexToStartFrequency]: [N + 1] band boundaries. *)
Definition IndexToStartFrequency : list spec_float :=
  map (fun t : nat => fdiv f32 (expf (fmul f32 (of_Z f32 (Z.of_nat t)) LogB)) K)
      (seq 0 (Z.to_nat N))
  ++ [of_Z f32 22050].

Definition getRangeForIndex (o : Z) : MipmapRange :=
  let o := clamp_int o 0 (N - 1) in
  {| minFrequency := at_index IndexToStartFrequency o;
     maxFrequency := at_index IndexToStartFrequency (o + 1) |}.

Definition getRangeForFrequency (f : spec_float) : option MipmapRange :=
  x ← getIndexForFrequency f;
  index ← to_int x;
  Some (getRangeForIndex index).
End Libm.
End Mipmap.

(** ** Complex samples and the harmonic-profile interface *)

(** [std::complex<T>]: real part, imaginary part. *)
Definition cpx : Type := spec_float * spec_float.

(** Value-initialised complex number. *)
Definition czero : cpx := (S754_zero false, S754_zero false).

(** Component-wise conversion between [complex<float>] and
    [complex<double>]. *)
Definition cpx_convert (fmt : format) (z : cpx) : cpx :=
  (convert fmt (fst z), convert fmt (snd z)).

(** [M_PI], the double nearest to pi. *)
Definition M_PI : spec_float := S754_finite false 7074237752028440 (-51).

(** [class HarmonicProfile]: the pure virtual [getHarmonic]. *)
Class HarmonicProfile (P : Type) := getHarmonic : P -> nat -> cpx.

(** [class TabulatedHarmonicProfile]: a span of [complex<float>]. *)
Record TabulatedHarmonicProfile := { _harmonics : list cpx }.

#[export] Instance Tabulated_profile : HarmonicProfile TabulatedHarmonicProfile :=
  fun hp index =>
    match _harmonics hp !! index with
    | None => czero
    | Some h => cpx_convert binary64 h
    end.

(** ** The sample buffer *)

Definition load (data : list spec_float) (p : Z) : option spec_float :=
  if decide (0 <= p) then data !! Z.to_nat p else None.

Definition store (data : list spec_float) (p : Z) (v : spec_float)
  : option (list spec_float) :=
  if decide (0 <= p < Z.of_nat (length data))
  then Some (<[Z.to_nat p := v]> data) else None.

(** Writing a whole span [ptr, ptr + length samples). *)
Definition write_span (data : list spec_float) (ptr : Z) (samples : list spec_float)
  : option (list spec_float) :=
  if decide (0 <= ptr /\ ptr + Z.of_nat (length samples) <= Z.of_nat (length data))
  then Some (take (Z.to_nat ptr) data ++ samples
             ++ drop (Z.to_nat ptr + length samples) data)
  else None.

(** [for (i = start; i < start + n; ++i) body], threading the state and
    stopping at the first error. *)
Fixpoint for_range {S : Type} (n : nat) (start : Z)
    (body : Z -> S -> option S) (s : S) : option S :=
  match n with
  | O => Some s
  | Datatypes.S n' => s' ← body start s; for_range n' (start + 1) body s'
  end.

(** ** [class WavetableMulti] *)

Record WavetableMulti := {
  _tableSize : nat;
  _multiData : list spec_float
}.

Module Wavetable.
#[local] Abbreviation f32 := binary32.
#[local] Abbreviation f64 := binary64.

Definition _tableExtra : Z := 4.
Definition numTables : Z := Mipmap.N.

(** Offset of the first sample of table [index] in [_multiData]. *)
Definition getTablePointer (wm : WavetableMulti) (index : Z) : Z :=
  wrap32 (index * wrap32 (Z.of_nat (_tableSize wm) + wrap32 (2 * _tableExtra)))
  + _tableExtra.

(** Sample [j] of row [index], relative to the table pointer; [j] may
    address the guard samples on either side. *)
Definition row (wm : WavetableMulti) (index j : Z) : option spec_float :=
  load (_multiData wm) (getTablePointer wm index + j).

(** [getTable]: the [_tableSize] samples at the table pointer. *)
Definition getTable (wm : WavetableMulti) (index : Z) : list spec_float :=
  take (_tableSize wm) (drop (Z.to_nat (getTablePointer wm index)) (_multiData wm)).

(** [allocateStorage] once [_multiData.resize] has returned; the size is
    computed in [unsigned] arithmetic.  A [resize] that throws is not a
    path of this model. *)
Definition allocateStorage (tableSize : nat) : WavetableMulti :=
  {| _tableSize := tableSize;
     _multiData :=
       replicate
         (Z.to_nat (wrap32 (wrap32 (Z.of_nat tableSize + wrap32 (2 * _tableExtra))
                            * numTables)))
         (S754_zero false) |}.

(** One pass of the "fill right" loop body: [*dst++ = *src], then [src]
    advances cyclically inside [beg, end). *)
Definition fill_right_step (beg end_ : Z) (st : Z * Z * list spec_float)
  : option (Z * Z * list spec_float) :=
  let '(src, dst, data) := st in
  v ← load data src;
  data' ← store data dst v;
  Some (if decide (src + 1 ≠ end_) then src + 1 else beg, dst + 1, data').

(** One pass of the "fill left" loop body: [*dst-- = *src], then [src]
    retreats cyclically. *)
Definition fill_left_step (beg end_ : Z) (st : Z * Z * list spec_float)
  : option (Z * Z * list spec_float) :=
  let '(src, dst, data) := st in
  v ← load data src;
  data' ← store data dst v;
  Some (if decide (src ≠ beg) then src - 1 else end_ - 1, dst - 1, data').

Definition fillExtra_table (tableSize : nat) (beg : Z) (data : list spec_float)
  : option (list spec_float) :=
  let end_ := beg + Z.of_nat tableSize in
  '(_, _, data) ← for_range (Z.to_nat _tableExtra) 0
                    (fun _ => fill_right_step beg end_) (beg, end_, data);
  '(_, _, data) ← for_range (Z.to_nat _tableExtra) 0
                    (fun _ => fill_left_step beg end_) (end_ - 1, beg - 1, data);
  Some data.

Definition fillExtra (wm : WavetableMulti) : option WavetableMulti :=
  data ← for_range (Z.to_nat numTables) 0
           (fun m data => fillExtra_table (_tableSize wm) (getTablePointer wm m) data)
           (_multiData wm);
  Some {| _tableSize := _tableSize wm; _multiData := data |}.

Section Primitives.
(** libm *)
Variable logf expf : spec_float -> spec_float.
(** [std::polar<double>(rho, theta)] *)
Variable polar : spec_float -> spec_float -> cpx.
(** [operator*] of [std::complex<double>] *)
Variable cmul : cpx -> cpx -> cpx.
(** [std::complex<float>::operator*=(const std::complex<double>&)] *)
Variable cmul_assign : cpx -> cpx -> cpx.
(** [kiss_fftr_alloc(nfft, inverse, 0, 0)] returned a configuration. *)
Variable kiss_fftr_alloc : nat -> bool -> bool.
(** [kiss_fftr]: bin [i] of the forward transform of the samples. *)
Variable kiss_fftr : nat -> list spec_float -> nat -> cpx.
(** [kiss_fftri]: sample [t] of the inverse transform of the bins. *)
Variable kiss_fftri : nat -> list cpx -> nat -> spec_float.

Section Generate.
Context {P : Type} `{HarmonicProfile P}.
Variable hp : P.
Variable size : nat.
Variable amplitude cutoff : spec_float.

(** [const std::complex<double> k = std::polar(amplitude * 0.5, M_PI / 2)] *)
Definition generate_k : cpx :=
  polar (fmul f64 amplitude (dyadic f64 1 (-1)))
        (fdiv f64 M_PI (of_Z f64 2)).

(** [index * (1.0 / size)], in double. *)
Definition normalized_frequency (index : nat) : spec_float :=
  fmul f64 (of_Z f64 (Z.of_nat index))
           (fdiv f64 (of_Z f64 1) (of_Z f64 (Z.of_nat size))).

(** The value stored in [spec[index]]. *)
Definition bin_value (index : nat) : cpx :=
  cpx_convert f32 (cmul generate_k (getHarmonic hp index)).

(** The loop over the bins, from [index] on; [fuel] bounds the number
    of iterations left. *)
Fixpoint fill_bins (fuel index : nat) (spec : list cpx) : list cpx :=
  match fuel with
  | O => spec
  | S fuel' =>
      if decide (index < size / 2 + 1)%nat then
        if flt cutoff (normalized_frequency index) then spec
        else fill_bins fuel' (S index) (<[index := bin_value index]> spec)
      else spec
  end.

(** The spectrum handed to [kiss_fftri]. *)
Definition generate_spectrum : list cpx :=
  fill_bins (size / 2 + 1) 1 (replicate (size / 2 + 1) czero).

(** [HarmonicProfile::generate]: the samples written to the table, or
    [None] when [kiss_fftr_alloc] returns no configuration and
    [std::bad_alloc] is thrown.  [new cpx[size / 2 + 1]()] is taken to
    return: exhaustion of the heap is not a path of this model. *)
Definition generate : option (list spec_float) :=
  if kiss_fftr_alloc size true
  then Some (map (kiss_fftri size generate_spectrum) (seq 0 size))
  else None.
End Generate.

Section Create.
Context {P : Type} `{HarmonicProfile P}.

(** [cutoff] of band [m]. *)
Definition band_cutoff (tableSize : nat) (refSampleRate : spec_float) (m : Z)
  : spec_float :=
  let range := Mipmap.getRangeForIndex logf expf m in
  let freq := convert f64 (maxFrequency range) in
  fdiv f64
    (fdiv f64 (fmul f64 (dyadic f64 1 (-1)) refSampleRate)
              (of_Z f64 (Z.of_nat tableSize)))
    freq.

Definition create_table (hp : P) (amplitude : spec_float) (tableSize : nat)
    (refSampleRate : spec_float) (m : Z) (wm : WavetableMulti)
  : option WavetableMulti :=
  let cutoff := band_cutoff tableSize refSampleRate m in
  let ptr := getTablePointer wm m in
  samples ← generate hp tableSize amplitude cutoff;
  data ← write_span (_multiData wm) ptr samples;
  Some {| _tableSize := _tableSize wm; _multiData := data |}.

Definition createForHarmonicProfile (hp : P) (amplitude : spec_float)
    (tableSize : nat) (refSampleRate : spec_float) : option WavetableMulti :=
  let wm := allocateStorage tableSize in
  wm ← for_range (Z.to_nat numTables) 0
         (create_table hp amplitude tableSize refSampleRate) wm;
  fillExtra wm.
End Create.

(** The scaling loop [for (i = 0; i < specSize; ++i) spec[i] *= k]. *)
Definition scale_step (k : cpx) (i : Z) (spec : list cpx) : option (list cpx) :=
  z ← spec !! Z.to_nat i;
  Some (<[Z.to_nat i := cmul_assign z k]> spec).

(** [createFromAudioData]; [None] when [kiss_fftr_alloc] returns no
    configuration, here or in [generate], or an access is out of range.
    [new cpx[specSize]] is taken to return. *)
Definition createFromAudioData (audioData : list spec_float)
    (amplitude : spec_float) (tableSize : nat) (refSampleRate : spec_float)
  : option WavetableMulti :=
  let fftSize := length audioData in
  let specSize := (fftSize / 2 + 1)%nat in
  if kiss_fftr_alloc fftSize false then
    let spec := map (kiss_fftr fftSize audioData) (seq 0 specSize) in
    let k := polar (fdiv f64 (of_Z f64 2) (of_Z f64 (Z.of_nat fftSize)))
                   (fdiv f64 (SFopp M_PI) (of_Z f64 2)) in
    spec ← for_range specSize 0 (scale_step k) spec;
    createForHarmonicProfile {| _harmonics := spec |}
      amplitude tableSize refSampleRate
  else None.

(** [getTableForFrequency]: the float index is converted to the
    [unsigned] parameter of [getTable]. *)
Definition getTableForFrequency (wm : WavetableMulti) (freq : spec_float)
  : option (list spec_float) :=
  x ← Mipmap.getIndexForFrequency logf freq;
  index ← to_unsigned x;
  Some (getTable wm index).
End Primitives.
End Wavetable.

(** ** [main.cpp] *)

Module Main.
Import Stdlib.Strings.String.
#[local] Open Scope string_scope.

Definition nl : string := String (Ascii.ascii_of_nat 10) EmptyString.

(** The fields of a [drwav] the program reads. *)
Record drwav := { channels : Z; totalPCMFrameCount : Z }.

(** [struct Waveform]; [data] is [None] for a null pointer. *)
Record Waveform := { data : option (list spec_float); size : Z }.

Section ReadFile.
(** [drwav_init_file(&wav, path, nullptr)]: the opened file, or [None]. *)
Variable drwav_init_file : string -> option drwav.
(** [drwav_read_pcm_frames_f32(&wav, n, out)] on a new array of [n]
    floats: the number of frames read and the array afterwards. *)
Variable drwav_read_pcm_frames_f32 : drwav -> Z -> Z * list spec_float.

(** The return value, [wave] afterwards, and the lines printed to
    [stderr]. *)
Definition read_file_waveform (path : string) (wave : Waveform)
  : Z * Waveform * list string :=
  match drwav_init_file path with
  | None => (1, wave, ["Cannot open sound file." ++ nl])
  | Some wav_file =>
      if decide (channels wav_file ≠ 1) then
        (1, wave, ["Sound data does not contain exactly 1 channel." ++ nl])
      else if decide (totalPCMFrameCount wav_file > 65536) then
        (1, wave, ["Sound data is too large." ++ nl])
      else if decide (totalPCMFrameCount wav_file < 4) then
        (1, wave, ["Sound data is too small." ++ nl])
      else if decide (Z.land (totalPCMFrameCount wav_file) 1 ≠ 0) then
        (1, wave, ["Sound data must have an even size." ++ nl])
      else
        let size := wrap32 (totalPCMFrameCount wav_file) in
        let '(n, frames) := drwav_read_pcm_frames_f32 wav_file size in
        let wave := {| data := Some frames; size := size |} in
        if decide (n ≠ size) then (1, wave, ["Cannot read sound data." ++ nl])
        else (0, wave, [])
  end.
End ReadFile.

(** An argument of a [fprintf] call after the default promotions, and a
    call with its format. *)
Inductive printf_arg :=
  | arg_unsigned (u : Z)
  | arg_double (x : spec_float)
  | arg_string (s : string).

Inductive fprintf_call := fprintf (fmt : string) (args : list printf_arg).

(** The call [fprintf(stream, "%s%e", (i > 0) ? ", " : "  ", table[i])]. *)
Definition sample_call (i : Z) (x : spec_float) : fprintf_call :=
  fprintf "%s%e"
    [arg_string (if decide (i > 0) then ", " else "  ");
     arg_double (convert binary64 x)].

(** Body of the inner loop of [write_mipmap]. *)
Definition write_sample (table : list spec_float) (i : Z)
    (out : list fprintf_call) : option (list fprintf_call) :=
  x ← table !! Z.to_nat i;
  Some (out ++ [sample_call i x])%list.

(** Body of the outer loop. *)
Definition write_table (mipmap : WavetableMulti) (tableSize : Z) (tableNo : Z)
    (out : list fprintf_call) : option (list fprintf_call) :=
  let table := Wavetable.getTable mipmap tableNo in
  out ← for_range (Z.to_nat tableSize) 0 (write_sample table) out;
  let out := if decide (tableNo + 1 < Mipmap.N)
             then (out ++ [fprintf "," []])%list else out in
  Some (out ++ [fprintf nl []])%list.

(** The calls before the loops, and the call after them. *)
Definition header (tableSize : Z) : list fprintf_call :=
  [fprintf ("tableSize = %u;" ++ nl) [arg_unsigned tableSize];
   fprintf ("numTables = %u;" ++ nl) [arg_unsigned Mipmap.N];
   fprintf ("firstStartFrequency = %f;" ++ nl)
     [arg_double (convert binary64 Mipmap.F1)];
   fprintf ("lastStartFrequency = %f;" ++ nl)
     [arg_double (convert binary64 Mipmap.FN)];
   fprintf ("waveData = waveform{" ++ nl) []].

Definition footer : fprintf_call := fprintf ("} : (!, _);" ++ nl) [].

(** [write_mipmap]: the calls of [fprintf] on the stream, in order. *)
Definition write_mipmap (mipmap : WavetableMulti) : option (list fprintf_call) :=
  let tableSize := Z.of_nat (_tableSize mipmap) in
  out ← for_range (Z.to_nat Mipmap.N) 0 (write_table mipmap tableSize)
          (header tableSize);
  Some (out ++ [footer])%list.
End Main.

(** ** Reference numerical primitives

    Executable stand-ins for [std::polar], the [std::complex] products and
    the real transforms of kiss_fft (a direct evaluation of the discrete
    Fourier sums in binary32).  Like [RefLibm] they only serve to run the
    model on concrete inputs. *)
Module RefPrims.
Definition tbits : Z := 128.
Definition tone : Z := 2 ^ tbits.
Definition pi_fix : Z := 1069028584064966747859680373161870783300.

(** [sum_{i < n} (-1)^i x^(2i+j) / (2i+j)!], scaled by [2^tbits]; [term] is
    the current summand. *)
Fixpoint trig_series (n : nat) (j : Z) (term xsq acc : Z) : Z :=
  match n with
  | O => acc
  | S n' =>
      trig_series n' (j + 2) (- Z.shiftr (term * xsq) tbits / ((j + 1) * (j + 2)))
        xsq (acc + term)
  end.

(** Reduction of an angle to [-pi, pi). *)
Definition reduce (x : Z) : Z := (x + pi_fix) mod (2 * pi_fix) - pi_fix.

Definition cos_fix (x : Z) : Z :=
  let x := reduce x in trig_series 32 0 tone (Z.shiftr (x * x) tbits) 0.
Definition sin_fix (x : Z) : Z :=
  let x := reduce x in trig_series 32 1 x (Z.shiftr (x * x) tbits) 0.

(** The angle [m * 2^e], scaled by [2^tbits]. *)
Definition angle_fix (x : spec_float) : option Z :=
  match x with
  | S754_zero _ => Some 0
  | S754_finite s m e =>
      Some (cond_Zopp s (match tbits + e with
                         | Zneg p => Z.pos m / 2 ^ Z.pos p
                         | d => Z.pos m * 2 ^ d
                         end))
  | _ => None
  end.

Definition ref_polar (rho theta : spec_float) : cpx :=
  match angle_fix theta with
  | Some x =>
      (fmul binary64 rho (dyadic binary64 (cos_fix x) (- tbits)),
       fmul binary64 rho (dyadic binary64 (sin_fix x) (- tbits)))
  | None => (S754_nan, S754_nan)
  end.

(** The textbook product, in the given format. *)
Definition cpx_mul (fmt : format) (a b : cpx) : cpx :=
  (fsub fmt (fmul fmt (fst a) (fst b)) (fmul fmt (snd a) (snd b)),
   fadd fmt (fmul fmt (fst a) (snd b)) (fmul fmt (snd a) (fst b))).

Definition ref_cmul : cpx -> cpx -> cpx := cpx_mul binary64.

(** [k] is narrowed to [complex<float>] first and the product is formed
    in float, as libstdc++ does for [complex<float>::operator*=]. *)
Definition ref_cmul_assign (z k : cpx) : cpx :=
  cpx_mul binary32 z (cpx_convert binary32 k).

(** kiss_fftr only accepts even sizes. *)
Definition ref_kiss_fftr_alloc (nfft : nat) (inverse : bool) : bool :=
  Nat.even nfft.

(** [cos] and [sin] of [2 pi j / n], in binary32. *)
Definition twiddle (n j : nat) : cpx :=
  let x := 2 * pi_fix * Z.of_nat (j mod n) / Z.of_nat n in
  (dyadic binary32 (cos_fix x) (- tbits), dyadic binary32 (sin_fix x) (- tbits)).

(** Bin [k] of the forward transform: [sum_t x[t] exp(-2 pi i k t / n)]. *)
Definition ref_kiss_fftr (n : nat) (x : list spec_float) (k : nat) : cpx :=
  foldl (fun acc t =>
           let w := twiddle n (k * t) in
           let xt := nth t x (S754_zero false) in
           (fadd binary32 (fst acc) (fmul binary32 xt (fst w)),
            fsub binary32 (snd acc) (fmul binary32 xt (snd w))))
        czero (seq 0 n).

(** Sample [t] of the inverse transform of a half spectrum. *)
Definition ref_kiss_fftri (n : nat) (X : list cpx) (t : nat) : spec_float :=
  foldl (fun acc k =>
           let w := twiddle n (k * t) in
           let z := nth k X czero in
           let term := fsub binary32 (fmul binary32 (fst z) (fst w))
                                     (fmul binary32 (snd z) (snd w)) in
           let weight := if decide (k = 0 \/ 2 * k = n)%nat
                         then of_Z binary32 1 else of_Z binary32 2 in
           fadd binary32 acc (fmul binary32 weight term))
        (S754_zero false) (seq 0 (n / 2 + 1)).
End RefPrims.

(** ** A small run of the reference instance

    A four-sample sine cycle and a profile holding a fundamental only,
    turned into tables of two samples at a 44100 Hz reference rate. *)
Module Examples.
Import RefLibm RefPrims.

Definition sine4 : list spec_float :=
  [of_Z binary32 0; of_Z binary32 1; of_Z binary32 0; of_Z binary32 (-1)].

Definition fundamental : TabulatedHarmonicProfile :=
  {| _harmonics := [czero; (of_Z binary32 1, S754_zero false)] |}.

(** The same profile with a non-zero DC coefficient. *)
Definition fundamental_dc : TabulatedHarmonicProfile :=
  {| _harmonics := [(of_Z binary32 7, of_Z binary32 7);
                    (of_Z binary32 1, S754_zero false)] |}.


Definition ref_generate :=
  Wavetable.generate ref_polar ref_cmul ref_kiss_fftr_alloc ref_kiss_fftri.

Definition ref_createForHarmonicProfile :=
  Wavetable.createForHarmonicProfile ref_logf ref_expf ref_polar ref_cmul
    ref_kiss_fftr_alloc ref_kiss_fftri.

Definition ref_createFromAudioData :=
  Wavetable.createFromAudioData ref_logf ref_expf ref_polar ref_cmul
    ref_cmul_assign ref_kiss_fftr_alloc ref_kiss_fftr ref_kiss_fftri.

Definition unit_amplitude : spec_float := of_Z binary64 1.
Definition rate_44100 : spec_float := of_Z binary64 44100.

Definition tables_of_fundamental : WavetableMulti :=
  Eval vm_compute in
    default (Wavetable.allocateStorage 0)
      (ref_createForHarmonicProfile fundamental unit_amplitude 2%nat rate_44100).

Definition tables_of_sine4 : WavetableMulti :=
  Eval vm_compute in
    default (Wavetable.allocateStorage 0)
      (ref_createFromAudioData sine4 unit_amplitude 2%nat rate_44100).
End Examples.

(** * Properties *)

(** * Floating-point rounding

    Facts about [SpecFloat]'s rounding that the properties of the program
    rest on: rounding to nearest is monotone, and its results are
    canonical. *)

(** ** Bit lengths *)

Lemma digits2_pos_size p : digits2_pos p = Pos.size p.
Proof. induction p; simpl; congruence. Qed.

Lemma Zdigits2_log2 m : 0 < m -> Zdigits2 m = Z.log2 m + 1.
Proof.
  destruct m as [|p|p]; [lia| |lia]. intros _. simpl.
  rewrite digits2_pos_size. destruct p; simpl; lia.
Qed.

Lemma Zdigits2_nonneg m : 0 <= Zdigits2 m.
Proof. destruct m; simpl; lia. Qed.

Lemma Zdigits2_bounds m : 0 < m -> 2 ^ (Zdigits2 m - 1) <= m < 2 ^ Zdigits2 m.
Proof.
  intros Hm. rewrite Zdigits2_log2 by done.
  replace (Z.log2 m + 1 - 1) with (Z.log2 m) by lia.
  apply Z.log2_spec. done.
Qed.

Lemma Zdigits2_unique m d : 0 < m -> 2 ^ (d - 1) <= m < 2 ^ d -> Zdigits2 m = d.
Proof.
  intros Hm Hd. rewrite Zdigits2_log2 by done.
  assert (0 < d).
  { destruct (Z.le_gt_cases d 0); [|done].
    assert (2 ^ d <= 2 ^ 0) by (apply Z.pow_le_mono_r; lia). simpl in *. lia. }
  rewrite (Z.log2_unique m (d - 1)); [lia|lia|].
  replace (Z.succ (d - 1)) with d by lia. done.
Qed.

Lemma Zdigits2_le m1 m2 : 0 <= m1 <= m2 -> Zdigits2 m1 <= Zdigits2 m2.
Proof.
  intros Hm. destruct (decide (m1 = 0)) as [->|]; [apply Zdigits2_nonneg|].
  rewrite !Zdigits2_log2 by lia.
  pose proof (Z.log2_le_mono m1 m2). lia.
Qed.

Lemma Zdigits2_mul_pow2 m k : 0 < m -> 0 <= k -> Zdigits2 (m * 2 ^ k) = Zdigits2 m + k.
Proof.
  intros Hm Hk. rewrite !Zdigits2_log2 by (try apply Z.mul_pos_pos; lia).
  rewrite Z.log2_mul_pow2 by lia. lia.
Qed.

Lemma Zdigits2_div_pow2 m n :
  0 < m -> 0 <= n -> Zdigits2 (m / 2 ^ n) = Z.max 0 (Zdigits2 m - n).
Proof.
  intros Hm Hn. pose proof (Zdigits2_bounds m Hm) as Hb.
  destruct (Z.le_gt_cases (Zdigits2 m) n) as [Hle|Hgt].
  - rewrite Z.div_small; [simpl; lia|]. split; [lia|].
    apply Z.lt_le_trans with (2 ^ Zdigits2 m); [lia|].
    apply Z.pow_le_mono_r; lia.
  - rewrite Z.max_r by lia.
    assert (H2 : 2 ^ (Zdigits2 m - 1) = 2 ^ (Zdigits2 m - n - 1) * 2 ^ n)
      by (rewrite <- Z.pow_add_r by lia; f_equal; lia).
    assert (H3 : 2 ^ Zdigits2 m = 2 ^ (Zdigits2 m - n) * 2 ^ n)
      by (rewrite <- Z.pow_add_r by lia; f_equal; lia).
    assert (0 < 2 ^ n) by (apply Z.pow_pos_nonneg; lia).
    assert (0 < 2 ^ (Zdigits2 m - n - 1)) by (apply Z.pow_pos_nonneg; lia).
    apply Zdigits2_unique.
    + apply Z.div_str_pos. split; [lia|]. nia.
    + split.
      * apply Z.div_le_lower_bound; [lia|]. lia.
      * apply Z.div_lt_upper_bound; [lia|]. lia.
Qed.

Lemma Zdigits2_mul_ge a b : 0 < a -> 0 < b -> Zdigits2 a + Zdigits2 b - 1 <= Zdigits2 (a * b).
Proof.
  intros Ha Hb. rewrite !Zdigits2_log2 by (try apply Z.mul_pos_pos; lia).
  pose proof (Z.log2_mul_below a b Ha Hb). lia.
Qed.

(** ** Shifting with round and sticky bits *)

(** A shift record read as a number with two extra binary places. *)
Definition code (mrs : shr_record) : Z :=
  4 * shr_m mrs + 2 * Z.b2z (shr_r mrs) + Z.b2z (shr_s mrs).

Lemma shr_1_spec mrs :
  0 <= shr_m mrs ->
  shr_1 mrs = {| shr_m := shr_m mrs / 2;
                 shr_r := Z.odd (shr_m mrs);
                 shr_s := shr_r mrs || shr_s mrs |}.
Proof.
  destruct mrs as [m r s]. simpl. intros Hm.
  rewrite <- Z.div2_div.
  destruct m as [|[p|p|]|]; try lia; reflexivity.
Qed.

Lemma iter_pos_nat {A} (f : A -> A) p x :
  SpecFloat.iter_pos f p x = Nat.iter (Pos.to_nat p) f x.
Proof.
  revert x. induction p as [p IH|p IH|]; intros x; cbn [SpecFloat.iter_pos].
  - rewrite !IH, Pos2Nat.inj_xI.
    rewrite <- Nat.iter_succ_r, <- Nat.iter_add. f_equal. lia.
  - rewrite !IH, Pos2Nat.inj_xO, <- Nat.iter_add. f_equal. lia.
  - reflexivity.
Qed.

Lemma shr_spec mrs e n :
  shr mrs e n = (Nat.iter (Z.to_nat n) shr_1 mrs, e + Z.max 0 n).
Proof.
  destruct n as [|p|p]; simpl.
  - by rewrite Z.add_0_r.
  - by rewrite iter_pos_nat.
  - by rewrite Z.add_0_r.
Qed.

Lemma iter_shr_m n mrs :
  0 <= shr_m mrs ->
  shr_m (Nat.iter n shr_1 mrs) = shr_m mrs / 2 ^ Z.of_nat n.
Proof.
  intros Hm. induction n as [|n IH].
  - simpl. by rewrite Z.div_1_r.
  - rewrite Nat2Z.inj_succ, Z.pow_succ_r by lia. simpl.
    rewrite shr_1_spec; rewrite IH.
    + simpl. rewrite Z.div_div by lia. f_equal. lia.
    + apply Z.div_pos; [lia|]. apply Z.pow_pos_nonneg; lia.
Qed.

Lemma iter_shr_nonneg n mrs :
  0 <= shr_m mrs -> 0 <= shr_m (Nat.iter n shr_1 mrs).
Proof.
  intros Hm. rewrite iter_shr_m by done.
  apply Z.div_pos; [lia|]. apply Z.pow_pos_nonneg; lia.
Qed.

Lemma code_shr_1 mrs :
  0 <= shr_m mrs ->
  code (shr_1 mrs) = 2 * shr_m mrs + Z.b2z (shr_r mrs || shr_s mrs).
Proof.
  intros Hm. rewrite shr_1_spec by done. unfold code. simpl.
  pose proof (Z.div2_odd (shr_m mrs)) as Hd. rewrite Z.div2_div in Hd. lia.
Qed.

Lemma code_shr_1_mono a b :
  0 <= shr_m a -> code a <= code b -> code (shr_1 a) <= code (shr_1 b).
Proof.
  intros Ha Hab.
  assert (Hb : 0 <= shr_m b).
  { unfold code in Hab. destruct (shr_r a), (shr_s a), (shr_r b), (shr_s b);
      simpl in Hab; lia. }
  rewrite !code_shr_1 by done. unfold code in Hab.
  destruct (shr_r a), (shr_s a), (shr_r b), (shr_s b); simpl in *; lia.
Qed.

Lemma code_iter_mono n a b :
  0 <= shr_m a -> code a <= code b ->
  code (Nat.iter n shr_1 a) <= code (Nat.iter n shr_1 b).
Proof.
  intros Ha Hab. induction n as [|n IH]; [done|]. simpl.
  apply code_shr_1_mono; [by apply iter_shr_nonneg|done].
Qed.

(** Shifting out zeros loses nothing. *)
Lemma iter_shr_exact n m :
  0 <= m ->
  Nat.iter n shr_1 {| shr_m := m * 2 ^ Z.of_nat n; shr_r := false; shr_s := false |}
  = {| shr_m := m; shr_r := false; shr_s := false |}.
Proof.
  revert m. induction n as [|n IH]; intros m Hm.
  - simpl. f_equal. lia.
  - rewrite Nat.iter_succ_r. rewrite shr_1_spec; simpl.
    2:{ apply Z.mul_nonneg_nonneg; [lia|]. apply Z.pow_nonneg. lia. }
    rewrite Nat2Z.inj_succ, Z.pow_succ_r by lia.
    replace (m * (2 * 2 ^ Z.of_nat n)) with (m * 2 ^ Z.of_nat n * 2) by lia.
    rewrite Z.div_mul by lia. rewrite Z.odd_mul, Bool.andb_false_r. simpl.
    by apply IH.
Qed.

(** The rounded mantissa of a shift record. *)
Definition rounded (mrs : shr_record) : Z :=
  round_nearest_even (shr_m mrs) (loc_of_shr_record mrs).

Lemma rounded_bounds mrs : shr_m mrs <= rounded mrs <= shr_m mrs + 1.
Proof.
  destruct mrs as [m [|] [|]]; unfold rounded; simpl; try lia.
  destruct (Z.even m); lia.
Qed.

Lemma rounded_mono a b : code a <= code b -> rounded a <= rounded b.
Proof.
  intros Hab. pose proof (rounded_bounds a). pose proof (rounded_bounds b).
  destruct (Z.lt_trichotomy (shr_m a) (shr_m b)) as [Hlt|[Heq|Hgt]]; [lia| |].
  - unfold code in Hab. rewrite Heq in Hab.
    destruct a as [ma ra sa], b as [mb rb sb]. simpl in *. subst mb.
    unfold rounded. simpl.
    destruct ra, sa, rb, sb; simpl in *; try lia; destruct (Z.even ma); lia.
  - unfold code in Hab.
    destruct (shr_r a), (shr_s a), (shr_r b), (shr_s b); simpl in Hab; lia.
Qed.

Lemma rounded_exact m :
  rounded {| shr_m := m; shr_r := false; shr_s := false |} = m.
Proof. reflexivity. Qed.

(** ** Order of floats *)

(** [<=] on floats is transitive, whatever the mantissas and exponents. *)
Lemma SFleb_trans_ltb a b c :
  SFleb a b = true -> SFleb b c = true -> SFltb c a = false.
Proof.
  unfold SFleb, SFltb.
  destruct a as [sa|sa| |sa ma ea], b as [sb|sb| |sb mb eb], c as [sc|sc| |sc mc ec];
    simpl; try discriminate; try reflexivity;
    try (destruct sa; try discriminate; try reflexivity);
    try (destruct sb; try discriminate; try reflexivity);
    try (destruct sc; try discriminate; try reflexivity);
    repeat match goal with
    | |- context [Z.compare ?x ?y] => destruct (Z.compare_spec x y); try lia
    end; simpl; try discriminate; try reflexivity;
    change (Pos.compare_cont Eq) with Pos.compare;
    repeat match goal with
    | |- context [Pos.compare ?x ?y] => destruct (Pos.compare_spec x y); try lia
    end; simpl; try discriminate; try reflexivity; try lia.
Qed.


(** ** Rounding an exact dyadic value *)

Section Rounding.
Variable prec emax : Z.
Hypothesis prec_pos : 0 < prec.

#[local] Abbreviation fexp' := (fexp prec emax).
#[local] Abbreviation emin' := (emin prec emax).

(** The mantissa has no more low-order bits to lose than rounding takes
    away: [binary_round_aux] shifts right only. *)
Definition aligned (m e : Z) : Prop := e <= fexp' (Zdigits2 m + e).

(** Mantissa and exponent after the first rounding step. *)
Definition round_pos (m e : Z) : Z * Z :=
  let E := fexp' (Zdigits2 m + e) in
  (rounded (Nat.iter (Z.to_nat (E - e)) shr_1
              {| shr_m := m; shr_r := false; shr_s := false |}), E).

(** Renormalisation and overflow check. *)
Definition finish (s : bool) (m E : Z) : spec_float :=
  if m =? 0 then S754_zero s
  else if m <? 2 ^ prec then
    if E <=? emax - prec then S754_finite s (Z.to_pos m) E else S754_infinity s
  else
    if E + 1 <=? emax - prec
    then S754_finite s (Z.to_pos (2 ^ (prec - 1))) (E + 1)
    else S754_infinity s.

Lemma fexp_spec e : fexp' e = Z.max (e - prec) emin'.
Proof. reflexivity. Qed.

Lemma round_pos_bounds m e :
  0 < m -> aligned m e ->
  let '(m', E) := round_pos m e in
  0 <= m' <= 2 ^ prec /\ emin' <= E /\ e <= E /\
  (emin' < E -> 2 ^ (prec - 1) <= m').
Proof.
  intros Hm Hal. unfold round_pos, aligned in *.
  set (d := Zdigits2 m) in *. set (E := fexp' (d + e)) in *.
  set (n := Z.to_nat (E - e)).
  set (mrs := Nat.iter n shr_1 _).
  assert (HE : E = Z.max (d + e - prec) emin') by reflexivity.
  assert (Hq : shr_m mrs = m / 2 ^ (E - e)).
  { unfold mrs. rewrite iter_shr_m by (simpl; lia). simpl. f_equal. f_equal. lia. }
  pose proof (rounded_bounds mrs) as Hr. rewrite Hq in Hr.
  pose proof (Zdigits2_div_pow2 m (E - e) Hm ltac:(lia)) as Hd. fold d in Hd.
  assert (Hq0 : 0 <= m / 2 ^ (E - e)).
  { apply Z.div_pos; [lia|]. apply Z.pow_pos_nonneg; lia. }
  assert (Hqlt : m / 2 ^ (E - e) < 2 ^ prec).
  { destruct (decide (m / 2 ^ (E - e) = 0)) as [->|Hne];
      [apply Z.pow_pos_nonneg; lia|].
    pose proof (Zdigits2_bounds (m / 2 ^ (E - e)) ltac:(lia)) as Hb.
    apply Z.lt_le_trans with (2 ^ Zdigits2 (m / 2 ^ (E - e))); [lia|].
    apply Z.pow_le_mono_r; lia. }
  split; [lia|]. split; [lia|]. split; [lia|].
  intros HEmin.
  assert (Hdq : Zdigits2 (m / 2 ^ (E - e)) = prec) by lia.
  assert (0 < m / 2 ^ (E - e)).
  { destruct (decide (m / 2 ^ (E - e) = 0)) as [Hz|]; [|lia].
    rewrite Hz in Hdq. simpl in Hdq. lia. }
  pose proof (Zdigits2_bounds (m / 2 ^ (E - e)) ltac:(lia)) as Hb.
  rewrite Hdq in Hb. lia.
Qed.

Lemma shr_fexp_exact_small m E :
  0 <= m < 2 ^ prec -> emin' <= E ->
  shr_fexp prec emax m E loc_Exact
  = ({| shr_m := m; shr_r := false; shr_s := false |}, E).
Proof.
  intros Hm HE. unfold shr_fexp. rewrite shr_spec. simpl shr_record_of_loc.
  assert (Hd : Zdigits2 m <= prec).
  { destruct (decide (m = 0)) as [->|]; [simpl; lia|].
    destruct (Z.le_gt_cases (Zdigits2 m) prec); [done|].
    pose proof (Zdigits2_bounds m ltac:(lia)).
    assert (2 ^ prec <= 2 ^ (Zdigits2 m - 1)) by (apply Z.pow_le_mono_r; lia).
    lia. }
  assert (Hn : fexp' (Zdigits2 m + E) - E <= 0) by (rewrite fexp_spec; lia).
  rewrite Z2Nat.nonpos, Z.max_l by lia. simpl. f_equal. lia.
Qed.

Lemma shr_fexp_exact_carry E :
  emin' <= E ->
  shr_fexp prec emax (2 ^ prec) E loc_Exact
  = ({| shr_m := 2 ^ (prec - 1); shr_r := false; shr_s := false |}, E + 1).
Proof.
  intros HE. unfold shr_fexp. rewrite shr_spec. simpl shr_record_of_loc.
  assert (Hp : 0 < 2 ^ prec) by (apply Z.pow_pos_nonneg; lia).
  assert (Hd : Zdigits2 (2 ^ prec) = prec + 1).
  { apply Zdigits2_unique; [done|].
    replace (prec + 1 - 1) with prec by lia. split; [lia|].
    apply Z.pow_lt_mono_r; lia. }
  rewrite Hd. assert (Hn : fexp' (prec + 1 + E) - E = 1) by (rewrite fexp_spec; lia).
  rewrite Hn. change (Z.to_nat 1) with 1%nat. rewrite Z.max_r by lia.
  f_equal.
  replace (2 ^ prec) with (2 ^ (prec - 1) * 2 ^ Z.of_nat 1).
  2:{ change (2 ^ Z.of_nat 1) with (2 ^ 1). rewrite <- Z.pow_add_r by lia.
      f_equal. lia. }
  apply iter_shr_exact. apply Z.pow_nonneg. lia.
Qed.

(** [binary_round_aux] on an exact, aligned input. *)
Lemma binary_round_aux_exact s m e :
  0 < m -> aligned m e ->
  binary_round_aux prec emax s m e loc_Exact
  = finish s (fst (round_pos m e)) (snd (round_pos m e)).
Proof.
  intros Hm Hal. pose proof (round_pos_bounds m e Hm Hal) as Hb.
  unfold binary_round_aux.
  assert (H1 : shr_fexp prec emax m e loc_Exact
               = (Nat.iter (Z.to_nat (fexp' (Zdigits2 m + e) - e)) shr_1
                    {| shr_m := m; shr_r := false; shr_s := false |},
                  fexp' (Zdigits2 m + e))).
  { unfold shr_fexp. rewrite shr_spec. simpl shr_record_of_loc. f_equal.
    unfold aligned in Hal. lia. }
  rewrite H1. unfold round_pos in *. simpl fst. simpl snd.
  fold (rounded (Nat.iter (Z.to_nat (fexp' (Zdigits2 m + e) - e)) shr_1
                   {| shr_m := m; shr_r := false; shr_s := false |})).
  set (m' := rounded _) in *. set (E := fexp' (Zdigits2 m + e)) in *.
  destruct Hb as (Hm' & HE & _ & _).
  unfold finish.
  destruct (Z.eqb_spec m' 0) as [Hz|Hnz].
  - rewrite Hz, shr_fexp_exact_small; [done| |done].
    split; [lia|]. apply Z.pow_pos_nonneg; lia.
  - destruct (Z.ltb_spec m' (2 ^ prec)) as [Hlt|Hge].
    + rewrite shr_fexp_exact_small by (done || lia). simpl.
      destruct m' as [|p|p]; [lia| |lia]. reflexivity.
    + assert (Heq : m' = 2 ^ prec) by lia. rewrite Heq.
      rewrite shr_fexp_exact_carry by done. simpl.
      assert (0 < 2 ^ (prec - 1)) by (apply Z.pow_pos_nonneg; lia).
      destruct (2 ^ (prec - 1)) as [|p|p]; [lia| |lia]. reflexivity.
Qed.

(** Order of two rounded results before renormalisation. *)
Definition rounds_below (r1 r2 : Z * Z) : Prop :=
  snd r1 < snd r2 \/ (snd r1 = snd r2 /\ fst r1 <= fst r2).

(** What [round_pos] guarantees about its result. *)
Definition rounded_ok (r : Z * Z) : Prop :=
  0 <= fst r <= 2 ^ prec /\ emin' <= snd r /\
  (emin' < snd r -> 2 ^ (prec - 1) <= fst r).

Lemma round_pos_ok m e : 0 < m -> aligned m e -> rounded_ok (round_pos m e).
Proof.
  intros Hm Hal. pose proof (round_pos_bounds m e Hm Hal) as Hb.
  destruct (round_pos m e) as [m' E]. unfold rounded_ok. simpl. tauto.
Qed.

Lemma finish_mono r1 r2 :
  rounded_ok r1 -> rounded_ok r2 -> rounds_below r1 r2 ->
  SFleb (finish false (fst r1) (snd r1)) (finish false (fst r2) (snd r2)) = true.
Proof.
  destruct r1 as [m1 E1], r2 as [m2 E2]. unfold rounded_ok, rounds_below. simpl.
  intros (Hm1 & HE1 & Hn1) (Hm2 & HE2 & Hn2) Hle.
  assert (Hhalf : 0 < 2 ^ (prec - 1)) by (apply Z.pow_pos_nonneg; lia).
  assert (Hdbl : 2 ^ prec = 2 * 2 ^ (prec - 1)).
  { rewrite <- Z.pow_succ_r by lia. f_equal. lia. }
  unfold finish.
  destruct (Z.eqb_spec m1 0), (Z.eqb_spec m2 0),
    (Z.ltb_spec m1 (2 ^ prec)), (Z.ltb_spec m2 (2 ^ prec)),
    (Z.leb_spec E1 (emax - prec)), (Z.leb_spec E2 (emax - prec)),
    (Z.leb_spec (E1 + 1) (emax - prec)), (Z.leb_spec (E2 + 1) (emax - prec));
    try lia; try reflexivity;
    unfold SFleb, SFcompare;
    repeat match goal with
    | |- context [Z.compare ?a ?b] => destruct (Z.compare_spec a b); try lia
    end; try reflexivity;
    match goal with
    | |- context [Pos.compare_cont Eq ?a ?b] =>
        change (Pos.compare_cont Eq a b) with (Pos.compare a b);
        destruct (Pos.compare_spec a b) as [Hc|Hc|Hc]; try reflexivity
    end; lia.
Qed.

Lemma fexp_mono a b : a <= b -> fexp' a <= fexp' b.
Proof. rewrite !fexp_spec. lia. Qed.

Lemma round_pos_mono_same_exponent m1 m2 e :
  0 < m1 <= m2 -> aligned m1 e -> aligned m2 e ->
  rounds_below (round_pos m1 e) (round_pos m2 e).
Proof.
  intros Hm Hal1 Hal2. unfold rounds_below, round_pos. simpl.
  pose proof (Zdigits2_le m1 m2 ltac:(lia)) as Hd.
  pose proof (fexp_mono (Zdigits2 m1 + e) (Zdigits2 m2 + e) ltac:(lia)) as HE.
  destruct (Z.eq_dec (fexp' (Zdigits2 m1 + e)) (fexp' (Zdigits2 m2 + e)))
    as [Heq|Hne]; [|lia].
  right. split; [done|]. rewrite Heq.
  apply rounded_mono, code_iter_mono; [simpl; lia|]. unfold code. simpl. lia.
Qed.

Lemma aligned_shift m e k :
  0 < m -> 0 <= k -> aligned m e -> aligned (m * 2 ^ k) (e - k).
Proof.
  intros Hm Hk Hal. unfold aligned in *.
  rewrite Zdigits2_mul_pow2 by done.
  replace (Zdigits2 m + k + (e - k)) with (Zdigits2 m + e) by lia. lia.
Qed.

(** The result depends on the value only, not on how it is written. *)
Lemma round_pos_shift m e k :
  0 < m -> 0 <= k -> aligned m e ->
  round_pos (m * 2 ^ k) (e - k) = round_pos m e.
Proof.
  intros Hm Hk Hal. unfold round_pos, aligned in *.
  rewrite Zdigits2_mul_pow2 by done.
  replace (Zdigits2 m + k + (e - k)) with (Zdigits2 m + e) by lia.
  f_equal. f_equal.
  replace (Z.to_nat (fexp' (Zdigits2 m + e) - (e - k)))
    with (Z.to_nat (fexp' (Zdigits2 m + e) - e) + Z.to_nat k)%nat by lia.
  rewrite Nat.iter_add. f_equal.
  pose proof (iter_shr_exact (Z.to_nat k) m ltac:(lia)) as Hex.
  by rewrite Z2Nat.id in Hex by done.
Qed.

(** Rounding to nearest is monotone: values in the same order round to
    floats in the same order. *)
Lemma binary_round_aux_mono m1 e1 m2 e2 :
  0 < m1 -> 0 < m2 -> aligned m1 e1 -> aligned m2 e2 ->
  m1 * 2 ^ (e1 - Z.min e1 e2) <= m2 * 2 ^ (e2 - Z.min e1 e2) ->
  rounds_below (round_pos m1 e1) (round_pos m2 e2).
Proof.
  intros Hm1 Hm2 Hal1 Hal2 Hle.
  set (e0 := Z.min e1 e2) in *.
  rewrite <- (round_pos_shift m1 e1 (e1 - e0)) by (done || lia).
  rewrite <- (round_pos_shift m2 e2 (e2 - e0)) by (done || lia).
  replace (e1 - (e1 - e0)) with e0 by lia.
  replace (e2 - (e2 - e0)) with e0 by lia.
  assert (0 < 2 ^ (e1 - e0)) by (apply Z.pow_pos_nonneg; lia).
  apply round_pos_mono_same_exponent.
  - split; [nia|done].
  - replace e0 with (e1 - (e1 - e0)) at 2 by lia.
    apply aligned_shift; (done || lia).
  - replace e0 with (e2 - (e2 - e0)) at 2 by lia.
    apply aligned_shift; (done || lia).
Qed.

(** ** Comparing dyadic values *)

(** [m1 * 2^e1 <= m2 * 2^e2], stated over the integers. *)
Definition dle (m1 e1 m2 e2 : Z) : Prop :=
  m1 * 2 ^ (e1 - Z.min e1 e2) <= m2 * 2 ^ (e2 - Z.min e1 e2).

Lemma dle_iff m1 e1 m2 e2 z :
  z <= e1 -> z <= e2 ->
  dle m1 e1 m2 e2 <-> m1 * 2 ^ (e1 - z) <= m2 * 2 ^ (e2 - z).
Proof.
  intros H1 H2. unfold dle. set (e0 := Z.min e1 e2).
  assert (Hp : 0 < 2 ^ (e0 - z)) by (apply Z.pow_pos_nonneg; lia).
  replace (e1 - z) with ((e1 - e0) + (e0 - z)) by lia.
  replace (e2 - z) with ((e2 - e0) + (e0 - z)) by lia.
  rewrite !Z.pow_add_r by lia. rewrite !Z.mul_assoc.
  split; intros H.
  - by apply Z.mul_le_mono_nonneg_r; [lia|].
  - by apply Z.mul_le_mono_pos_r in H.
Qed.


(** ** [binary_round] and [binary_normalize] *)

Lemma shl_align_spec m e e' :
  Z.pos (fst (shl_align m e e')) = Z.pos m * 2 ^ (e - snd (shl_align m e e')) /\
  snd (shl_align m e e') = Z.min e e'.
Proof.
  unfold shl_align. destruct (e' - e) as [|d|d] eqn:Hd; simpl.
  - rewrite Z.sub_diag. simpl. lia.
  - rewrite Z.sub_diag. simpl. lia.
  - replace (e - e') with (Z.pos d) by lia.
    change (Pos.iter xO m d) with (shift_pos d m).
    rewrite shift_pos_correct, Z.pow_pos_fold. lia.
Qed.

(** Rounding of the value [m * 2^e], however it is written. *)
Definition round_dyadic (m e : Z) : Z * Z :=
  let e0 := Z.min e (fexp' (Zdigits2 m + e)) in
  round_pos (m * 2 ^ (e - e0)) e0.

Lemma round_dyadic_rep m e :
  0 < m ->
  let e0 := Z.min e (fexp' (Zdigits2 m + e)) in
  0 < m * 2 ^ (e - e0) /\ aligned (m * 2 ^ (e - e0)) e0.
Proof.
  intros Hm e0.
  assert (0 < 2 ^ (e - e0)) by (apply Z.pow_pos_nonneg; lia).
  split; [nia|]. unfold aligned. rewrite Zdigits2_mul_pow2 by lia.
  replace (Zdigits2 m + (e - e0) + e0) with (Zdigits2 m + e) by lia. lia.
Qed.

Lemma round_dyadic_aligned m e :
  0 < m -> aligned m e -> round_dyadic m e = round_pos m e.
Proof.
  intros Hm Hal. unfold round_dyadic, aligned in *.
  rewrite Z.min_l by done. rewrite Z.sub_diag. simpl. by rewrite Z.mul_1_r.
Qed.

Lemma round_dyadic_ok m e : 0 < m -> rounded_ok (round_dyadic m e).
Proof.
  intros Hm. destruct (round_dyadic_rep m e Hm) as [Hpos Hal].
  by apply round_pos_ok.
Qed.


Lemma round_dyadic_mono m1 e1 m2 e2 :
  0 < m1 -> 0 < m2 -> dle m1 e1 m2 e2 ->
  rounds_below (round_dyadic m1 e1) (round_dyadic m2 e2).
Proof.
  intros Hm1 Hm2 Hle.
  destruct (round_dyadic_rep m1 e1 Hm1) as [Hp1 Hal1].
  destruct (round_dyadic_rep m2 e2 Hm2) as [Hp2 Hal2].
  unfold round_dyadic.
  set (f1 := Z.min e1 (fexp' (Zdigits2 m1 + e1))) in *.
  set (f2 := Z.min e2 (fexp' (Zdigits2 m2 + e2))) in *.
  apply binary_round_aux_mono; try done.
  fold (dle (m1 * 2 ^ (e1 - f1)) f1 (m2 * 2 ^ (e2 - f2)) f2).
  apply (dle_iff _ _ _ _ (Z.min f1 f2)); [lia|lia|].
  apply (dle_iff _ _ _ _ (Z.min f1 f2)) in Hle; [|lia|lia].
  rewrite <- !Z.mul_assoc, <- !Z.pow_add_r by lia.
  replace (e1 - f1 + (f1 - Z.min f1 f2)) with (e1 - Z.min f1 f2) by lia.
  replace (e2 - f2 + (f2 - Z.min f1 f2)) with (e2 - Z.min f1 f2) by lia.
  done.
Qed.

Lemma binary_round_spec s m e :
  binary_round prec emax s m e
  = finish s (fst (round_dyadic (Z.pos m) e)) (snd (round_dyadic (Z.pos m) e)).
Proof.
  unfold binary_round.
  destruct (shl_align_spec m e (fexp' (Z.pos (digits2_pos m) + e))) as [Hm He].
  destruct (shl_align m e _) as [mz ez]. simpl in Hm, He.
  destruct (round_dyadic_rep (Z.pos m) e ltac:(lia)) as [Hpos Hal].
  unfold round_dyadic. simpl Zdigits2 in *. rewrite <- He, <- Hm in *.
  by apply binary_round_aux_exact.
Qed.

(** ** Shape and order of rounded results *)

Lemma pow2_prec_double : 2 ^ prec = 2 * 2 ^ (prec - 1).
Proof. rewrite <- Z.pow_succ_r by lia. f_equal. lia. Qed.

Lemma finish_cases s r :
  rounded_ok r ->
  finish s (fst r) (snd r) = S754_zero s /\ fst r = 0
  \/ finish s (fst r) (snd r) = S754_infinity s /\ 0 < fst r
  \/ exists a b, finish s (fst r) (snd r) = S754_finite s a b /\
                 0 < fst r /\ Z.pos a < 2 ^ prec /\ emin' <= b <= emax - prec /\
                 (emin' < b -> 2 ^ (prec - 1) <= Z.pos a) /\
                 (snd r < b \/ (snd r = b /\ fst r = Z.pos a)) /\
                 (snd r < b -> Z.pos a = 2 ^ (prec - 1) /\ fst r = 2 ^ prec /\ b = snd r + 1).
Proof.
  destruct r as [m E]. unfold rounded_ok. simpl. intros (Hm & HE & Hn).
  assert (Hhalf : 0 < 2 ^ (prec - 1)) by (apply Z.pow_pos_nonneg; lia).
  pose proof pow2_prec_double as Hdbl.
  unfold finish.
  destruct (Z.eqb_spec m 0); [by left|].
  destruct (Z.ltb_spec m (2 ^ prec)).
  - destruct (Z.leb_spec E (emax - prec)); [|right; left; split; [done|lia]].
    right. right. exists (Z.to_pos m), E.
    rewrite Z2Pos.id by lia. repeat split; try lia.
  - destruct (Z.leb_spec (E + 1) (emax - prec)); [|right; left; split; [done|lia]].
    right. right. exists (Z.to_pos (2 ^ (prec - 1))), (E + 1).
    rewrite Z2Pos.id by lia. repeat split; try lia.
Qed.

Lemma finish_valid s r :
  rounded_ok r -> valid_binary prec emax (finish s (fst r) (snd r)) = true.
Proof.
  intros Hok. destruct (finish_cases s r Hok)
    as [[-> _]|[[-> _]|(a & b & -> & Hpos & Hlt & Hb & Hn & _)]]; [done|done|].
  unfold valid_binary, bounded, canonical_mantissa.
  apply andb_true_intro. split; [|apply Z.leb_le; lia].
  apply Z.eqb_eq. change (Z.pos (digits2_pos a)) with (Zdigits2 (Z.pos a)).
  rewrite fexp_spec.
  assert (Hd : Zdigits2 (Z.pos a) <= prec).
  { destruct (Z.le_gt_cases (Zdigits2 (Z.pos a)) prec); [done|].
    pose proof (Zdigits2_bounds (Z.pos a) ltac:(lia)).
    assert (2 ^ prec <= 2 ^ (Zdigits2 (Z.pos a) - 1)) by (apply Z.pow_le_mono_r; lia).
    lia. }
  destruct (Z.eq_dec b emin') as [->|Hne]; [lia|].
  specialize (Hn ltac:(lia)).
  assert (Zdigits2 (Z.pos a) = prec); [|lia].
  apply Zdigits2_unique; lia.
Qed.

(** Two results in rounding order, once renormalised, are in value
    order. *)
Lemma finish_dle r1 r2 a1 b1 a2 b2 :
  rounded_ok r1 -> rounded_ok r2 -> rounds_below r1 r2 ->
  finish false (fst r1) (snd r1) = S754_finite false a1 b1 ->
  finish false (fst r2) (snd r2) = S754_finite false a2 b2 ->
  dle (Z.pos a1) b1 (Z.pos a2) b2.
Proof.
  intros Hok1 Hok2 Hle H1 H2.
  destruct (finish_cases false r1 Hok1)
    as [[Hf _]|[[Hf _]|(a & b & Hf & Hp1 & Hlt1 & Hb1 & Hn1 & Hs1 & Hc1)]];
    rewrite Hf in H1; try discriminate. injection H1 as -> ->.
  destruct (finish_cases false r2 Hok2)
    as [[Hf' _]|[[Hf' _]|(a & b & Hf' & Hp2 & Hlt2 & Hb2 & Hn2 & Hs2 & Hc2)]];
    rewrite Hf' in H2; try discriminate. injection H2 as -> ->.
  destruct r1 as [m1 E1], r2 as [m2 E2]. unfold rounds_below in Hle.
  destruct Hok1 as (Hm1 & HE1 & _), Hok2 as (Hm2 & HE2 & HN2). simpl in *.
  pose proof pow2_prec_double as Hdbl.
  assert (Hord : b1 < b2 \/ (b1 = b2 /\ Z.pos a1 <= Z.pos a2)) by lia.
  unfold dle. destruct Hord as [Hlt|[-> Ha]].
  - rewrite Z.min_l, Z.sub_diag by lia. simpl.
    assert (2 ^ 1 <= 2 ^ (b2 - b1)) by (apply Z.pow_le_mono_r; lia).
    change (2 ^ 1) with 2 in *. specialize (Hn2 ltac:(lia)). nia.
  - rewrite Z.min_id, Z.sub_diag. simpl. lia.
Qed.

(** ** Products *)

Lemma SFmul_finite_spec sx mx ex sy my ey :
  2 ^ (prec - 1) <= Z.pos mx ->
  SFmul prec emax (S754_finite sx mx ex) (S754_finite sy my ey)
  = finish (xorb sx sy)
      (fst (round_pos (Z.pos (mx * my)) (ex + ey)))
      (snd (round_pos (Z.pos (mx * my)) (ex + ey)))
  /\ aligned (Z.pos (mx * my)) (ex + ey).
Proof.
  intros Hx.
  assert (Hal : aligned (Z.pos (mx * my)) (ex + ey)).
  { unfold aligned. rewrite fexp_spec. rewrite Pos2Z.inj_mul.
    pose proof (Zdigits2_mul_ge (Z.pos mx) (Z.pos my) ltac:(lia) ltac:(lia)).
    assert (prec <= Zdigits2 (Z.pos mx)).
    { destruct (Z.le_gt_cases prec (Zdigits2 (Z.pos mx))); [done|].
      pose proof (Zdigits2_bounds (Z.pos mx) ltac:(lia)).
      assert (2 ^ Zdigits2 (Z.pos mx) <= 2 ^ (prec - 1))
        by (apply Z.pow_le_mono_r; [lia|lia]).
      lia. }
    assert (1 <= Zdigits2 (Z.pos my)) by (simpl; lia). lia. }
  split; [|done]. simpl. by apply binary_round_aux_exact.
Qed.

(** ** Signs *)




(** ** Integers converted to floating point, then scaled *)

Hypothesis emax_big : 2 < emax.



(** ** Non-negative canonical floats *)

(** [+0] or a positive finite canonical float. *)
Definition good (x : spec_float) : Prop :=
  match x with
  | S754_zero false => True
  | S754_finite false m e => valid_binary prec emax x = true
  | _ => False
  end.

(** Mantissa and exponent of a good float. *)
Definition dy (x : spec_float) : Z * Z :=
  match x with
  | S754_finite _ m e => (Z.pos m, e)
  | _ => (0, 0)
  end.

(** The float nearest to [m * 2^e], for [m >= 0]. *)
Definition nearest (m e : Z) : spec_float := binary_normalize prec emax m e false.

Lemma emin_neg : emin' < 0.
Proof. unfold emin. lia. Qed.

Lemma valid_canonical s m e :
  valid_binary prec emax (S754_finite s m e) = true ->
  fexp' (Zdigits2 (Z.pos m) + e) = e /\ e <= emax - prec /\
  Z.pos m < 2 ^ prec /\ emin' <= e /\
  (emin' < e -> 2 ^ (prec - 1) <= Z.pos m).
Proof.
  unfold valid_binary, bounded, canonical_mantissa.
  intros [Hc He]%andb_prop. apply Z.eqb_eq in Hc. apply Z.leb_le in He.
  change (Z.pos (digits2_pos m)) with (Zdigits2 (Z.pos m)) in Hc.
  pose proof (Zdigits2_bounds (Z.pos m) ltac:(lia)) as Hb.
  rewrite fexp_spec in Hc.
  assert (Hd : Zdigits2 (Z.pos m) <= prec) by lia.
  assert (2 ^ Zdigits2 (Z.pos m) <= 2 ^ prec) by (apply Z.pow_le_mono_r; lia).
  split; [by rewrite fexp_spec|]. split; [done|]. split; [lia|]. split; [lia|].
  intros Hn. assert (Zdigits2 (Z.pos m) = prec) as Heq by lia.
  rewrite Heq in Hb. lia.
Qed.

Lemma valid_rounded_ok s m e :
  valid_binary prec emax (S754_finite s m e) = true -> rounded_ok (Z.pos m, e).
Proof.
  intros Hv. destruct (valid_canonical s m e Hv) as (_ & _ & Hlt & He & Hn).
  unfold rounded_ok. simpl. lia.
Qed.

Lemma valid_aligned s m e :
  valid_binary prec emax (S754_finite s m e) = true -> aligned (Z.pos m) e.
Proof.
  intros Hv. destruct (valid_canonical s m e Hv) as (Hc & _).
  unfold aligned. lia.
Qed.

(** Rounding a canonical float gives it back. *)
Lemma valid_round_id s m e :
  valid_binary prec emax (S754_finite s m e) = true ->
  round_dyadic (Z.pos m) e = (Z.pos m, e) /\
  finish s (Z.pos m) e = S754_finite s m e.
Proof.
  intros Hv. destruct (valid_canonical s m e Hv) as (Hc & He & Hlt & _).
  split.
  - rewrite round_dyadic_aligned by (done || by eapply valid_aligned).
    unfold round_pos. rewrite Hc, Z.sub_diag. reflexivity.
  - unfold finish.
    destruct (Z.eqb_spec (Z.pos m) 0); [lia|].
    destruct (Z.ltb_spec (Z.pos m) (2 ^ prec)); [|lia].
    destruct (Z.leb_spec e (emax - prec)); [|lia]. reflexivity.
Qed.

Lemma nearest_zero e : nearest 0 e = S754_zero false.
Proof. reflexivity. Qed.

Lemma nearest_pos m e :
  0 < m ->
  nearest m e = finish false (fst (round_dyadic m e)) (snd (round_dyadic m e)).
Proof.
  intros Hm. destruct m as [|p|p]; [lia| |lia]. apply binary_round_spec.
Qed.

Lemma good_nearest x : good x -> x = nearest (fst (dy x)) (snd (dy x)).
Proof.
  destruct x as [[|]|[|]| |[|] m e]; cbn [good dy fst snd]; try done.
  intros Hv. rewrite nearest_pos by lia.
  destruct (valid_round_id false m e Hv) as [-> Hf]. cbn [fst snd]. by rewrite Hf.
Qed.

Lemma good_dy_nonneg x : 0 <= fst (dy x).
Proof. destruct x; simpl; lia. Qed.

(** A rounded non-negative value is a good float unless it overflows. *)
Lemma nearest_cases m e :
  0 <= m -> good (nearest m e) \/ nearest m e = S754_infinity false.
Proof.
  intros Hm. destruct (decide (m = 0)) as [->|Hne]; [by left|].
  rewrite nearest_pos by lia.
  pose proof (round_dyadic_ok m e ltac:(lia)) as Hok.
  pose proof (finish_valid false _ Hok) as Hv.
  destruct (finish_cases false _ Hok) as [[Hf _]|[[Hf _]|(a & b & Hf & _)]];
    rewrite Hf in *; [by left|by right|by left].
Qed.

Lemma SFleb_zero_nearest m e : 0 <= m -> SFleb (S754_zero false) (nearest m e) = true.
Proof.
  intros Hm. destruct (nearest_cases m e Hm) as [Hg| ->]; [|done].
  by destruct (nearest m e) as [[|]|[|]| |[|] a b].
Qed.

Lemma nearest_mono m1 e1 m2 e2 :
  0 <= m1 -> 0 <= m2 -> dle m1 e1 m2 e2 ->
  SFleb (nearest m1 e1) (nearest m2 e2) = true.
Proof.
  intros Hm1 Hm2 Hle.
  destruct (decide (m1 = 0)) as [->|Hne1]; [by apply SFleb_zero_nearest|].
  destruct (decide (m2 = 0)) as [->|Hne2].
  { unfold dle in Hle.
    assert (0 < 2 ^ (e1 - Z.min e1 e2)) by (apply Z.pow_pos_nonneg; lia). nia. }
  rewrite !nearest_pos by lia.
  apply finish_mono; try (apply round_dyadic_ok; lia).
  apply round_dyadic_mono; (lia || done).
Qed.

(** For good floats the order of the values is the order [<=] tests. *)
Lemma good_SFleb_dle x y :
  good x -> good y -> SFleb x y = true ->
  dle (fst (dy x)) (snd (dy x)) (fst (dy y)) (snd (dy y)).
Proof.
  destruct x as [[|]|[|]| |[|] m1 e1]; cbn [good dy fst snd]; try done;
    destruct y as [[|]|[|]| |[|] m2 e2]; cbn [good dy fst snd]; try done;
    intros Hx Hy Hle.
  - unfold dle. lia.
  - apply (finish_dle (Z.pos m1, e1) (Z.pos m2, e2)).
    + by eapply valid_rounded_ok.
    + by eapply valid_rounded_ok.
    + unfold rounds_below. cbn [fst snd]. unfold SFleb, SFcompare in Hle.
      destruct (Z.compare_spec e1 e2); [|lia|discriminate].
      right. split; [done|].
      change (Pos.compare_cont Eq m1 m2) with (Pos.compare m1 m2) in Hle.
      destruct (Pos.compare_spec m1 m2); (lia || discriminate).
    + cbn [fst snd]. apply (valid_round_id false m1 e1 Hx).
    + cbn [fst snd]. apply (valid_round_id false m2 e2 Hy).
Qed.

Lemma good_dle_SFleb x y :
  good x -> good y ->
  dle (fst (dy x)) (snd (dy x)) (fst (dy y)) (snd (dy y)) ->
  SFleb x y = true.
Proof.
  intros Hx Hy Hle. rewrite (good_nearest x Hx), (good_nearest y Hy).
  apply nearest_mono; (apply good_dy_nonneg || done).
Qed.

(** ** Arithmetic on good floats

    The value of a good float is an integer multiple of [2^emin]; [ival]
    is that integer. *)
Definition ival (x : spec_float) : Z :=
  fst (dy x) * 2 ^ (snd (dy x) - emin').

Lemma good_exponent x : good x -> emin' <= snd (dy x).
Proof.
  pose proof emin_neg.
  destruct x as [[|]|[|]| |[|] m e]; cbn [good dy fst snd]; try done; [lia|].
  intros Hv. by destruct (valid_canonical false m e Hv) as (_ & _ & _ & He & _).
Qed.

Lemma ival_nonneg x : 0 <= ival x.
Proof.
  unfold ival. pose proof (good_dy_nonneg x).
  pose proof (Z.pow_nonneg 2 (snd (dy x) - emin') ltac:(lia)). nia.
Qed.

Lemma ival_pos s m e : emin' <= e -> 0 < ival (S754_finite s m e).
Proof.
  intros He. unfold ival. cbn [dy fst snd].
  pose proof (Z.pow_pos_nonneg 2 (e - emin') ltac:(lia) ltac:(lia)). nia.
Qed.

Lemma dle_scaled m e :
  emin' <= e ->
  dle m e (m * 2 ^ (e - emin')) emin' /\ dle (m * 2 ^ (e - emin')) emin' m e.
Proof.
  intros He.
  split; apply (dle_iff _ _ _ _ emin'); try lia;
    rewrite Z.sub_diag, Z.mul_1_r; lia.
Qed.

(** Two representations of the same value round to the same float. *)
Lemma nearest_ext m1 e1 m2 e2 :
  0 <= m1 -> 0 <= m2 -> dle m1 e1 m2 e2 -> dle m2 e2 m1 e1 ->
  nearest m1 e1 = nearest m2 e2.
Proof.
  intros Hm1 Hm2 H12 H21.
  assert (Hp1 : 0 < 2 ^ (e1 - Z.min e1 e2)) by (apply Z.pow_pos_nonneg; lia).
  assert (Hp2 : 0 < 2 ^ (e2 - Z.min e1 e2)) by (apply Z.pow_pos_nonneg; lia).
  destruct (decide (m1 = 0)) as [->|Hne1].
  { unfold dle in H21. rewrite Z.min_comm in H21.
    assert (m2 = 0) as -> by nia. reflexivity. }
  destruct (decide (m2 = 0)) as [->|Hne2].
  { unfold dle in H12. nia. }
  rewrite !nearest_pos by lia.
  pose proof (round_dyadic_mono m1 e1 m2 e2 ltac:(lia) ltac:(lia) H12) as Ha.
  pose proof (round_dyadic_mono m2 e2 m1 e1 ltac:(lia) ltac:(lia) H21) as Hb.
  unfold rounds_below in Ha, Hb.
  assert (Hs : snd (round_dyadic m1 e1) = snd (round_dyadic m2 e2)) by lia.
  assert (Hf : fst (round_dyadic m1 e1) = fst (round_dyadic m2 e2)) by lia.
  by rewrite Hs, Hf.
Qed.

Lemma good_repr x : good x -> x = nearest (ival x) emin'.
Proof.
  intros Hx. pose proof (good_exponent x Hx) as He.
  rewrite (good_nearest x Hx) at 1.
  destruct (dle_scaled (fst (dy x)) (snd (dy x)) He).
  apply nearest_ext; (apply good_dy_nonneg || apply ival_nonneg || done).
Qed.

Lemma good_le_iff x y :
  good x -> good y -> SFleb x y = true <-> ival x <= ival y.
Proof.
  intros Hx Hy.
  pose proof (good_exponent x Hx). pose proof (good_exponent y Hy).
  split.
  - intros Hle%good_SFleb_dle; [|done|done].
    by apply (dle_iff _ _ _ _ emin') in Hle.
  - intros Hle. apply good_dle_SFleb; [done|done|].
    by apply (dle_iff _ _ _ _ emin').
Qed.

Lemma good_le_refl x : good x -> SFleb x x = true.
Proof. intros Hx. by apply good_le_iff. Qed.

Lemma good_le_trans x y z :
  good x -> good y -> good z ->
  SFleb x y = true -> SFleb y z = true -> SFleb x z = true.
Proof.
  intros Hx Hy Hz Hxy%good_le_iff Hyz%good_le_iff; try done.
  apply good_le_iff; [done|done|lia].
Qed.

Lemma good_lt_iff x y :
  good x -> good y -> SFltb x y = true -> ival x < ival y.
Proof.
  intros Hx Hy Hlt.
  destruct (Z.lt_ge_cases (ival x) (ival y)) as [|Hge]; [done|].
  apply (good_le_iff y x Hy Hx) in Hge.
  pose proof (SFleb_trans_ltb y x x Hge (good_le_refl x Hx)). congruence.
Qed.

Lemma nearest_le a b e :
  0 <= a <= b -> SFleb (nearest a e) (nearest b e) = true.
Proof.
  intros Hab. apply nearest_mono; [lia|lia|].
  apply (dle_iff _ _ _ _ e); [lia|lia|]. rewrite Z.sub_diag. lia.
Qed.

(** A rounded value below a good float has not overflowed. *)
Lemma nearest_good_below m e y :
  0 <= m -> good y -> SFleb (nearest m e) y = true -> good (nearest m e).
Proof.
  intros Hm Hy Hle. destruct (nearest_cases m e Hm) as [Hg|Hinf]; [done|].
  rewrite Hinf in Hle. by destruct y as [[|]|[|]| |[|] a b].
Qed.

Lemma normal_digits m : 2 ^ (prec - 1) <= m -> prec <= Zdigits2 m.
Proof.
  intros Hm. assert (0 < 2 ^ (prec - 1)) by (apply Z.pow_pos_nonneg; lia).
  destruct (Z.le_gt_cases prec (Zdigits2 m)); [done|].
  pose proof (Zdigits2_bounds m ltac:(lia)).
  assert (2 ^ Zdigits2 m <= 2 ^ (prec - 1))
    by (apply Z.pow_le_mono_r; lia).
  lia.
Qed.

(** The exact product of two canonical floats needs no left shift. *)
Lemma valid_product_aligned s1 m1 e1 s2 m2 e2 :
  valid_binary prec emax (S754_finite s1 m1 e1) = true ->
  valid_binary prec emax (S754_finite s2 m2 e2) = true ->
  aligned (Z.pos (m1 * m2)) (e1 + e2).
Proof.
  intros H1 H2.
  destruct (valid_canonical _ _ _ H1) as (_ & _ & _ & He1 & Hn1).
  destruct (valid_canonical _ _ _ H2) as (_ & _ & _ & He2 & Hn2).
  unfold aligned. rewrite fexp_spec, Pos2Z.inj_mul.
  pose proof (Zdigits2_mul_ge (Z.pos m1) (Z.pos m2) ltac:(lia) ltac:(lia)).
  assert (1 <= Zdigits2 (Z.pos m1)) by (simpl; lia).
  assert (1 <= Zdigits2 (Z.pos m2)) by (simpl; lia).
  pose proof emin_neg.
  destruct (decide (emin' < e1)) as [Hlt1|Hge1].
  { pose proof (normal_digits _ (Hn1 Hlt1)). lia. }
  destruct (decide (emin' < e2)) as [Hlt2|Hge2].
  { pose proof (normal_digits _ (Hn2 Hlt2)). lia. }
  lia.
Qed.

Lemma SFmul_aligned s1 m1 e1 s2 m2 e2 :
  aligned (Z.pos (m1 * m2)) (e1 + e2) ->
  SFmul prec emax (S754_finite s1 m1 e1) (S754_finite s2 m2 e2)
  = finish (xorb s1 s2)
      (fst (round_dyadic (Z.pos (m1 * m2)) (e1 + e2)))
      (snd (round_dyadic (Z.pos (m1 * m2)) (e1 + e2))).
Proof.
  intros Hal. rewrite round_dyadic_aligned by done.
  cbn [SFmul]. by apply binary_round_aux_exact.
Qed.

Lemma good_mul x y :
  good x -> good y ->
  SFmul prec emax x y = nearest (ival x * ival y) (2 * emin').
Proof.
  destruct x as [[|]|[|]| |[|] m1 e1]; cbn [good]; try done;
    destruct y as [[|]|[|]| |[|] m2 e2]; cbn [good]; try done; intros Hx Hy;
    try (cbn [SFmul xorb]; unfold ival at 1 2; cbn [dy fst snd];
         by rewrite ?Z.mul_0_l, ?Z.mul_0_r).
  rewrite (SFmul_aligned _ _ _ _ _ _ (valid_product_aligned _ _ _ _ _ _ Hx Hy)).
  change (xorb false false) with false. rewrite <- nearest_pos by done.
  pose proof (good_exponent (S754_finite false m1 e1) Hx) as He1.
  pose proof (good_exponent (S754_finite false m2 e2) Hy) as He2.
  cbn [dy fst snd] in He1, He2.
  pose proof (ival_nonneg (S754_finite false m1 e1)).
  pose proof (ival_nonneg (S754_finite false m2 e2)).
  assert (Heq : Z.pos (m1 * m2) * 2 ^ (e1 + e2 - 2 * emin')
                = ival (S754_finite false m1 e1) * ival (S754_finite false m2 e2)).
  { unfold ival. cbn [dy fst snd].
    replace (e1 + e2 - 2 * emin') with ((e1 - emin') + (e2 - emin')) by lia.
    rewrite Z.pow_add_r, Pos2Z.inj_mul by lia. ring. }
  apply nearest_ext; [lia|nia| |];
    apply (dle_iff _ _ _ _ (2 * emin')); try lia;
    rewrite Z.sub_diag, Z.mul_1_r, Heq; lia.
Qed.

Lemma shl_align_min m e e' :
  Z.pos (fst (shl_align m e (Z.min e e'))) = Z.pos m * 2 ^ (e - Z.min e e').
Proof.
  destruct (shl_align_spec m e (Z.min e e')) as [H1 H2]. rewrite H1, H2.
  do 2 f_equal. lia.
Qed.

Lemma aligned_sum m1 e1 m2 e2 :
  emin' <= e1 -> emin' <= e2 ->
  (m1 * 2 ^ (e1 - Z.min e1 e2)) * 2 ^ (Z.min e1 e2 - emin') = m1 * 2 ^ (e1 - emin')
  /\ (m2 * 2 ^ (e2 - Z.min e1 e2)) * 2 ^ (Z.min e1 e2 - emin') = m2 * 2 ^ (e2 - emin').
Proof.
  intros H1 H2. split; rewrite <- Z.mul_assoc, <- Z.pow_add_r by lia;
    do 2 f_equal; lia.
Qed.

Lemma good_add x y :
  good x -> good y ->
  SFadd prec emax x y = nearest (ival x + ival y) emin'.
Proof.
  intros Hx Hy.
  pose proof (good_exponent _ Hx) as He1. pose proof (good_exponent _ Hy) as He2.
  pose proof (ival_nonneg x) as Hn1. pose proof (ival_nonneg y) as Hn2.
  destruct x as [[|]|[|]| |[|] m1 e1]; cbn [good] in Hx; try done;
    destruct y as [[|]|[|]| |[|] m2 e2]; cbn [good] in Hy; try done.
  - cbn [SFadd]. rewrite (good_repr (S754_finite false m2 e2) Hy) at 1.
    reflexivity.
  - cbn [SFadd]. rewrite (good_repr (S754_finite false m1 e1) Hx) at 1. f_equal.
    unfold ival at 3. cbn [dy fst snd]. lia.
  - cbn [dy fst snd] in He1, He2.
    cbn [SFadd cond_Zopp]. rewrite (Z.min_comm e1 e2) at 2.
    rewrite !shl_align_min. rewrite (Z.min_comm e2 e1).
    fold (nearest (Z.pos m1 * 2 ^ (e1 - Z.min e1 e2)
                   + Z.pos m2 * 2 ^ (e2 - Z.min e1 e2)) (Z.min e1 e2)).
    destruct (aligned_sum (Z.pos m1) e1 (Z.pos m2) e2 He1 He2) as [Ha Hb].
    unfold ival in *. cbn [dy fst snd] in *.
    assert (0 <= 2 ^ (e1 - Z.min e1 e2)) by (apply Z.pow_nonneg; lia).
    assert (0 <= 2 ^ (e2 - Z.min e1 e2)) by (apply Z.pow_nonneg; lia).
    apply nearest_ext; [nia|lia| |];
      apply (dle_iff _ _ _ _ emin'); try lia;
      rewrite Z.sub_diag, Z.mul_1_r, Z.mul_add_distr_r, Ha, Hb; lia.
Qed.

Lemma good_sub x y :
  good x -> good y -> ival y <= ival x ->
  SFsub prec emax x y = nearest (ival x - ival y) emin'.
Proof.
  intros Hx Hy Hle.
  pose proof (good_exponent _ Hx) as He1. pose proof (good_exponent _ Hy) as He2.
  pose proof (ival_nonneg x) as Hn1. pose proof (ival_nonneg y) as Hn2.
  destruct x as [[|]|[|]| |[|] m1 e1]; cbn [good] in Hx; try done;
    destruct y as [[|]|[|]| |[|] m2 e2]; cbn [good] in Hy; try done.
  - cbn [dy fst snd] in He2. pose proof (ival_pos false m2 e2 He2).
    unfold ival at 2 in Hle. cbn [dy fst snd] in Hle. lia.
  - cbn [SFsub]. rewrite (good_repr (S754_finite false m1 e1) Hx) at 1. f_equal.
    unfold ival at 3. cbn [dy fst snd]. lia.
  - cbn [dy fst snd] in He1, He2.
    cbn [SFsub cond_Zopp]. rewrite (Z.min_comm e1 e2) at 2.
    rewrite !shl_align_min. rewrite (Z.min_comm e2 e1).
    fold (nearest (Z.pos m1 * 2 ^ (e1 - Z.min e1 e2)
                   - Z.pos m2 * 2 ^ (e2 - Z.min e1 e2)) (Z.min e1 e2)).
    destruct (aligned_sum (Z.pos m1) e1 (Z.pos m2) e2 He1 He2) as [Ha Hb].
    unfold ival in *. cbn [dy fst snd] in *.
    assert (Hp : 0 < 2 ^ (Z.min e1 e2 - emin')) by (apply Z.pow_pos_nonneg; lia).
    apply nearest_ext; [nia|lia| |];
      apply (dle_iff _ _ _ _ emin'); try lia;
      rewrite Z.sub_diag, Z.mul_1_r, Z.mul_sub_distr_r, Ha, Hb; lia.
Qed.

(** *** Monotonicity of the operations *)

Lemma good_mul_mono x x' y y' :
  good x -> good x' -> good y -> good y' ->
  SFleb x x' = true -> SFleb y y' = true ->
  SFleb (SFmul prec emax x y) (SFmul prec emax x' y') = true.
Proof.
  intros Hx Hx' Hy Hy' Hxx%good_le_iff Hyy%good_le_iff; try done.
  rewrite !good_mul by done. apply nearest_le.
  pose proof (ival_nonneg x). pose proof (ival_nonneg y). nia.
Qed.

Lemma good_add_mono x x' y y' :
  good x -> good x' -> good y -> good y' ->
  SFleb x x' = true -> SFleb y y' = true ->
  SFleb (SFadd prec emax x y) (SFadd prec emax x' y') = true.
Proof.
  intros Hx Hx' Hy Hy' Hxx%good_le_iff Hyy%good_le_iff; try done.
  rewrite !good_add by done. apply nearest_le.
  pose proof (ival_nonneg x). pose proof (ival_nonneg y). lia.
Qed.

Lemma good_sub_anti x y y' :
  good x -> good y -> good y' ->
  SFleb y y' = true -> SFleb y' x = true ->
  SFleb (SFsub prec emax x y') (SFsub prec emax x y) = true.
Proof.
  intros Hx Hy Hy' Hyy%good_le_iff Hyx%good_le_iff; try done.
  rewrite !good_sub by (done || lia). apply nearest_le. lia.
Qed.

Lemma good_mul_below x y z :
  good x -> good y -> good z ->
  SFleb (SFmul prec emax x y) z = true -> good (SFmul prec emax x y).
Proof.
  intros Hx Hy Hz. rewrite good_mul by done.
  apply nearest_good_below; [|done].
  pose proof (ival_nonneg x). pose proof (ival_nonneg y). nia.
Qed.

Lemma good_add_below x y z :
  good x -> good y -> good z ->
  SFleb (SFadd prec emax x y) z = true -> good (SFadd prec emax x y).
Proof.
  intros Hx Hy Hz. rewrite good_add by done.
  apply nearest_good_below; [|done].
  pose proof (ival_nonneg x). pose proof (ival_nonneg y). lia.
Qed.

Lemma good_sub_good x y :
  good x -> good y -> SFleb y x = true -> good (SFsub prec emax x y).
Proof.
  intros Hx Hy Hyx%good_le_iff; try done.
  rewrite good_sub by done. pose proof (ival_nonneg y).
  apply (nearest_good_below _ _ x); [lia|done|].
  rewrite (good_repr x Hx) at 2. apply nearest_le. lia.
Qed.

Lemma good_zero_le x : good x -> SFleb (S754_zero false) x = true.
Proof.
  intros Hx. apply good_le_iff; [done|done|]. apply ival_nonneg.
Qed.

(** [good] as a test. *)
Definition goodb (x : spec_float) : bool :=
  match x with
  | S754_zero false => true
  | S754_finite false m e => valid_binary prec emax x
  | _ => false
  end.

Lemma goodb_good x : goodb x = true -> good x.
Proof. by destruct x as [[|]|[|]| |[|] m e]. Qed.

(** A positive bounded product with a normal factor is a good float,
    whatever the other factor is. *)
Lemma positive_product_good x m2 e2 z :
  2 ^ (prec - 1) <= Z.pos m2 ->
  SFltb (S754_zero false) (SFmul prec emax x (S754_finite false m2 e2)) = true ->
  SFltb (SFmul prec emax x (S754_finite false m2 e2)) z = true ->
  good (SFmul prec emax x (S754_finite false m2 e2)).
Proof.
  intros Hn Hpos Hlt.
  destruct x as [s1|s1| |s1 m1 e1];
    [by destruct s1|destruct s1; [done|by destruct z as [[|]|[|]| |[|] a b]]|done|].
  assert (Hal : aligned (Z.pos (m1 * m2)) (e1 + e2)).
  { unfold aligned. rewrite fexp_spec, Pos2Z.inj_mul.
    pose proof (Zdigits2_mul_ge (Z.pos m1) (Z.pos m2) ltac:(lia) ltac:(lia)).
    pose proof (normal_digits _ Hn).
    assert (1 <= Zdigits2 (Z.pos m1)) by (simpl; lia). lia. }
  rewrite (SFmul_aligned _ _ _ _ _ _ Hal) in *.
  pose proof (round_dyadic_ok (Z.pos (m1 * m2)) (e1 + e2) (Pos2Z.is_pos _)) as Hok.
  pose proof (finish_valid (xorb s1 false) _ Hok) as Hv.
  destruct (finish_cases (xorb s1 false) _ Hok)
    as [[Hf _]|[[Hf _]|(a & b & Hf & _)]]; rewrite Hf in *.
  - by destruct (xorb s1 false).
  - destruct (xorb s1 false); [done|by destruct z as [[|]|[|]| |[|] a b]].
  - by destruct (xorb s1 false).
Qed.

(** ** Division

    [qcode n d] locates the quotient [n / d] among the half-integers: twice
    the number of halves at or below it, plus one when it is not a half
    itself.  It is the [code] of the record [SFdiv_core_binary] hands to
    the rounding. *)
Definition qcode (n d : Z) : Z :=
  2 * (2 * n / d) + (if 2 * n mod d =? 0 then 0 else 1).

Lemma qcode_mono n1 d1 n2 d2 :
  0 <= n1 -> 0 < d1 -> 0 < d2 -> n1 * d2 <= n2 * d1 ->
  qcode n1 d1 <= qcode n2 d2.
Proof.
  intros Hn1 Hd1 Hd2 Hle. unfold qcode.
  pose proof (Z.div_mod (2 * n1) d1 ltac:(lia)) as E1.
  pose proof (Z.mod_pos_bound (2 * n1) d1 Hd1) as B1.
  pose proof (Z.div_mod (2 * n2) d2 ltac:(lia)) as E2.
  pose proof (Z.mod_pos_bound (2 * n2) d2 Hd2) as B2.
  revert E1 B1 E2 B2.
  generalize (2 * n1 / d1) (2 * n1 mod d1) (2 * n2 / d2) (2 * n2 mod d2).
  intros u1 v1 u2 v2 E1 B1 E2 B2.
  assert (Hdd : 0 < d1 * d2) by nia.
  assert (H1 : 2 * n1 * d2 = u1 * (d1 * d2) + v1 * d2) by (rewrite E1; ring).
  assert (H2 : 2 * n2 * d1 = u2 * (d1 * d2) + v2 * d1) by (rewrite E2; ring).
  assert (Hv1 : 0 <= v1 * d2 < d1 * d2) by nia.
  assert (Hv2 : 0 <= v2 * d1 < d1 * d2) by nia.
  assert (Hu : u1 <= u2).
  { destruct (Z.le_gt_cases u1 u2) as [|Hgt]; [done|].
    assert ((u2 + 1) * (d1 * d2) <= u1 * (d1 * d2))
      by (apply Z.mul_le_mono_nonneg_r; lia).
    lia. }
  destruct (Z.eqb_spec v1 0) as [|Hv1z]; [destruct (Z.eqb_spec v2 0); lia|].
  destruct (Z.eqb_spec v2 0) as [Hv2z|]; [|lia].
  destruct (Z.le_gt_cases u2 u1) as [Hge|]; [|lia].
  assert (u1 = u2) as -> by lia. subst v2.
  assert (0 < v1 * d2) by nia. lia.
Qed.

Lemma code_bits mrs : exists b : Z,
  0 <= b <= 3 /\ code mrs = 4 * shr_m mrs + b /\
  Z.b2z (shr_r mrs || shr_s mrs) = (if b =? 0 then 0 else 1) /\
  Z.b2z (shr_r mrs) = b / 2.
Proof.
  unfold code. destruct (shr_r mrs), (shr_s mrs); cbn [Z.b2z orb];
    [exists 3|exists 2|exists 1|exists 0]; repeat split; lia.
Qed.

(** One more shift halves the scale of the quotient. *)
Lemma shr_1_qcode mrs n d :
  0 <= shr_m mrs -> 0 <= n -> 0 < d ->
  code mrs = qcode n d -> code (shr_1 mrs) = qcode n (2 * d).
Proof.
  intros Hm Hn Hd Hc. rewrite code_shr_1 by done.
  destruct (code_bits mrs) as (b & Hb & Hcode & Hst & _).
  rewrite Hst. rewrite Hcode in Hc. unfold qcode in *.
  pose proof (Z.div_mod (2 * n) d ltac:(lia)) as E1.
  pose proof (Z.mod_pos_bound (2 * n) d Hd) as B1.
  revert Hc E1 B1. generalize (2 * n / d) (2 * n mod d). intros u v Hc E1 B1.
  assert (Hq : 2 * n / (2 * d) = shr_m mrs).
  { symmetry. apply (Z.div_unique _ _ _ (2 * n - 2 * d * shr_m mrs)); [|lia].
    destruct (Z.eqb_spec v 0); nia. }
  assert (Hr : 2 * n mod (2 * d) = 2 * n - 2 * d * shr_m mrs).
  { symmetry. apply (Z.mod_unique _ _ (shr_m mrs)); [|lia].
    destruct (Z.eqb_spec v 0); nia. }
  rewrite Hq, Hr.
  destruct (Z.eqb_spec b 0), (Z.eqb_spec v 0),
    (Z.eqb_spec (2 * n - 2 * d * shr_m mrs) 0); nia.
Qed.

Lemma iter_shr_qcode k mrs n d :
  0 <= shr_m mrs -> 0 <= n -> 0 < d ->
  code mrs = qcode n d ->
  code (Nat.iter k shr_1 mrs) = qcode n (d * 2 ^ Z.of_nat k).
Proof.
  intros Hm Hn Hd Hc. induction k as [|k IH].
  { cbn [Nat.iter nat_rect]. by rewrite Z.mul_1_r. }
  replace (Nat.iter (S k) shr_1 mrs) with (shr_1 (Nat.iter k shr_1 mrs))
    by reflexivity.
  rewrite (shr_1_qcode _ n (d * 2 ^ Z.of_nat k)); try done.
  - f_equal. rewrite Nat2Z.inj_succ, Z.pow_succ_r by lia. ring.
  - by apply iter_shr_nonneg.
  - pose proof (Z.pow_pos_nonneg 2 (Z.of_nat k) ltac:(lia) ltac:(lia)). nia.
Qed.

(** The record of a quotient with its remainder. *)
Lemma division_code n d :
  0 <= n -> 0 < d ->
  let mrs := shr_record_of_loc (n / d) (new_location d (n mod d)) in
  shr_m mrs = n / d /\ code mrs = qcode n d.
Proof.
  intros Hn Hd mrs.
  pose proof (Z.div_mod n d ltac:(lia)) as E1.
  pose proof (Z.mod_pos_bound n d Hd) as B1.
  assert (Hq0 : 0 <= n / d) by (by apply Z.div_pos).
  unfold mrs, qcode. revert E1 B1 Hq0.
  generalize (n / d) (n mod d). intros q r E1 B1 Hq0.
  assert (Hcases : forall c : Z, 0 <= c <= 3 ->
            (c = 0 -> r = 0) -> (c = 1 -> 0 < 2 * r < d) ->
            (c = 2 -> 2 * r = d) -> (c = 3 -> d < 2 * r) ->
            2 * (2 * n / d) + (if 2 * n mod d =? 0 then 0 else 1) = 4 * q + c).
  { intros c Hc H0 H1 H2 H3.
    set (h := if decide (c <= 1) then 0 else 1).
    assert (Hh : (c <= 1 /\ h = 0) \/ (2 <= c /\ h = 1))
      by (unfold h; destruct (decide (c <= 1)); lia).
    assert (Hrem : 0 <= 2 * n - d * (2 * q + h) < d) by nia.
    assert (Hdiv : 2 * n / d = 2 * q + h).
    { symmetry. apply (Z.div_unique _ _ _ (2 * n - d * (2 * q + h))); lia. }
    assert (Hmod : 2 * n mod d = 2 * n - d * (2 * q + h)).
    { symmetry. apply (Z.mod_unique _ _ (2 * q + h)); lia. }
    rewrite Hdiv, Hmod.
    destruct (Z.eqb_spec (2 * n - d * (2 * q + h)) 0); nia. }
  unfold new_location, new_location_even, new_location_odd.
  destruct (Z.even d) eqn:Heven.
  - destruct (Z.eqb_spec r 0) as [Hr|Hr].
    + split; [done|]. unfold code. cbn. rewrite (Hcases 0); lia.
    + destruct (Z.compare_spec (2 * r) d); (split; [done|]); unfold code; cbn.
      * rewrite (Hcases 2); lia.
      * rewrite (Hcases 1); lia.
      * rewrite (Hcases 3); lia.
  - assert (Hodd : 2 * r <> d).
    { intros Heq. rewrite <- Heq, Z.even_mul in Heven. done. }
    destruct (Z.eqb_spec r 0) as [Hr|Hr].
    + split; [done|]. unfold code. cbn. rewrite (Hcases 0); lia.
    + destruct (Z.compare_spec (2 * r + 1) d); (split; [done|]); unfold code; cbn.
      * rewrite (Hcases 1); lia.
      * rewrite (Hcases 1); lia.
      * rewrite (Hcases 3); lia.
Qed.

(** Rounding a record: the general form of [round_pos]. *)
Definition round_rec (mrs : shr_record) (e : Z) : Z * Z :=
  let E := fexp' (Zdigits2 (shr_m mrs) + e) in
  (rounded (Nat.iter (Z.to_nat (E - e)) shr_1 mrs), E).

Lemma shr_m_of_loc m l : shr_m (shr_record_of_loc m l) = m.
Proof. by destruct l as [|[]]. Qed.

Lemma round_rec_ok mrs e :
  0 <= shr_m mrs -> e <= fexp' (Zdigits2 (shr_m mrs) + e) ->
  rounded_ok (round_rec mrs e).
Proof.
  intros Hm Hal. unfold round_rec, rounded_ok. cbn [fst snd].
  set (m := shr_m mrs) in *. set (d := Zdigits2 m) in *.
  set (E := fexp' (d + e)) in *.
  assert (HE : E = Z.max (d + e - prec) emin') by apply fexp_spec.
  pose proof (rounded_bounds (Nat.iter (Z.to_nat (E - e)) shr_1 mrs)) as Hr.
  rewrite iter_shr_m in Hr by done. fold m in Hr.
  rewrite Z2Nat.id in Hr by lia.
  assert (Hp : 0 < 2 ^ (E - e)) by (apply Z.pow_pos_nonneg; lia).
  assert (Hq0 : 0 <= m / 2 ^ (E - e)) by (by apply Z.div_pos).
  assert (H1 : 1 <= 2 ^ prec).
  { pose proof (Z.pow_pos_nonneg 2 prec ltac:(lia) ltac:(lia)). lia. }
  destruct (decide (m = 0)) as [Hz|Hnz].
  { assert (Hd0 : d = 0) by (unfold d; by rewrite Hz).
    rewrite Hz, Z.div_0_l in Hr by lia. split; [lia|]. split; [lia|]. lia. }
  assert (Hmp : 0 < m) by lia.
  pose proof (Zdigits2_div_pow2 m (E - e) Hmp ltac:(lia)) as Hd. fold d in Hd.
  assert (Hqlt : m / 2 ^ (E - e) < 2 ^ prec).
  { destruct (decide (m / 2 ^ (E - e) = 0)) as [->|Hne]; [lia|].
    pose proof (Zdigits2_bounds (m / 2 ^ (E - e)) ltac:(lia)) as Hb.
    apply Z.lt_le_trans with (2 ^ Zdigits2 (m / 2 ^ (E - e))); [lia|].
    apply Z.pow_le_mono_r; lia. }
  split; [lia|]. split; [lia|].
  intros HEmin.
  assert (Hdq : Zdigits2 (m / 2 ^ (E - e)) = prec) by lia.
  assert (0 < m / 2 ^ (E - e)).
  { destruct (decide (m / 2 ^ (E - e) = 0)) as [Hz|]; [|lia].
    rewrite Hz in Hdq. simpl in Hdq. lia. }
  pose proof (Zdigits2_bounds (m / 2 ^ (E - e)) ltac:(lia)) as Hb.
  rewrite Hdq in Hb. lia.
Qed.

(** [binary_round_aux] on an aligned input with any location. *)
Lemma binary_round_aux_loc s m e l :
  0 <= m -> e <= fexp' (Zdigits2 m + e) ->
  binary_round_aux prec emax s m e l
  = finish s (fst (round_rec (shr_record_of_loc m l) e))
             (snd (round_rec (shr_record_of_loc m l) e)).
Proof.
  intros Hm Hal.
  pose proof (round_rec_ok (shr_record_of_loc m l) e) as Hb.
  rewrite shr_m_of_loc in Hb. specialize (Hb Hm Hal).
  unfold binary_round_aux.
  assert (H1 : shr_fexp prec emax m e l
               = (Nat.iter (Z.to_nat (fexp' (Zdigits2 m + e) - e)) shr_1
                    (shr_record_of_loc m l),
                  fexp' (Zdigits2 m + e))).
  { unfold shr_fexp. rewrite shr_spec. f_equal. lia. }
  rewrite H1. unfold round_rec, rounded_ok in *. rewrite shr_m_of_loc in *.
  cbn [fst snd] in *.
  fold (rounded (Nat.iter (Z.to_nat (fexp' (Zdigits2 m + e) - e)) shr_1
                   (shr_record_of_loc m l))).
  set (m' := rounded _) in *. set (E := fexp' (Zdigits2 m + e)) in *.
  destruct Hb as (Hm' & HE & _).
  unfold finish.
  destruct (Z.eqb_spec m' 0) as [Hz|Hnz].
  - rewrite Hz, shr_fexp_exact_small; [done| |done].
    split; [lia|]. apply Z.pow_pos_nonneg; lia.
  - destruct (Z.ltb_spec m' (2 ^ prec)) as [Hlt|Hge].
    + rewrite shr_fexp_exact_small by (done || lia). simpl.
      destruct m' as [|p|p]; [lia| |lia]. reflexivity.
    + assert (Heq : m' = 2 ^ prec) by lia. rewrite Heq.
      rewrite shr_fexp_exact_carry by done. simpl.
      assert (0 < 2 ^ (prec - 1)) by (apply Z.pow_pos_nonneg; lia).
      destruct (2 ^ (prec - 1)) as [|p|p]; [lia| |lia]. reflexivity.
Qed.

(** What [SFdiv_core_binary] computes: the exponent of the quotient and
    the scaled numerator. *)
Definition qexp (m1 e1 m2 e2 : Z) : Z :=
  Z.min (fexp' (Zdigits2 m1 + e1 - (Zdigits2 m2 + e2))) (e1 - e2).

Definition qnum (m1 e1 m2 e2 : Z) : Z :=
  m1 * 2 ^ (e1 - e2 - qexp m1 e1 m2 e2).

Lemma qexp_le m1 e1 m2 e2 : 0 <= e1 - e2 - qexp m1 e1 m2 e2.
Proof. unfold qexp. lia. Qed.

Lemma qnum_pos m1 e1 m2 e2 : 0 < m1 -> 0 < qnum m1 e1 m2 e2.
Proof.
  intros Hm. unfold qnum. apply Z.mul_pos_pos; [done|].
  apply Z.pow_pos_nonneg; [lia|apply qexp_le].
Qed.

Lemma SFdiv_core_spec m1 e1 m2 e2 :
  SFdiv_core_binary prec emax m1 e1 m2 e2
  = (qnum m1 e1 m2 e2 / m2, qexp m1 e1 m2 e2,
     new_location m2 (qnum m1 e1 m2 e2 mod m2)).
Proof.
  pose proof (qexp_le m1 e1 m2 e2) as Hs.
  unfold SFdiv_core_binary. cbv zeta.
  change (Z.min (fexp prec emax (Zdigits2 m1 + e1 - (Zdigits2 m2 + e2))) (e1 - e2))
    with (qexp m1 e1 m2 e2).
  assert (Hm' : match e1 - e2 - qexp m1 e1 m2 e2 with
                | 0 => m1
                | Z.pos _ => Z.shiftl m1 (e1 - e2 - qexp m1 e1 m2 e2)
                | Z.neg _ => 0
                end = qnum m1 e1 m2 e2).
  { unfold qnum. destruct (e1 - e2 - qexp m1 e1 m2 e2) as [|p|p] eqn:Hse.
    - change (2 ^ 0) with 1. lia.
    - by rewrite Z.shiftl_mul_pow2.
    - lia. }
  rewrite Hm'. unfold Z.div, Z.modulo.
  by destruct (Z.div_eucl (qnum m1 e1 m2 e2) m2).
Qed.

Lemma Zdigits2_pos m : 0 < m -> 1 <= Zdigits2 m.
Proof.
  intros Hm. rewrite Zdigits2_log2 by done.
  pose proof (Z.log2_nonneg m). lia.
Qed.

Lemma division_aligned m1 e1 m2 e2 :
  0 < m1 -> 0 < m2 ->
  qexp m1 e1 m2 e2
  <= fexp' (Zdigits2 (qnum m1 e1 m2 e2 / m2) + qexp m1 e1 m2 e2).
Proof.
  intros H1 H2. pose proof (qexp_le m1 e1 m2 e2) as Hs.
  pose proof (qnum_pos m1 e1 m2 e2 H1) as Hn.
  pose proof (Zdigits2_bounds m1 H1) as Hb1.
  pose proof (Zdigits2_bounds m2 H2) as Hb2.
  pose proof (Zdigits2_pos m1 H1) as Hd1.
  pose proof (Zdigits2_pos m2 H2) as Hd2.
  assert (Hq : qexp m1 e1 m2 e2
               <= fexp' (Zdigits2 m1 + e1 - (Zdigits2 m2 + e2)))
    by (unfold qexp; lia).
  set (e' := qexp m1 e1 m2 e2) in *.
  set (s := e1 - e2 - e') in *.
  assert (Hlo : 2 ^ (Zdigits2 m1 - 1 + s) <= qnum m1 e1 m2 e2).
  { unfold qnum. fold e'. fold s. rewrite Z.pow_add_r by lia.
    apply Z.mul_le_mono_nonneg_r; [|lia].
    apply Z.lt_le_incl, Z.pow_pos_nonneg; lia. }
  set (n := qnum m1 e1 m2 e2) in *.
  assert (Hq0 : 0 <= n / m2) by (apply Z.div_pos; lia).
  rewrite fexp_spec in Hq. rewrite fexp_spec.
  destruct (decide (n / m2 = 0)) as [Hz|Hnz].
  - rewrite Hz. change (Zdigits2 0) with 0.
    apply Z.div_small_iff in Hz; [|lia].
    destruct (Z.le_gt_cases e' emin') as [|Hgt]; [lia|exfalso].
    assert (2 ^ Zdigits2 m2 <= 2 ^ (Zdigits2 m1 - 1 + s))
      by (apply Z.pow_le_mono_r; lia).
    lia.
  - set (k := Zdigits2 m1 + s - Zdigits2 m2).
    assert (Hk : k <= Zdigits2 (n / m2)).
    { destruct (Z.le_gt_cases k 1) as [Hk1|Hk1].
      - pose proof (Zdigits2_pos (n / m2) ltac:(lia)). lia.
      - assert (Hge : 2 ^ (k - 1) <= n / m2).
        { apply Z.div_le_lower_bound; [done|].
          apply Z.le_trans with (2 ^ (Zdigits2 m1 - 1 + s)); [|done].
          replace (Zdigits2 m1 - 1 + s) with (Zdigits2 m2 + (k - 1))
            by (unfold k; lia).
          rewrite Z.pow_add_r by lia.
          apply Z.mul_le_mono_nonneg_r; [|lia].
          apply Z.lt_le_incl, Z.pow_pos_nonneg; lia. }
        assert (Hdk : Zdigits2 (2 ^ (k - 1)) = k).
        { rewrite Zdigits2_log2 by (apply Z.pow_pos_nonneg; lia).
          rewrite Z.log2_pow2 by lia. lia. }
        rewrite <- Hdk. apply Zdigits2_le. split; [|done].
        apply Z.lt_le_incl, Z.pow_pos_nonneg; lia. }
    unfold k, s in Hk. lia.
Qed.

(** The mantissa and exponent [SFdiv] hands to [finish]. *)
Definition div_round (m1 e1 m2 e2 : Z) : Z * Z :=
  round_rec (shr_record_of_loc (qnum m1 e1 m2 e2 / m2)
               (new_location m2 (qnum m1 e1 m2 e2 mod m2)))
            (qexp m1 e1 m2 e2).

Lemma div_round_ok m1 e1 m2 e2 :
  0 < m1 -> 0 < m2 -> rounded_ok (div_round m1 e1 m2 e2).
Proof.
  intros H1 H2. unfold div_round. apply round_rec_ok; rewrite shr_m_of_loc.
  - apply Z.div_pos; [|done]. apply Z.lt_le_incl. by apply qnum_pos.
  - by apply division_aligned.
Qed.

Lemma SFdiv_finite s1 m1 e1 s2 m2 e2 :
  SFdiv prec emax (S754_finite s1 m1 e1) (S754_finite s2 m2 e2)
  = finish (xorb s1 s2) (fst (div_round (Z.pos m1) e1 (Z.pos m2) e2))
                        (snd (div_round (Z.pos m1) e1 (Z.pos m2) e2)).
Proof.
  unfold SFdiv. rewrite SFdiv_core_spec. unfold div_round.
  apply binary_round_aux_loc.
  - apply Z.div_pos; [|done]. apply Z.lt_le_incl. by apply qnum_pos.
  - by apply division_aligned.
Qed.

Lemma dle_cross m1 e1 m2 e2 c :
  e1 <= c -> e2 <= c -> dle m1 e1 m2 e2 ->
  m1 * 2 ^ (c - e2) <= m2 * 2 ^ (c - e1).
Proof.
  intros H1 H2 Hle.
  apply (dle_iff m1 e1 m2 e2 (e1 + e2 - c)) in Hle; [|lia|lia].
  replace (e1 - (e1 + e2 - c)) with (c - e2) in Hle by lia.
  replace (e2 - (e1 + e2 - c)) with (c - e1) in Hle by lia.
  done.
Qed.

(** Scaled numerators of two divisions of the same number, compared. *)
Lemma quotients_cross mx ex my ey my' ey' a b :
  0 < mx -> dle my ey my' ey' ->
  0 <= a -> 0 <= b ->
  a + qexp mx ex my ey = b + qexp mx ex my' ey' ->
  qnum mx ex my' ey' * (my * 2 ^ a) <= qnum mx ex my ey * (my' * 2 ^ b).
Proof.
  intros Hx Hle Ha Hb Hab.
  pose proof (qexp_le mx ex my ey) as Hs2.
  pose proof (qexp_le mx ex my' ey') as Hs1.
  unfold qnum.
  set (e1q := qexp mx ex my' ey') in *. set (e2q := qexp mx ex my ey) in *.
  set (c := ex - e1q + a).
  replace (mx * 2 ^ (ex - ey' - e1q) * (my * 2 ^ a))
    with (mx * (my * 2 ^ (c - ey'))).
  2:{ replace (c - ey') with ((ex - ey' - e1q) + a) by (unfold c; lia).
      rewrite Z.pow_add_r by lia. ring. }
  replace (mx * 2 ^ (ex - ey - e2q) * (my' * 2 ^ b))
    with (mx * (my' * 2 ^ (c - ey))).
  2:{ replace (c - ey) with ((ex - ey - e2q) + b) by (unfold c; lia).
      rewrite Z.pow_add_r by lia. ring. }
  apply Z.mul_le_mono_nonneg_l; [lia|].
  apply dle_cross; [unfold c; lia|unfold c; lia|done].
Qed.

Lemma rec_code n d :
  0 <= n -> 0 < d -> forall k : Z, 0 <= k ->
  code (Nat.iter (Z.to_nat k) shr_1
          (shr_record_of_loc (n / d) (new_location d (n mod d))))
  = qcode n (d * 2 ^ k).
Proof.
  intros Hn Hd k Hk.
  destruct (division_code n d Hn Hd) as [Hm Hc].
  rewrite (iter_shr_qcode _ _ n d); [by rewrite Z2Nat.id| |done|done|done].
  rewrite Hm. by apply Z.div_pos.
Qed.

(** Dividing a positive number by a larger one gives no more. *)
Lemma div_round_antitone mx ex my ey my' ey' :
  0 < mx -> 0 < my -> 0 < my' -> dle my ey my' ey' ->
  rounds_below (div_round mx ex my' ey') (div_round mx ex my ey).
Proof.
  intros Hx Hy Hy' Hle.
  pose proof (division_aligned mx ex my' ey' Hx Hy') as Hal1.
  pose proof (division_aligned mx ex my ey Hx Hy) as Hal2.
  pose proof (qnum_pos mx ex my' ey' Hx) as Hn1.
  pose proof (qnum_pos mx ex my ey Hx) as Hn2.
  pose proof (fun a b => quotients_cross mx ex my ey my' ey' a b Hx Hle)
    as Hcross.
  unfold div_round, round_rec, rounds_below. rewrite !shr_m_of_loc.
  cbn [fst snd].
  set (e1q := qexp mx ex my' ey') in *. set (e2q := qexp mx ex my ey) in *.
  set (n1 := qnum mx ex my' ey') in *. set (n2 := qnum mx ex my ey) in *.
  set (q1 := n1 / my') in *. set (q2 := n2 / my) in *.
  set (E1 := fexp' (Zdigits2 q1 + e1q)) in *.
  set (E2 := fexp' (Zdigits2 q2 + e2q)) in *.
  assert (Hq1 : 0 <= q1) by (apply Z.div_pos; lia).
  assert (Hq2 : 0 <= q2) by (apply Z.div_pos; lia).
  assert (HE1 : E1 = Z.max (Zdigits2 q1 + e1q - prec) emin') by apply fexp_spec.
  assert (HE2 : E2 = Z.max (Zdigits2 q2 + e2q - prec) emin') by apply fexp_spec.
  assert (HE : E1 <= E2).
  { destruct (Z.le_gt_cases E1 E2) as [|Hgt]; [done|exfalso].
    assert (Hq1p : 0 < q1).
    { destruct (decide (q1 = 0)) as [Hz|]; [|lia].
      rewrite Hz in HE1. change (Zdigits2 0) with 0 in HE1. lia. }
    pose proof (Zdigits2_bounds q1 Hq1p) as Hb1.
    assert (Hb2 : q2 + 1 <= 2 ^ Zdigits2 q2).
    { destruct (decide (q2 = 0)) as [->|]; [done|].
      pose proof (Zdigits2_bounds q2 ltac:(lia)). lia. }
    pose proof (Zdigits2_nonneg q2) as Hd2.
    pose proof (Zdigits2_pos q1 Hq1p) as Hd1.
    set (L := Z.min e1q e2q).
    specialize (Hcross (e1q - L) (e2q - L) ltac:(lia) ltac:(lia)
                  ltac:(fold e1q e2q; lia)).
    pose proof (Z.mul_div_le n1 my' Hy') as Hf1. fold q1 in Hf1.
    pose proof (Z.mul_succ_div_gt n2 my Hy) as Hf2. fold q2 in Hf2.
    set (A := 2 ^ (e1q - L)) in *. set (B := 2 ^ (e2q - L)) in *.
    assert (HA : 0 < A) by (apply Z.pow_pos_nonneg; lia).
    assert (HB : 0 < B) by (apply Z.pow_pos_nonneg; lia).
    set (P := my * my').
    assert (HP : 0 < P) by (by apply Z.mul_pos_pos).
    assert (H0 : 2 ^ (Zdigits2 q1 - 1) * (A * P) <= q1 * (A * P)).
    { apply Z.mul_le_mono_nonneg_r; [|lia].
      apply Z.lt_le_incl. by apply Z.mul_pos_pos. }
    assert (H1 : (my' * q1) * (my * A) <= n1 * (my * A)).
    { apply Z.mul_le_mono_nonneg_r; [|done].
      apply Z.lt_le_incl. by apply Z.mul_pos_pos. }
    assert (H3 : n2 * (my' * B) < (my * Z.succ q2) * (my' * B)).
    { apply Z.mul_lt_mono_pos_r; [|done]. by apply Z.mul_pos_pos. }
    assert (H4 : (q2 + 1) * (B * P) <= 2 ^ Zdigits2 q2 * (B * P)).
    { apply Z.mul_le_mono_nonneg_r; [|done].
      apply Z.lt_le_incl. by apply Z.mul_pos_pos. }
    assert (Hlt : 2 ^ (Zdigits2 q1 - 1 + (e1q - L)) * P
                  < 2 ^ (Zdigits2 q2 + (e2q - L)) * P).
    { rewrite !Z.pow_add_r by lia. fold A B.
      replace (2 ^ (Zdigits2 q1 - 1) * A * P)
        with (2 ^ (Zdigits2 q1 - 1) * (A * P)) by ring.
      replace (2 ^ Zdigits2 q2 * B * P)
        with (2 ^ Zdigits2 q2 * (B * P)) by ring.
      apply Z.le_lt_trans with (q1 * (A * P)); [done|].
      apply Z.lt_le_trans with ((q2 + 1) * (B * P)); [|done].
      replace (q1 * (A * P)) with ((my' * q1) * (my * A)) by (unfold P; ring).
      replace ((q2 + 1) * (B * P))
        with ((my * Z.succ q2) * (my' * B)) by (unfold P; ring).
      lia. }
    apply Z.mul_lt_mono_pos_r in Hlt; [|done].
    apply Z.pow_lt_mono_r_iff in Hlt; lia. }
  destruct (decide (E1 = E2)) as [Heq|Hne]; [right|left; lia].
  split; [done|]. apply rounded_mono.
  rewrite (rec_code n1 my') by lia. rewrite (rec_code n2 my) by lia.
  apply qcode_mono.
  - lia.
  - apply Z.mul_pos_pos; [done|]. apply Z.pow_pos_nonneg; lia.
  - apply Z.mul_pos_pos; [done|]. apply Z.pow_pos_nonneg; lia.
  - apply Hcross; [lia|lia|]. fold e1q e2q. lia.
Qed.

Lemma SFdiv_antitone mx ex my ey my' ey' :
  dle (Z.pos my) ey (Z.pos my') ey' ->
  SFleb (SFdiv prec emax (S754_finite false mx ex) (S754_finite false my' ey'))
        (SFdiv prec emax (S754_finite false mx ex) (S754_finite false my ey))
  = true.
Proof.
  intros Hle. rewrite !SFdiv_finite. cbn [xorb].
  apply finish_mono.
  - by apply div_round_ok.
  - by apply div_round_ok.
  - by apply div_round_antitone.
Qed.
End Rounding.

(** * The program *)

(** ** The tabulated profile *)

(** C8: a tabulated profile built from a spectrum of length [L] returns the
    complex zero for every index [>= L]. *)
Theorem getHarmonic_beyond_spectrum (harmonics : list cpx) (index : nat) :
  (length harmonics <= index)%nat ->
  getHarmonic {| _harmonics := harmonics |} index = czero.
Proof.
  intros Hlen. unfold getHarmonic, Tabulated_profile. simpl.
  by rewrite (lookup_ge_None_2 harmonics index Hlen).
Qed.

Lemma getHarmonic_beyond_spectrum_witness :
  getHarmonic {| _harmonics := [(of_Z binary32 1, of_Z binary32 2)] |} 1%nat = czero.
Proof. apply getHarmonic_beyond_spectrum. simpl. lia. Defined.

(** ** [HarmonicProfile::generate]: which bins are filled *)

Section GenerateProps.
Variable polar : spec_float -> spec_float -> cpx.
Variable cmul : cpx -> cpx -> cpx.
Variable kiss_fftr_alloc : nat -> bool -> bool.
Variable kiss_fftri : nat -> list cpx -> nat -> spec_float.
Context {P : Type} `{HarmonicProfile P}.
Variable hp : P.
Variable size : nat.
Variable amplitude cutoff : spec_float.

#[local] Abbreviation nf := (Wavetable.normalized_frequency size).
#[local] Abbreviation bins := (Wavetable.fill_bins polar cmul hp size amplitude cutoff).
#[local] Abbreviation value := (Wavetable.bin_value polar cmul hp amplitude).

(** No index in [lo, lo + n) has a normalised frequency above the cutoff. *)
Definition all_within (lo n : nat) : bool :=
  forallb (fun i => negb (flt cutoff (nf i))) (seq lo n).

Lemma fill_bins_S fuel index spec :
  bins (S fuel) index spec =
    if decide (index < size / 2 + 1)%nat then
      if flt cutoff (nf index) then spec
      else bins fuel (S index) (<[index := value index]> spec)
    else spec.
Proof. reflexivity. Qed.

Lemma fill_bins_length fuel index spec :
  length (bins fuel index spec) = length spec.
Proof.
  revert index spec. induction fuel as [|fuel IH]; intros index spec; [done|].
  rewrite fill_bins_S. case_decide; [|done].
  destruct (flt cutoff (nf index)); [done|].
  by rewrite IH, length_insert.
Qed.

Lemma fill_bins_before fuel index spec j :
  (j < index)%nat -> bins fuel index spec !! j = spec !! j.
Proof.
  revert index spec. induction fuel as [|fuel IH]; intros index spec Hj; [done|].
  rewrite fill_bins_S. case_decide; [|done].
  destruct (flt cutoff (nf index)); [done|].
  rewrite IH by lia. apply list_lookup_insert_ne. lia.
Qed.

(** Bin [index + d] after the loop: the harmonic if the loop reached it,
    otherwise what the spectrum held before. *)
Lemma fill_bins_at fuel index spec d :
  (d < fuel)%nat -> (index + d < size / 2 + 1)%nat ->
  length spec = (size / 2 + 1)%nat ->
  bins fuel index spec !! (index + d)%nat =
    if all_within index (S d) then Some (value (index + d)%nat)
    else spec !! (index + d)%nat.
Proof.
  revert index spec d. induction fuel as [|fuel IH]; intros index spec d Hd Hin Hlen; [lia|].
  rewrite fill_bins_S. case_decide; [|lia].
  unfold all_within. rewrite <- cons_seq. cbn [forallb].
  destruct (flt cutoff (nf index)) eqn:Hgate; cbn [negb andb]; [done|].
  destruct d as [|d].
  - cbn [seq forallb]. rewrite Nat.add_0_r.
    rewrite fill_bins_before by lia.
    apply list_lookup_insert_eq. lia.
  - replace (index + S d)%nat with (S index + d)%nat by lia.
    rewrite IH; [| lia | lia | rewrite length_insert; lia ].
    fold (all_within (S index) (S d)).
    destruct (all_within (S index) (S d)); [done|].
    apply list_lookup_insert_ne. lia.
Qed.

Lemma generate_spectrum_length :
  length (Wavetable.generate_spectrum polar cmul hp size amplitude cutoff)
  = (size / 2 + 1)%nat.
Proof.
  unfold Wavetable.generate_spectrum.
  by rewrite fill_bins_length, length_replicate.
Qed.

(** Bin 0 (DC) is never written. *)
Lemma generate_spectrum_dc :
  Wavetable.generate_spectrum polar cmul hp size amplitude cutoff !! 0%nat
  = Some czero.
Proof.
  unfold Wavetable.generate_spectrum.
  rewrite fill_bins_before by lia.
  apply lookup_replicate_2. lia.
Qed.

(** Bin [i] holds harmonic [i] exactly when the gate let every index of
    [1, i] through. *)
Lemma generate_spectrum_bin i :
  (1 <= i <= size / 2)%nat ->
  Wavetable.generate_spectrum polar cmul hp size amplitude cutoff !! i
  = Some (if all_within 1 i then value i else czero).
Proof.
  intros Hi. unfold Wavetable.generate_spectrum.
  replace i with (1 + (i - 1))%nat at 1 by lia.
  rewrite fill_bins_at by (rewrite ?length_replicate; lia).
  replace (S (i - 1)) with i by lia.
  replace (1 + (i - 1))%nat with i by lia.
  destruct (all_within 1 i); [done|].
  apply lookup_replicate_2. lia.
Qed.

Lemma all_within_spec lo n :
  all_within lo n = true <->
  forall j, (lo <= j < lo + n)%nat -> flt cutoff (nf j) = false.
Proof.
  unfold all_within. rewrite forallb_forall. split.
  - intros Hall j Hj. apply negb_true_iff, Hall, in_seq. lia.
  - intros Hall j Hj%in_seq. apply negb_true_iff, Hall. lia.
Qed.

End GenerateProps.

(** ** The DC coefficient of the profile is never read *)

Section DCIndependence.
Variable polar : spec_float -> spec_float -> cpx.
Variable cmul : cpx -> cpx -> cpx.
Variable kiss_fftr_alloc : nat -> bool -> bool.
Variable kiss_fftri : nat -> list cpx -> nat -> spec_float.
Context {P1 P2 : Type} {H1 : HarmonicProfile P1} {H2 : HarmonicProfile P2}.
Variable hp1 : P1.
Variable hp2 : P2.
Hypothesis agree : forall i, (1 <= i)%nat -> getHarmonic hp1 i = getHarmonic hp2 i.

Lemma fill_bins_agree size amplitude cutoff fuel index spec :
  (1 <= index)%nat ->
  Wavetable.fill_bins polar cmul hp1 size amplitude cutoff fuel index spec
  = Wavetable.fill_bins polar cmul hp2 size amplitude cutoff fuel index spec.
Proof.
  revert index spec. induction fuel as [|fuel IH]; intros index spec Hi; [done|].
  rewrite !fill_bins_S. case_decide; [|done].
  destruct (flt cutoff _); [done|].
  unfold Wavetable.bin_value. rewrite (agree index Hi). apply IH. lia.
Qed.

(** C10: [generate] leaves bin 0 of its spectrum zero and reads the profile
    at indices [>= 1] only: two profiles that agree on every index [>= 1]
    give the same spectrum and the same table, whatever their DC
    coefficients are. *)
Theorem generate_independent_of_dc size amplitude cutoff :
  Wavetable.generate_spectrum polar cmul hp1 size amplitude cutoff !! 0%nat
    = Some czero
  /\ Wavetable.generate_spectrum polar cmul hp1 size amplitude cutoff
     = Wavetable.generate_spectrum polar cmul hp2 size amplitude cutoff
  /\ Wavetable.generate polar cmul kiss_fftr_alloc kiss_fftri hp1 size amplitude cutoff
     = Wavetable.generate polar cmul kiss_fftr_alloc kiss_fftri hp2 size amplitude cutoff.
Proof.
  assert (Hspec : Wavetable.generate_spectrum polar cmul hp1 size amplitude cutoff
                  = Wavetable.generate_spectrum polar cmul hp2 size amplitude cutoff).
  { unfold Wavetable.generate_spectrum. apply fill_bins_agree. lia. }
  split; [apply generate_spectrum_dc|]. split; [exact Hspec|].
  unfold Wavetable.generate. by rewrite Hspec.
Qed.
End DCIndependence.

(** ** Loops and the sample buffer *)

Section ForRange.
Context {S : Type}.
Variable body : Z -> S -> option S.

(** Invariant rule for [for_range]. *)
Lemma for_range_invariant (Inv : Z -> S -> Prop) n start s s' :
  Inv start s ->
  (forall i t t', start <= i < start + Z.of_nat n ->
                  Inv i t -> body i t = Some t' -> Inv (i + 1) t') ->
  for_range n start body s = Some s' ->
  Inv (start + Z.of_nat n) s'.
Proof.
  revert start s. induction n as [|n IH]; intros start s Hinit Hstep Hrun.
  - simpl in Hrun. injection Hrun as <-. by rewrite Z.add_0_r.
  - simpl in Hrun. destruct (body start s) as [t|] eqn:Hb; [|discriminate].
    simpl in Hrun.
    replace (start + Z.of_nat (Datatypes.S n)) with (start + 1 + Z.of_nat n) by lia.
    apply (IH (start + 1) t); [| |done].
    + apply (Hstep start s t); [lia|done|done].
    + intros i u u' Hi. apply Hstep. lia.
Qed.

(** Progress rule: the loop returns when the body does under the
    invariant. *)
Lemma for_range_progress (Inv : Z -> S -> Prop) n start s :
  Inv start s ->
  (forall i t, start <= i < start + Z.of_nat n -> Inv i t ->
               exists t', body i t = Some t' /\ Inv (i + 1) t') ->
  exists s', for_range n start body s = Some s'.
Proof.
  revert start s. induction n as [|n IH]; intros start s Hinit Hstep.
  - by exists s.
  - destruct (Hstep start s) as (t & Hb & Ht); [lia|done|].
    simpl. rewrite Hb. simpl. apply IH; [done|].
    intros i u Hi. apply Hstep. lia.
Qed.
End ForRange.

Lemma load_Some data p v :
  load data p = Some v -> 0 <= p < Z.of_nat (length data).
Proof.
  unfold load. case_decide; [|done].
  intros Hl%lookup_lt_Some. lia.
Qed.

Lemma load_in_bounds data p :
  0 <= p < Z.of_nat (length data) -> exists v, load data p = Some v.
Proof.
  intros Hp. unfold load. rewrite decide_True by lia.
  apply lookup_lt_is_Some_2. lia.
Qed.

Lemma store_length data p v data' :
  store data p v = Some data' -> length data' = length data.
Proof.
  unfold store. case_decide; [|done]. intros [= <-]. apply length_insert.
Qed.

Lemma store_in_bounds data p v data' :
  store data p v = Some data' -> 0 <= p < Z.of_nat (length data).
Proof. unfold store. by case_decide. Qed.

Lemma load_store_eq data p v data' :
  store data p v = Some data' -> load data' p = Some v.
Proof.
  unfold store, load. case_decide; [|done]. intros [= <-].
  rewrite decide_True by lia. apply list_lookup_insert_eq. lia.
Qed.

Lemma load_store_ne data p v data' q :
  store data p v = Some data' -> q <> p -> load data' q = load data q.
Proof.
  unfold store, load. case_decide; [|done]. intros [= <-] Hne.
  case_decide; [|done]. apply list_lookup_insert_ne. lia.
Qed.

Lemma write_span_length data ptr samples data' :
  write_span data ptr samples = Some data' -> length data' = length data.
Proof.
  unfold write_span. case_decide; [|done]. intros [= <-].
  rewrite !length_app, length_take, length_drop. lia.
Qed.

Lemma write_span_in_bounds data ptr samples data' :
  write_span data ptr samples = Some data' ->
  0 <= ptr /\ ptr + Z.of_nat (length samples) <= Z.of_nat (length data).
Proof. unfold write_span. by case_decide. Qed.

Lemma load_write_span_inside data ptr samples data' (j : nat) :
  write_span data ptr samples = Some data' ->
  (j < length samples)%nat ->
  load data' (ptr + Z.of_nat j) = samples !! j.
Proof.
  unfold write_span, load. case_decide as Hb; [|done]. intros [= <-] Hj.
  rewrite decide_True by lia.
  rewrite lookup_app_r by (rewrite length_take; lia).
  rewrite length_take, lookup_app_l by lia. f_equal. lia.
Qed.

Lemma load_write_span_outside data ptr samples data' q :
  write_span data ptr samples = Some data' ->
  q < ptr \/ ptr + Z.of_nat (length samples) <= q ->
  load data' q = load data q.
Proof.
  unfold write_span, load. case_decide as Hb; [|done]. intros [= <-] Hq.
  case_decide; [|done].
  destruct (decide (q < ptr)).
  - rewrite lookup_app_l by (rewrite length_take; lia).
    apply lookup_take_lt. lia.
  - rewrite lookup_app_r by (rewrite length_take; lia).
    rewrite length_take, lookup_app_r by lia.
    rewrite lookup_drop. f_equal. lia.
Qed.

(** ** [WavetableMulti::fillExtra] on one table *)

Lemma cyclic_succ ts i :
  0 <= ts -> 0 <= i ->
  (i + 1) mod ts = if decide (i mod ts + 1 = ts) then 0 else i mod ts + 1.
Proof.
  intros Hts Hi. destruct (decide (ts = 0)) as [->|Hz].
  - rewrite !Z.mod_0_r. case_decide; lia.
  - case_decide as Hc.
    + symmetry. apply Z.mod_unique_pos with (q := i / ts + 1); [lia|].
      pose proof (Z.div_mod i ts Hz). lia.
    + symmetry. apply Z.mod_unique_pos with (q := i / ts).
      * pose proof (Z.mod_pos_bound i ts). lia.
      * pose proof (Z.div_mod i ts Hz). lia.
Qed.

Lemma cyclic_pred ts i :
  0 <= ts -> 0 <= i ->
  (ts - 1 - (i + 1)) mod ts =
    if decide ((ts - 1 - i) mod ts = 0) then ts - 1 else (ts - 1 - i) mod ts - 1.
Proof.
  intros Hts Hi. destruct (decide (ts = 0)) as [->|Hz].
  - rewrite !Z.mod_0_r. case_decide; lia.
  - case_decide as Hc.
    + symmetry. apply Z.mod_unique_pos with (q := (ts - 1 - i) / ts - 1); [lia|].
      pose proof (Z.div_mod (ts - 1 - i) ts Hz). lia.
    + symmetry. apply Z.mod_unique_pos with (q := (ts - 1 - i) / ts).
      * pose proof (Z.mod_pos_bound (ts - 1 - i) ts). lia.
      * pose proof (Z.div_mod (ts - 1 - i) ts Hz). lia.
Qed.

(** A cyclic position stays inside the table (or, for an empty table, is
    the offset itself). *)
Lemma cyclic_position ts i :
  0 <= ts -> (0 < ts /\ 0 <= i mod ts < ts) \/ (ts = 0 /\ i mod ts = i).
Proof.
  intros Hts. destruct (decide (ts = 0)) as [->|Hz].
  - right. by rewrite Z.mod_0_r.
  - left. split; [lia|]. apply Z.mod_pos_bound. lia.
Qed.

Section FillExtraTable.
Variable tableSize : nat.
Variable beg : Z.
Variable data0 : list spec_float.

#[local] Abbreviation ts := (Z.of_nat tableSize).
#[local] Abbreviation end_ := (beg + Z.of_nat tableSize).

(** State of the "fill right" loop before pass [i]. *)
Definition right_inv (i : Z) (st : Z * Z * list spec_float) : Prop :=
  let '(src, dst, d) := st in
  0 <= i /\ src = beg + i mod ts /\ dst = end_ + i /\
  length d = length data0 /\
  (forall j, 0 <= j < i -> load d (end_ + j) = load data0 (beg + j mod ts)) /\
  (forall p, ~ (end_ <= p < end_ + i) -> load d p = load data0 p) /\
  (0 < i -> 0 <= end_ /\ end_ + i <= Z.of_nat (length data0)).

(** State of the "fill left" loop before pass [i]. *)
Definition left_inv (i : Z) (st : Z * Z * list spec_float) : Prop :=
  let '(src, dst, d) := st in
  0 <= i /\ src = beg + (ts - 1 - i) mod ts /\ dst = beg - 1 - i /\
  length d = length data0 /\
  (forall j, 0 <= j < i ->
             load d (beg - 1 - j) = load data0 (beg + (ts - 1 - j) mod ts)) /\
  (forall p, ~ (beg - 1 - i < p <= beg - 1) -> load d p = load data0 p) /\
  (0 < i -> 0 <= beg - i /\ beg <= Z.of_nat (length data0)).

Lemma fill_right_step_inv i st st' :
  right_inv i st ->
  Wavetable.fill_right_step beg end_ st = Some st' ->
  right_inv (i + 1) st'.
Proof.
  destruct st as [[src dst] d]. intros (Hi & Hsrc & Hdst & Hlen & Hpad & Hframe & Hbnd).
  unfold Wavetable.fill_right_step.
  destruct (load d src) as [v|] eqn:Hv; [|done]. simpl.
  destruct (store d dst v) as [d'|] eqn:Hst; [|done]. simpl.
  intros [= <-]. unfold right_inv.
  assert (Hsrc0 : load data0 src = Some v).
  { rewrite <- Hv. symmetry. apply Hframe.
    destruct (cyclic_position ts i) as [[? ?]|[? ?]]; lia. }
  split; [lia|]. split.
  { rewrite cyclic_succ by lia.
    destruct (decide (src + 1 ≠ end_)), (decide (i mod ts + 1 = ts)); lia. }
  split; [lia|]. split; [by rewrite (store_length _ _ _ _ Hst)|]. split.
  - intros j Hj. destruct (decide (j = i)) as [->|Hne].
    + rewrite <- Hdst, (load_store_eq _ _ _ _ Hst). by rewrite <- Hsrc.
    + rewrite (load_store_ne _ _ _ _ _ Hst) by lia. apply Hpad. lia.
  - split.
    + intros p Hp. rewrite (load_store_ne _ _ _ _ _ Hst) by lia. apply Hframe. lia.
    + intros _. apply store_in_bounds in Hst. lia.
Qed.

Lemma fill_left_step_inv i st st' :
  left_inv i st ->
  Wavetable.fill_left_step beg end_ st = Some st' ->
  left_inv (i + 1) st'.
Proof.
  destruct st as [[src dst] d]. intros (Hi & Hsrc & Hdst & Hlen & Hpad & Hframe & Hbnd).
  unfold Wavetable.fill_left_step.
  destruct (load d src) as [v|] eqn:Hv; [|done]. simpl.
  destruct (store d dst v) as [d'|] eqn:Hst; [|done]. simpl.
  intros [= <-]. unfold left_inv.
  assert (Hsrc0 : load data0 src = Some v).
  { rewrite <- Hv. symmetry. apply Hframe.
    destruct (cyclic_position ts (ts - 1 - i)) as [[? ?]|[? ?]]; lia. }
  split; [lia|]. split.
  { rewrite cyclic_pred by lia.
    destruct (decide (src ≠ beg)), (decide ((ts - 1 - i) mod ts = 0)); lia. }
  split; [lia|]. split; [by rewrite (store_length _ _ _ _ Hst)|]. split.
  - intros j Hj. destruct (decide (j = i)) as [->|Hne].
    + rewrite <- Hdst, (load_store_eq _ _ _ _ Hst). by rewrite <- Hsrc.
    + rewrite (load_store_ne _ _ _ _ _ Hst) by lia. apply Hpad. lia.
  - split.
    + intros p Hp. rewrite (load_store_ne _ _ _ _ _ Hst) by lia. apply Hframe. lia.
    + intros _. apply store_in_bounds in Hst. lia.
Qed.
End FillExtraTable.

(** What one call of the per-table padding does to the buffer: it stays
    within the buffer, copies the table cyclically into the four samples
    after it and the four samples before it, and touches nothing else. *)
Lemma fillExtra_table_spec tableSize beg data data' :
  Wavetable.fillExtra_table tableSize beg data = Some data' ->
  let sz := Z.of_nat tableSize in
  length data' = length data /\
  (0 <= beg - 4 /\ beg + sz + 4 <= Z.of_nat (length data)) /\
  (forall k, 0 <= k < 4 ->
     load data' (beg + sz + k) = load data (beg + k mod sz)) /\
  (forall k, 0 <= k < 4 ->
     load data' (beg - 1 - k) = load data (beg + (sz - 1 - k) mod sz)) /\
  (forall p, ~ (beg + sz <= p < beg + sz + 4) -> ~ (beg - 4 <= p < beg) ->
     load data' p = load data p).
Proof.
  intros Hrun sz. unfold Wavetable.fillExtra_table in Hrun.
  apply bind_Some in Hrun as ([[src1 dst1] data1] & Hright & Hrun).
  apply bind_Some in Hrun as ([[src2 dst2] data2] & Hleft & Hrun).
  injection Hrun as <-.
  apply (for_range_invariant _ (right_inv tableSize beg data)) in Hright.
  2:{ unfold right_inv. rewrite Zmod_0_l, Z.add_0_r.
      repeat split; try done; try lia. }
  2:{ intros i t t' _ Hinv Hstep. by eapply fill_right_step_inv. }
  apply (for_range_invariant _ (left_inv tableSize beg data1)) in Hleft.
  2:{ unfold left_inv. rewrite Z.sub_0_r.
      repeat split; try done; try lia.
      destruct (decide (Z.of_nat tableSize = 0)) as [->|Hz];
        [rewrite Z.mod_0_r|rewrite Z.mod_small by lia]; lia. }
  2:{ intros i t t' _ Hinv Hstep. by eapply fill_left_step_inv. }
  change (0 + Z.of_nat (Z.to_nat Wavetable._tableExtra)) with 4 in Hright, Hleft.
  destruct Hright as (_ & _ & _ & Hlen1 & Hpad1 & Hframe1 & Hbnd1).
  destruct Hleft as (_ & _ & _ & Hlen2 & Hpad2 & Hframe2 & Hbnd2).
  specialize (Hbnd1 ltac:(lia)). specialize (Hbnd2 ltac:(lia)).
  split; [congruence|]. split; [lia|]. split; [|split].
  - intros k Hk. rewrite Hframe2 by lia. by apply Hpad1.
  - intros k Hk. rewrite Hpad2 by done. apply Hframe1.
    destruct (cyclic_position sz (sz - 1 - k)) as [[? ?]|[? ?]]; lia.
  - intros p Hp1 Hp2. rewrite Hframe2 by lia. apply Hframe1. lia.
Qed.

(** ** Layout of the rows in [_multiData] *)

(** The row stride and the buffer size are computed without wrap-around. *)
Definition no_wrap (tableSize : nat) : Prop :=
  (Z.of_nat tableSize + 8) * 24 < 2 ^ 32.

(** The size [allocateStorage] gives the buffer. *)
Definition storage_size (tableSize : nat) : Z :=
  wrap32 (wrap32 (Z.of_nat tableSize + wrap32 (2 * Wavetable._tableExtra))
          * Wavetable.numTables).

Lemma wrap32_small z : 0 <= z < 2 ^ 32 -> wrap32 z = z.
Proof. intros Hz. unfold wrap32. by apply Z.mod_small. Qed.

Lemma wrap32_bound z : 0 <= wrap32 z < 2 ^ 32.
Proof. unfold wrap32. apply Z.mod_pos_bound. lia. Qed.

Lemma getTablePointer_no_wrap wm m :
  no_wrap (_tableSize wm) -> 0 <= m < 24 ->
  Wavetable.getTablePointer wm m = m * (Z.of_nat (_tableSize wm) + 8) + 4.
Proof.
  unfold no_wrap, Wavetable.getTablePointer. intros Hnw Hm.
  change (wrap32 (2 * Wavetable._tableExtra)) with 8.
  change Wavetable._tableExtra with 4.
  rewrite (wrap32_small (_ + 8)) by lia.
  rewrite wrap32_small by nia. done.
Qed.

Lemma storage_size_no_wrap tableSize :
  no_wrap tableSize -> storage_size tableSize = 24 * (Z.of_nat tableSize + 8).
Proof.
  unfold no_wrap, storage_size. intros Hnw.
  change (wrap32 (2 * Wavetable._tableExtra)) with 8.
  change Wavetable.numTables with 24.
  rewrite (wrap32_small (_ + 8)) by lia.
  rewrite wrap32_small by lia. lia.
Qed.

(** If every padded row lies inside a buffer of the allocated size, nothing
    wrapped. *)
Lemma rows_in_bounds_no_wrap wm :
  (forall m, 0 <= m < 24 ->
     0 <= Wavetable.getTablePointer wm m - 4 /\
     Wavetable.getTablePointer wm m + Z.of_nat (_tableSize wm) + 4
       <= storage_size (_tableSize wm)) ->
  no_wrap (_tableSize wm).
Proof.
  intros Hrows. set (n := Z.of_nat (_tableSize wm)) in *.
  assert (Hn : 0 <= n) by lia.
  assert (Hsize : storage_size (_tableSize wm) < 2 ^ 32)
    by apply wrap32_bound.
  assert (Hstride : n + 8 < 2 ^ 32).
  { destruct (Hrows 0 ltac:(lia)) as [_ H0].
    unfold Wavetable.getTablePointer in H0. rewrite Z.mul_0_l in H0.
    change (wrap32 0 + Wavetable._tableExtra) with 4 in H0. fold n in H0. lia. }
  assert (Hind : forall k : nat, (k <= 24)%nat -> Z.of_nat k * (n + 8) < 2 ^ 32).
  { induction k as [|k IH]; intros Hk; [simpl; lia|].
    specialize (IH ltac:(lia)).
    destruct (Hrows (Z.of_nat k) ltac:(lia)) as [_ Hk'].
    unfold Wavetable.getTablePointer in Hk'. fold n in Hk'.
    change (wrap32 (2 * Wavetable._tableExtra)) with 8 in Hk'.
    change Wavetable._tableExtra with 4 in Hk'.
    rewrite (wrap32_small (n + 8)) in Hk' by lia.
    rewrite wrap32_small in Hk' by nia. nia. }
  unfold no_wrap. fold n. specialize (Hind 24%nat ltac:(lia)). lia.
Qed.

(** Position [p] is one of the guard samples of row [m]. *)
Definition in_guard (wm : WavetableMulti) (m p : Z) : Prop :=
  let beg := Wavetable.getTablePointer wm m in
  beg - 4 <= p < beg \/
  beg + Z.of_nat (_tableSize wm) <= p < beg + Z.of_nat (_tableSize wm) + 4.

(** Rows, guard samples included, do not overlap. *)
Lemma rows_disjoint wm m m' j j' :
  no_wrap (_tableSize wm) -> 0 <= m < 24 -> 0 <= m' < 24 -> m <> m' ->
  -4 <= j < Z.of_nat (_tableSize wm) + 4 ->
  -4 <= j' < Z.of_nat (_tableSize wm) + 4 ->
  Wavetable.getTablePointer wm m + j <> Wavetable.getTablePointer wm m' + j'.
Proof.
  intros Hnw Hm Hm' Hne Hj Hj'. rewrite !getTablePointer_no_wrap by done. nia.
Qed.

(** ** [WavetableMulti::fillExtra] on the whole buffer *)

Section FillExtra.
Variable wm wm' : WavetableMulti.
Hypothesis run : Wavetable.fillExtra wm = Some wm'.

#[local] Abbreviation tsz := (Z.of_nat (_tableSize wm)).
#[local] Abbreviation ptr := (Wavetable.getTablePointer wm).

Lemma fillExtra_inv :
  _tableSize wm' = _tableSize wm /\
  exists data',
    _multiData wm' = data' /\
    for_range (Z.to_nat Wavetable.numTables) 0
      (fun m data => Wavetable.fillExtra_table (_tableSize wm) (ptr m) data)
      (_multiData wm) = Some data'.
Proof.
  unfold Wavetable.fillExtra in run.
  apply bind_Some in run as (data' & Hloop & Hret).
  injection Hret as <-. simpl. eauto.
Qed.

Lemma fillExtra_length : length (_multiData wm') = length (_multiData wm).
Proof.
  destruct fillExtra_inv as (_ & data' & -> & Hloop).
  apply (for_range_invariant _ (fun _ d => length d = length (_multiData wm)))
    in Hloop; [done|done|].
  intros i t t' _ Hlen Hstep.
  destruct (fillExtra_table_spec _ _ _ _ Hstep) as (Hl & _). congruence.
Qed.

Lemma fillExtra_rows_in_bounds m :
  0 <= m < 24 ->
  0 <= ptr m - 4 /\ ptr m + tsz + 4 <= Z.of_nat (length (_multiData wm)).
Proof.
  destruct fillExtra_inv as (_ & data' & _ & Hloop).
  apply (for_range_invariant _
           (fun i d => length d = length (_multiData wm) /\
                       forall m, 0 <= m < i ->
                         0 <= ptr m - 4 /\
                         ptr m + tsz + 4 <= Z.of_nat (length (_multiData wm))))
    in Hloop.
  - intros Hm. apply Hloop. change (Z.of_nat (Z.to_nat Wavetable.numTables)) with 24. lia.
  - split; [done|]. intros; lia.
  - intros i t t' _ [Hlen Hrows] Hstep.
    destruct (fillExtra_table_spec _ _ _ _ Hstep) as (Hl & Hb & _).
    split; [congruence|]. intros m' Hm'.
    destruct (decide (m' = i)) as [->|]; [rewrite <- Hlen; exact Hb|].
    apply Hrows. lia.
Qed.

Hypothesis nw : no_wrap (_tableSize wm).

(** State of the buffer once rows [0 .. i) are padded. *)
Definition padded_upto (i : Z) (d : list spec_float) : Prop :=
  (forall m k, 0 <= m < i -> 0 <= k < 4 ->
     load d (ptr m + tsz + k) = load (_multiData wm) (ptr m + k mod tsz) /\
     load d (ptr m - 1 - k) = load (_multiData wm) (ptr m + (tsz - 1 - k) mod tsz)) /\
  (forall p, (forall m, 0 <= m < i -> ~ in_guard wm m p) ->
     load d p = load (_multiData wm) p).

Lemma fillExtra_table_padded i d d' :
  0 <= i < 24 ->
  padded_upto i d ->
  Wavetable.fillExtra_table (_tableSize wm) (ptr i) d = Some d' ->
  padded_upto (i + 1) d'.
Proof.
  intros Hi [Hpad Hframe] Hstep.
  destruct (fillExtra_table_spec _ _ _ _ Hstep) as (_ & _ & Hr & Hl & Hf).
  assert (Hsrc : forall j, (0 <= j < tsz \/ (tsz = 0 /\ -4 <= j < 4)) ->
                 load d (ptr i + j) = load (_multiData wm) (ptr i + j)).
  { intros j Hj. apply Hframe. intros m Hm [Hg|Hg].
    - apply (rows_disjoint wm i m j (ptr i + j - ptr m)); [done|lia|lia|lia|lia|lia|lia].
    - apply (rows_disjoint wm i m j (ptr i + j - ptr m)); [done|lia|lia|lia|lia|lia|lia]. }
  split.
  - intros m k Hm Hk. destruct (decide (m = i)) as [->|Hne].
    + rewrite Hr, Hl by done. split; apply Hsrc.
      * destruct (cyclic_position tsz k) as [[? ?]|[? ?]]; lia.
      * destruct (cyclic_position tsz (tsz - 1 - k)) as [[? ?]|[? ?]]; lia.
    + rewrite !Hf.
      * apply Hpad; lia.
      * intros ?. apply (rows_disjoint wm m i (-1 - k) (ptr m - 1 - k - ptr i));
          [done|lia|lia|done|lia|lia|lia].
      * intros ?. apply (rows_disjoint wm m i (-1 - k) (ptr m - 1 - k - ptr i));
          [done|lia|lia|done|lia|lia|lia].
      * intros ?. apply (rows_disjoint wm m i (tsz + k) (ptr m + tsz + k - ptr i));
          [done|lia|lia|done|lia|lia|lia].
      * intros ?. apply (rows_disjoint wm m i (tsz + k) (ptr m + tsz + k - ptr i));
          [done|lia|lia|done|lia|lia|lia].
  - intros p Hp. rewrite Hf.
    + apply Hframe. intros m Hm. apply Hp. lia.
    + intros ?. apply (Hp i); [lia|]. right. lia.
    + intros ?. apply (Hp i); [lia|]. left. lia.
Qed.

Lemma fillExtra_padded : padded_upto 24 (_multiData wm').
Proof.
  destruct fillExtra_inv as (_ & data' & -> & Hloop).
  apply (for_range_invariant _ padded_upto) in Hloop; [done| |].
  - split; [intros; lia|done].
  - intros i t t' Hi. apply fillExtra_table_padded.
    change (Z.of_nat (Z.to_nat Wavetable.numTables)) with 24 in Hi. lia.
Qed.

(** Samples inside a table are left alone. *)
Lemma fillExtra_interior m j :
  0 <= m < 24 -> 0 <= j < tsz ->
  load (_multiData wm') (ptr m + j) = load (_multiData wm) (ptr m + j).
Proof.
  intros Hm Hj. destruct fillExtra_padded as [_ Hframe]. apply Hframe.
  intros m' Hm' Hg.
  destruct (decide (m' = m)) as [->|Hne]; [unfold in_guard in Hg; lia|].
  unfold in_guard in Hg.
  apply (rows_disjoint wm m m' j (ptr m + j - ptr m')); [done|lia|lia|done|lia|lia|lia].
Qed.
End FillExtra.

(** ** [createForHarmonicProfile] and [createFromAudioData] *)

Lemma getTablePointer_ext wm1 wm2 m :
  _tableSize wm1 = _tableSize wm2 ->
  Wavetable.getTablePointer wm1 m = Wavetable.getTablePointer wm2 m.
Proof. unfold Wavetable.getTablePointer. by intros ->. Qed.

Lemma getTable_lookup wm m (j : nat) :
  0 <= Wavetable.getTablePointer wm m ->
  Wavetable.getTable wm m !! j =
    if decide (j < _tableSize wm)%nat
    then load (_multiData wm) (Wavetable.getTablePointer wm m + Z.of_nat j)
    else None.
Proof.
  intros Hp. unfold Wavetable.getTable, load. case_decide.
  - rewrite lookup_take_lt, lookup_drop, decide_True by lia. f_equal. lia.
  - apply lookup_take_ge. lia.
Qed.

(** The guard samples of every row continue the row cyclically. *)
Definition wrap_padded (wm : WavetableMulti) : Prop :=
  forall m k, 0 <= m < 24 -> 0 <= k < 4 ->
    let tableSize := Z.of_nat (_tableSize wm) in
    exists v w,
      Wavetable.row wm m (tableSize + k) = Some v /\
      Wavetable.row wm m (k mod tableSize) = Some v /\
      Wavetable.row wm m (-1 - k) = Some w /\
      Wavetable.row wm m ((tableSize - 1 - k) mod tableSize) = Some w.

Lemma fillExtra_wrap_padded wm wm' :
  Z.of_nat (length (_multiData wm)) = storage_size (_tableSize wm) ->
  Wavetable.fillExtra wm = Some wm' ->
  no_wrap (_tableSize wm) /\ wrap_padded wm'.
Proof.
  intros Hlen Hrun.
  assert (Hnw : no_wrap (_tableSize wm)).
  { apply rows_in_bounds_no_wrap. intros m Hm. rewrite <- Hlen.
    by apply (fillExtra_rows_in_bounds wm wm'). }
  split; [done|].
  destruct (fillExtra_inv wm wm' Hrun) as (Hts & _).
  destruct (fillExtra_padded wm wm' Hrun Hnw) as [Hpad Hframe].
  pose proof (fillExtra_length wm wm' Hrun) as Hlen'.
  intros m k Hm Hk. simpl. unfold Wavetable.row.
  rewrite !(getTablePointer_ext wm' wm) by done. rewrite Hts.
  destruct (Hpad m k Hm Hk) as [Hr Hl].
  destruct (fillExtra_rows_in_bounds wm wm' Hrun m Hm) as [Hlo Hhi].
  set (n := Z.of_nat (_tableSize wm)) in *.
  pose (beg := Wavetable.getTablePointer wm m).
  destruct (load_in_bounds (_multiData wm') (beg + (n + k))) as [v Hv];
    [subst beg; lia|].
  destruct (load_in_bounds (_multiData wm') (beg + (-1 - k))) as [w Hw];
    [subst beg; lia|].
  subst beg. exists v, w. split; [done|]. split; [|split; [done|]].
  - destruct (cyclic_position n k) as [[? ?]|[? Hz]]; [lia| |].
    + rewrite (fillExtra_interior wm wm' Hrun Hnw) by (fold n; lia).
      rewrite <- Hr. by rewrite <- Z.add_assoc.
    + rewrite Hz. rewrite <- Hv. f_equal. lia.
  - destruct (cyclic_position n (n - 1 - k)) as [[? ?]|[? Hz]]; [lia| |].
    + rewrite (fillExtra_interior wm wm' Hrun Hnw) by (fold n; lia).
      rewrite <- Hl. rewrite <- Hw. f_equal. lia.
    + rewrite Hz. rewrite <- Hw. f_equal. lia.
Qed.

Section CreateProps.
Variable logf expf : spec_float -> spec_float.
Variable polar : spec_float -> spec_float -> cpx.
Variable cmul cmul_assign : cpx -> cpx -> cpx.
Variable kiss_fftr_alloc : nat -> bool -> bool.
Variable kiss_fftr : nat -> list spec_float -> nat -> cpx.
Variable kiss_fftri : nat -> list cpx -> nat -> spec_float.

#[local] Abbreviation generate :=
  (Wavetable.generate polar cmul kiss_fftr_alloc kiss_fftri).
#[local] Abbreviation create_table :=
  (Wavetable.create_table logf expf polar cmul kiss_fftr_alloc kiss_fftri).
#[local] Abbreviation createForHarmonicProfile :=
  (Wavetable.createForHarmonicProfile logf expf polar cmul kiss_fftr_alloc kiss_fftri).
#[local] Abbreviation createFromAudioData :=
  (Wavetable.createFromAudioData logf expf polar cmul cmul_assign
     kiss_fftr_alloc kiss_fftr kiss_fftri).

Lemma generate_length {P} `{HarmonicProfile P} (hp : P) size amplitude cutoff samples :
  generate hp size amplitude cutoff = Some samples -> length samples = size.
Proof.
  unfold Wavetable.generate. destruct (kiss_fftr_alloc size true); [|done].
  intros [= <-]. by rewrite length_map, length_seq.
Qed.

Section Profile.
Context {P : Type} `{HarmonicProfile P}.
Variable hp : P.
Variable amplitude : spec_float.
Variable tableSize : nat.
Variable refSampleRate : spec_float.

#[local] Abbreviation cutoff_of :=
  (Wavetable.band_cutoff logf expf tableSize refSampleRate).
#[local] Abbreviation body := (create_table hp amplitude tableSize refSampleRate).

(** The synthesis loop keeps the geometry of the buffer. *)
Definition shape_inv (wm : WavetableMulti) : Prop :=
  _tableSize wm = tableSize /\
  Z.of_nat (length (_multiData wm)) = storage_size tableSize.

Lemma allocateStorage_shape : shape_inv (Wavetable.allocateStorage tableSize).
Proof.
  split; [done|]. unfold Wavetable.allocateStorage. simpl.
  rewrite length_replicate. fold (storage_size tableSize).
  pose proof (wrap32_bound
    (wrap32 (Z.of_nat tableSize + wrap32 (2 * Wavetable._tableExtra))
     * Wavetable.numTables)).
  unfold storage_size. lia.
Qed.

Lemma create_table_shape m wm wm' :
  shape_inv wm -> body m wm = Some wm' -> shape_inv wm'.
Proof.
  intros [Hts Hlen]. unfold Wavetable.create_table.
  intros (samples & Hgen & Hrest)%bind_Some.
  apply bind_Some in Hrest as (data & Hw & [= <-]).
  split; [done|]. simpl. by rewrite (write_span_length _ _ _ _ Hw).
Qed.

(** Rows [0 .. i) hold what [generate] returned for their cutoff. *)
Definition rows_upto (i : Z) (wm : WavetableMulti) : Prop :=
  shape_inv wm /\
  forall m, 0 <= m < i ->
    exists samples,
      generate hp tableSize amplitude (cutoff_of m) = Some samples /\
      forall j : nat, (j < tableSize)%nat ->
        load (_multiData wm) (Wavetable.getTablePointer wm m + Z.of_nat j)
        = samples !! j.

Lemma create_table_rows i wm wm' :
  no_wrap tableSize -> 0 <= i < 24 ->
  rows_upto i wm -> body i wm = Some wm' -> rows_upto (i + 1) wm'.
Proof.
  intros Hnw Hi [Hshape Hrows] Hstep.
  split; [by eapply create_table_shape|].
  destruct Hshape as [Hts Hlen].
  unfold Wavetable.create_table in Hstep.
  apply bind_Some in Hstep as (samples & Hgen & Hrest).
  apply bind_Some in Hrest as (data & Hw & [= <-]).
  pose proof (generate_length _ _ _ _ _ Hgen) as Hslen.
  intros m Hm. simpl.
  rewrite (getTablePointer_ext _ wm) by done.
  destruct (decide (m = i)) as [->|Hne].
  - exists samples. split; [done|]. intros j Hj.
    apply (load_write_span_inside _ _ _ _ _ Hw). lia.
  - destruct (Hrows m ltac:(lia)) as (smp & Hg & Hl).
    exists smp. split; [done|]. intros j Hj.
    rewrite (load_write_span_outside _ _ _ _ _ Hw); [by apply Hl|].
    rewrite Hslen. rewrite <- Hts in Hnw.
    rewrite !getTablePointer_no_wrap by (done || lia). rewrite Hts. nia.
Qed.

Lemma createForHarmonicProfile_inv wm :
  createForHarmonicProfile hp amplitude tableSize refSampleRate = Some wm ->
  exists wm1,
    for_range (Z.to_nat Wavetable.numTables) 0 body
      (Wavetable.allocateStorage tableSize) = Some wm1 /\
    Wavetable.fillExtra wm1 = Some wm /\
    shape_inv wm1 /\ no_wrap tableSize.
Proof.
  unfold Wavetable.createForHarmonicProfile.
  intros (wm1 & Hloop & Hfill)%bind_Some.
  exists wm1. split; [done|]. split; [done|].
  assert (Hshape : shape_inv wm1).
  { apply (for_range_invariant _ (fun _ => shape_inv)) in Hloop;
      [done|apply allocateStorage_shape|].
    intros i t t' _. apply create_table_shape. }
  split; [done|]. destruct Hshape as [Hts Hlen].
  rewrite <- Hts. eapply fillExtra_wrap_padded; [|done]. by rewrite Hts.
Qed.

(** C2: row [m] of the multi-table is the output of [generate] called with
    [cutoff = (0.5 * refSampleRate / tableSize) / freq], where [freq] is
    [getRangeForIndex(m).maxFrequency]. *)
Theorem createForHarmonicProfile_row_cutoff wm m :
  createForHarmonicProfile hp amplitude tableSize refSampleRate = Some wm ->
  0 <= m < Wavetable.numTables ->
  let freq :=
    convert binary64 (maxFrequency (Mipmap.getRangeForIndex logf expf m)) in
  let cutoff :=
    fdiv binary64
      (fdiv binary64 (fmul binary64 (dyadic binary64 1 (-1)) refSampleRate)
                     (of_Z binary64 (Z.of_nat tableSize)))
      freq in
  generate hp tableSize amplitude cutoff = Some (Wavetable.getTable wm m).
Proof.
  intros Hrun Hm freq cutoff. change Wavetable.numTables with 24 in Hm.
  destruct (createForHarmonicProfile_inv wm Hrun) as (wm1 & Hloop & Hfill & Hshape & Hnw).
  apply (for_range_invariant _ rows_upto) in Hloop.
  2:{ split; [apply allocateStorage_shape|]. intros; lia. }
  2:{ intros i t t' Hi. apply create_table_rows; [done|].
      change (Z.of_nat (Z.to_nat Wavetable.numTables)) with 24 in Hi. lia. }
  destruct Hloop as [[Hts Hlen] Hrows].
  destruct (Hrows m) as (samples & Hgen & Hload).
  { change (Z.of_nat (Z.to_nat Wavetable.numTables)) with 24. lia. }
  change (cutoff_of m) with cutoff in Hgen. rewrite Hgen. f_equal.
  pose proof (generate_length _ _ _ _ _ Hgen) as Hslen.
  destruct (fillExtra_inv wm1 wm Hfill) as (Hts' & _).
  rewrite <- Hts in Hnw.
  apply list_eq. intros j.
  rewrite getTable_lookup.
  2:{ rewrite (getTablePointer_ext wm wm1), getTablePointer_no_wrap by done. lia. }
  rewrite (getTablePointer_ext wm wm1) by done.
  case_decide as Hj.
  - rewrite (fillExtra_interior wm1 wm Hfill Hnw) by lia.
    symmetry. apply Hload. lia.
  - apply lookup_ge_None_2. lia.
Qed.

Lemma createForHarmonicProfile_wrap_padded wm :
  createForHarmonicProfile hp amplitude tableSize refSampleRate = Some wm ->
  _tableSize wm = tableSize /\ wrap_padded wm.
Proof.
  intros Hrun.
  destruct (createForHarmonicProfile_inv wm Hrun)
    as (wm1 & Hloop & Hfill & [Hts Hlen] & Hnw).
  destruct (fillExtra_inv wm1 wm Hfill) as (Hts' & _).
  split; [congruence|].
  eapply fillExtra_wrap_padded; [|done]. by rewrite Hts.
Qed.
End Profile.
End CreateProps.

Section AudioProps.
Variable logf expf : spec_float -> spec_float.
Variable polar : spec_float -> spec_float -> cpx.
Variable cmul cmul_assign : cpx -> cpx -> cpx.
Variable kiss_fftr_alloc : nat -> bool -> bool.
Variable kiss_fftr : nat -> list spec_float -> nat -> cpx.
Variable kiss_fftri : nat -> list cpx -> nat -> spec_float.

#[local] Abbreviation createForHarmonicProfile :=
  (Wavetable.createForHarmonicProfile logf expf polar cmul kiss_fftr_alloc kiss_fftri).
#[local] Abbreviation createFromAudioData :=
  (Wavetable.createFromAudioData logf expf polar cmul cmul_assign
     kiss_fftr_alloc kiss_fftr kiss_fftri).

(** Progress of the scaling loop: bins [0 .. i) are scaled, the others are
    as the transform left them. *)
Definition scaled_upto (k : cpx) (spec : list cpx) (i : Z) (cur : list cpx) : Prop :=
  0 <= i <= Z.of_nat (length spec) /\
  cur = map (fun z => cmul_assign z k) (take (Z.to_nat i) spec)
        ++ drop (Z.to_nat i) spec.

Lemma scale_step_scaled k spec i cur :
  0 <= i < Z.of_nat (length spec) ->
  scaled_upto k spec i cur ->
  exists cur', Wavetable.scale_step cmul_assign k i cur = Some cur' /\
               scaled_upto k spec (i + 1) cur'.
Proof.
  intros Hi [_ ->].
  destruct (lookup_lt_is_Some_2 spec (Z.to_nat i)) as [z Hz]; [lia|].
  unfold Wavetable.scale_step.
  assert (Hlen : length (map (fun z => cmul_assign z k) (take (Z.to_nat i) spec))
                 = Z.to_nat i) by (rewrite length_map, length_take; lia).
  rewrite lookup_app_r, Hlen, Nat.sub_diag by lia.
  rewrite (drop_S _ _ _ Hz). simpl. eexists. split; [done|].
  split; [lia|].
  rewrite insert_app_r_alt, Hlen, Nat.sub_diag by lia. simpl.
  replace (Z.to_nat (i + 1)) with (S (Z.to_nat i)) by lia.
  rewrite (take_S_r _ _ _ Hz), map_app. simpl. by rewrite <- app_assoc.
Qed.

Lemma scale_loop k spec :
  for_range (length spec) 0 (Wavetable.scale_step cmul_assign k) spec
  = Some (map (fun z => cmul_assign z k) spec).
Proof.
  assert (Hinit : scaled_upto k spec 0 spec).
  { split; [lia|]. by rewrite take_0, drop_0. }
  destruct (for_range_progress (Wavetable.scale_step cmul_assign k)
              (scaled_upto k spec) (length spec) 0 spec Hinit) as [res Hres].
  { intros i t Hi. apply scale_step_scaled. lia. }
  rewrite Hres. f_equal.
  apply (for_range_invariant _ (scaled_upto k spec)) in Hres; [|done|].
  - destruct Hres as [_ ->]. rewrite Z.add_0_l, Nat2Z.id.
    by rewrite firstn_all, drop_all, app_nil_r.
  - intros i t t' Hi Hinv Hstep.
    destruct (scale_step_scaled k spec i t) as (t2 & Ht2 & Hinv2); [lia|done|].
    congruence.
Qed.

(** C9: when the forward configuration is allocated, [createFromAudioData]
    takes the forward real-to-complex transform of the [N] samples, scales
    each of its [N/2 + 1] bins by [polar(2.0 / N, -M_PI / 2)], wraps the
    result in a tabulated profile and returns what
    [createForHarmonicProfile] returns for it with the same amplitude,
    table size and reference rate. *)
Theorem createFromAudioData_delegates audioData amplitude tableSize refSampleRate :
  kiss_fftr_alloc (length audioData) false = true ->
  let N := length audioData in
  let k := polar (fdiv binary64 (of_Z binary64 2) (of_Z binary64 (Z.of_nat N)))
                 (fdiv binary64 (SFopp M_PI) (of_Z binary64 2)) in
  let spectrum :=
    map (fun i => cmul_assign (kiss_fftr N audioData i) k) (seq 0 (N / 2 + 1)) in
  length spectrum = (N / 2 + 1)%nat /\
  createFromAudioData audioData amplitude tableSize refSampleRate
  = createForHarmonicProfile {| _harmonics := spectrum |}
      amplitude tableSize refSampleRate.
Proof.
  intros Halloc N k spectrum.
  split; [unfold spectrum; by rewrite length_map, length_seq|].
  unfold Wavetable.createFromAudioData. rewrite Halloc.
  fold N. fold k.
  set (spec := map (kiss_fftr N audioData) (seq 0 (N / 2 + 1))).
  replace (N / 2 + 1)%nat with (length spec) at 1
    by (unfold spec; by rewrite length_map, length_seq).
  rewrite scale_loop. simpl.
  unfold spec, spectrum. by rewrite map_map.
Qed.

(** C3: in every multi-table returned by [createForHarmonicProfile] or by
    [createFromAudioData], the four guard samples after each row and the
    four before it are the cyclic continuation of the row:
    [row[tableSize + k] = row[k mod tableSize]] and
    [row[-1 - k] = row[(tableSize - 1 - k) mod tableSize]]. *)
Theorem created_tables_wrap_padded :
  (forall (P : Type) (H : HarmonicProfile P) (hp : P)
          amplitude tableSize refSampleRate wm,
     createForHarmonicProfile hp amplitude tableSize refSampleRate = Some wm ->
     wrap_padded wm) /\
  (forall audioData amplitude tableSize refSampleRate wm,
     createFromAudioData audioData amplitude tableSize refSampleRate = Some wm ->
     wrap_padded wm).
Proof.
  split.
  - intros P H hp amplitude tableSize refSampleRate wm Hrun.
    by eapply createForHarmonicProfile_wrap_padded.
  - intros audioData amplitude tableSize refSampleRate wm Hrun.
    unfold Wavetable.createFromAudioData in Hrun.
    destruct (kiss_fftr_alloc (length audioData) false); [|done].
    apply bind_Some in Hrun as (spec & _ & Hrun).
    by eapply createForHarmonicProfile_wrap_padded.
Qed.
End AudioProps.


(** ** The anti-aliasing gate of [generate] *)




Section BandLimit.
Variable polar : spec_float -> spec_float -> cpx.
Variable cmul : cpx -> cpx -> cpx.
Variable kiss_fftr_alloc : nat -> bool -> bool.
Variable kiss_fftri : nat -> list cpx -> nat -> spec_float.
Context {P : Type} `{HarmonicProfile P}.

End BandLimit.

(** ** [MipmapRange]: the tables *)

(** A result of libm is the reference result or one of its two
    neighbours. *)
Definition within_ulp (x y : spec_float) : Prop :=
  x = y \/ x = SFpred 24 128 y \/ x = SFsucc 24 128 y.

Definition candidates (y : spec_float) : list spec_float :=
  [y; SFpred 24 128 y; SFsucc 24 128 y].

Lemma within_ulp_candidates x y : within_ulp x y -> In x (candidates y).
Proof. unfold within_ulp, candidates. simpl. intuition. Qed.

Lemma clamp_float_cases t lo hi :
  clamp_float t lo hi = lo \/
  clamp_float t lo hi = hi /\ flt lo hi = true \/
  clamp_float t lo hi = t /\ flt t hi = true /\ flt lo t = true.
Proof.
  unfold clamp_float, clamp, std_max, std_min.
  destruct (flt t hi) eqn:Hhi.
  - destruct (flt lo t) eqn:Hlo; auto.
  - destruct (flt lo hi) eqn:Hlo; auto.
Qed.

Lemma clamp_int_spec o lo hi :
  lo <= hi -> clamp_int o lo hi = Z.max lo (Z.min hi o).
Proof.
  intros Hle. unfold clamp_int, clamp, std_max, std_min.
  destruct (Z.ltb_spec o hi).
  - destruct (Z.ltb_spec lo o); lia.
  - destruct (Z.ltb_spec lo hi); lia.
Qed.

Lemma SFltb_SFleb x y : SFltb x y = true -> SFleb x y = true.
Proof. unfold SFltb, SFleb. by destruct (SFcompare x y) as [[]|]. Qed.

Section MipmapProps.
Variable logf expf : spec_float -> spec_float.

#[local] Abbreviation f32 := binary32.

Lemma at_index_FrequencyToIndex_entry i :
  0 <= i < 1023 ->
  Mipmap.at_index (Mipmap.FrequencyToIndex logf) i
  = Mipmap.FrequencyToIndex_entry logf i.
Proof.
  intros Hi. unfold Mipmap.at_index, Mipmap.FrequencyToIndex.
  change (Z.to_nat (Mipmap.FrequencyToIndex_size - 1)) with 1023%nat.
  rewrite app_nth1 by (rewrite length_map, length_seq; lia).
  rewrite (nth_indep _ _ (Mipmap.FrequencyToIndex_entry logf (Z.of_nat 0)))
    by (rewrite length_map, length_seq; lia).
  rewrite (map_nth (fun i : nat => Mipmap.FrequencyToIndex_entry logf (Z.of_nat i))).
  rewrite seq_nth by lia. f_equal. lia.
Qed.

Lemma at_index_FrequencyToIndex_last :
  Mipmap.at_index (Mipmap.FrequencyToIndex logf) 1023 = of_Z f32 (Mipmap.N - 1).
Proof.
  unfold Mipmap.at_index, Mipmap.FrequencyToIndex.
  change (Z.to_nat (Mipmap.FrequencyToIndex_size - 1)) with 1023%nat.
  rewrite app_nth2 by (rewrite length_map, length_seq; lia).
  rewrite length_map, length_seq. reflexivity.
Qed.

Lemma at_index_IndexToStartFrequency t :
  0 <= t < 24 ->
  Mipmap.at_index (Mipmap.IndexToStartFrequency logf expf) t
  = fdiv f32 (expf (fmul f32 (of_Z f32 t) (Mipmap.LogB logf))) Mipmap.K.
Proof.
  intros Ht. unfold Mipmap.at_index, Mipmap.IndexToStartFrequency.
  change (Z.to_nat Mipmap.N) with 24%nat.
  rewrite app_nth1 by (rewrite length_map, length_seq; lia).
  set (g := fun t : nat => fdiv f32 (expf (fmul f32 (of_Z f32 (Z.of_nat t)) _)) _).
  rewrite (nth_indep _ _ (g 0%nat)) by (rewrite length_map, length_seq; lia).
  rewrite (map_nth g), seq_nth by lia. unfold g. do 4 f_equal. lia.
Qed.

Lemma at_index_IndexToStartFrequency_last :
  Mipmap.at_index (Mipmap.IndexToStartFrequency logf expf) 24 = of_Z f32 22050.
Proof.
  unfold Mipmap.at_index, Mipmap.IndexToStartFrequency.
  change (Z.to_nat Mipmap.N) with 24%nat.
  rewrite app_nth2 by (rewrite length_map, length_seq; lia).
  rewrite length_map, length_seq. reflexivity.
Qed.

(** Position of a frequency in [FrequencyToIndex], clamped. *)
Definition table_position (f : spec_float) : spec_float :=
  clamp_float
    (fmul f32 (fsub f32 f Mipmap.F1)
       (fdiv f32 (of_Z f32 1023) (fsub f32 Mipmap.FN Mipmap.F1)))
    (of_Z f32 0) (of_Z f32 1023).

(** The interpolation between two neighbouring entries. *)
Definition interpolate (pos : spec_float) (index1 : Z) (a b : spec_float)
  : spec_float :=
  let frac := fsub f32 pos (of_Z f32 index1) in
  fadd f32 (fmul f32 (fsub f32 (of_Z f32 1) frac) a) (fmul f32 frac b).

Lemma getIndexForFrequency_unfold f :
  Mipmap.getIndexForFrequency logf f =
    index1 ← to_int (table_position f);
    Some (interpolate (table_position f) index1
            (Mipmap.at_index (Mipmap.FrequencyToIndex logf) index1)
            (Mipmap.at_index (Mipmap.FrequencyToIndex logf)
               (std_min Z.ltb (index1 + 1) 1023))).
Proof. reflexivity. Qed.

(** Every result of [getExactIndexForFrequency] is [0], [N - 1], or a
    quotient strictly between them. *)
Lemma getExactIndexForFrequency_cases f :
  let r := Mipmap.getExactIndexForFrequency logf f in
  r = of_Z f32 0 \/ r = of_Z f32 23 \/
  (flt r (of_Z f32 23) = true /\ flt (of_Z f32 0) r = true).
Proof.
  intros r. unfold r, Mipmap.getExactIndexForFrequency.
  destruct (clamp_float_cases
              (if flt f Mipmap.F1 then of_Z f32 0
               else fdiv f32 (logf (fmul f32 Mipmap.K f)) (Mipmap.LogB logf))
              (of_Z f32 0) (of_Z f32 (Mipmap.N - 1)))
    as [H|[[H _]|(H & H1 & H2)]]; rewrite H; auto.
Qed.

Lemma getExactIndexForFrequency_range f :
  fle (of_Z f32 0) (Mipmap.getExactIndexForFrequency logf f) = true /\
  fle (Mipmap.getExactIndexForFrequency logf f) (of_Z f32 (Mipmap.N - 1)) = true.
Proof.
  destruct (getExactIndexForFrequency_cases f) as [->|[->|[H1 H2]]];
    [by vm_compute|by vm_compute|].
  split; by apply SFltb_SFleb.
Qed.

Lemma zero_times_index f :
  fmul f32 (S754_zero false) (Mipmap.getExactIndexForFrequency logf f)
  = S754_zero false.
Proof.
  destruct (getExactIndexForFrequency_cases f) as [->|[->|[H1 H2]]];
    [by vm_compute|by vm_compute|].
  destruct (Mipmap.getExactIndexForFrequency logf f) as [s|s| |s m e];
    try discriminate; by destruct s.
Qed.

(** C4: with a libm for which [logf(1) = +0] and [LogB > 0],
    [getIndexForFrequency(F1)] is exactly [0] and
    [getIndexForFrequency(FN)] is exactly [N - 1]. *)
Theorem getIndexForFrequency_boundaries :
  logf (of_Z f32 1) = S754_zero false ->
  flt (of_Z f32 0) (Mipmap.LogB logf) = true ->
  Mipmap.getIndexForFrequency logf Mipmap.F1 = Some (of_Z f32 0) /\
  Mipmap.getIndexForFrequency logf Mipmap.FN = Some (of_Z f32 (Mipmap.N - 1)).
Proof.
  intros Hlog1 HlogB. split.
  - rewrite getIndexForFrequency_unfold.
    replace (table_position Mipmap.F1) with (S754_zero false) by (by vm_compute).
    change (to_int (S754_zero false)) with (Some 0). cbn [mbind option_bind].
    change (std_min Z.ltb (0 + 1) 1023) with 1.
    rewrite !at_index_FrequencyToIndex_entry by lia.
    unfold interpolate.
    replace (fsub f32 (S754_zero false) (of_Z f32 0)) with (S754_zero false)
      by (by vm_compute).
    unfold Mipmap.FrequencyToIndex_entry at 2. rewrite zero_times_index.
    unfold Mipmap.FrequencyToIndex_entry.
    match goal with
    | |- context [Mipmap.getExactIndexForFrequency logf ?x] =>
        replace x with Mipmap.F1 by (by vm_compute)
    end.
    unfold Mipmap.getExactIndexForFrequency.
    replace (flt Mipmap.F1 Mipmap.F1) with false by (by vm_compute).
    replace (fmul f32 Mipmap.K Mipmap.F1) with (of_Z f32 1) by (by vm_compute).
    rewrite Hlog1.
    destruct (Mipmap.LogB logf) as [s|s| |s m e]; try discriminate;
      destruct s; try discriminate; by vm_compute.
  - rewrite getIndexForFrequency_unfold.
    replace (table_position Mipmap.FN) with (of_Z f32 1023) by (by vm_compute).
    replace (to_int (of_Z f32 1023)) with (Some 1023) by (by vm_compute).
    cbn [mbind option_bind].
    change (std_min Z.ltb (1023 + 1) 1023) with 1023.
    rewrite at_index_FrequencyToIndex_last. by vm_compute.
Qed.

(** *** Band boundaries *)

Lemma LogB_unfold :
  Mipmap.LogB logf = fdiv f32 (logf (of_Z f32 600)) (of_Z f32 23).
Proof.
  unfold Mipmap.LogB.
  by replace (fdiv f32 Mipmap.FN Mipmap.F1) with (of_Z f32 600) by (by vm_compute).
Qed.

Lemma getRangeForIndex_in_range o :
  0 <= o <= 23 ->
  Mipmap.getRangeForIndex logf expf o
  = {| minFrequency := Mipmap.at_index (Mipmap.IndexToStartFrequency logf expf) o;
       maxFrequency := Mipmap.at_index (Mipmap.IndexToStartFrequency logf expf) (o + 1) |}.
Proof.
  intros Ho. unfold Mipmap.getRangeForIndex.
  change (Mipmap.N - 1) with 23. rewrite clamp_int_spec by lia.
  by replace (Z.max 0 (Z.min 23 o)) with o by lia.
Qed.

(** The boundaries a libm whose [logf(600)] is [l600] can produce for band
    [t]: one per candidate result of [expf]. *)
Definition boundary_candidates (l600 : spec_float) (t : Z) : list spec_float :=
  if t <? 24 then
    map (fun e => fdiv f32 e Mipmap.K)
        (candidates (RefLibm.ref_expf
                       (fmul f32 (of_Z f32 t) (fdiv f32 l600 (of_Z f32 23)))))
  else [of_Z f32 22050].

Definition boundaries_sorted (l600 : spec_float) : bool :=
  forallb (fun t : nat =>
             forallb (fun a =>
                        forallb (fun b => fle a b)
                                (boundary_candidates l600 (Z.of_nat t + 1)))
                     (boundary_candidates l600 (Z.of_nat t)))
          (seq 0 24).

Lemma boundaries_sorted_checked :
  forallb boundaries_sorted (candidates (RefLibm.ref_logf (of_Z f32 600))) = true.
Proof. by vm_compute. Qed.

Hypothesis logf_accurate : forall x, within_ulp (logf x) (RefLibm.ref_logf x).
Hypothesis expf_accurate : forall x, within_ulp (expf x) (RefLibm.ref_expf x).

Lemma boundary_is_candidate t :
  0 <= t <= 24 ->
  In (Mipmap.at_index (Mipmap.IndexToStartFrequency logf expf) t)
     (boundary_candidates (logf (of_Z f32 600)) t).
Proof.
  intros Ht. unfold boundary_candidates.
  destruct (Z.ltb_spec t 24).
  - rewrite at_index_IndexToStartFrequency by lia. rewrite LogB_unfold.
    apply (in_map (fun e => fdiv f32 e Mipmap.K)).
    apply within_ulp_candidates, expf_accurate.
  - replace t with 24 by lia. rewrite at_index_IndexToStartFrequency_last.
    by left.
Qed.

Lemma boundaries_monotone t :
  0 <= t < 24 ->
  fle (Mipmap.at_index (Mipmap.IndexToStartFrequency logf expf) t)
      (Mipmap.at_index (Mipmap.IndexToStartFrequency logf expf) (t + 1)) = true.
Proof.
  intros Ht. pose proof boundaries_sorted_checked as Hall.
  rewrite forallb_forall in Hall.
  specialize (Hall _ (within_ulp_candidates _ _ (logf_accurate (of_Z f32 600)))).
  unfold boundaries_sorted in Hall. rewrite forallb_forall in Hall.
  specialize (Hall (Z.to_nat t) ltac:(apply in_seq; lia)).
  rewrite Z2Nat.id in Hall by lia.
  rewrite forallb_forall in Hall.
  specialize (Hall _ (boundary_is_candidate t ltac:(lia))).
  rewrite forallb_forall in Hall.
  exact (Hall _ (boundary_is_candidate (t + 1) ltac:(lia))).
Qed.

(** *** A frequency that is mapped to a band below it *)

(** The frequency tabulated in entry [i] of [FrequencyToIndex]. *)
Definition entry_frequency (i : Z) : spec_float :=
  fadd f32 Mipmap.F1
    (fmul f32 (fmul f32 (of_Z f32 i) (fdiv f32 (of_Z f32 1) (of_Z f32 1023)))
              (fsub f32 Mipmap.FN Mipmap.F1)).

(** [getExactIndexForFrequency(f)] for a libm returning [lx] for
    [logf(K * f)] and [l600] for [logf(600)]. *)
Definition exact_index_with (f lx l600 : spec_float) : spec_float :=
  clamp_float
    (if flt f Mipmap.F1 then of_Z f32 0
     else fdiv f32 lx (fdiv f32 l600 (of_Z f32 23)))
    (of_Z f32 0) (of_Z f32 23).

Lemma getExactIndexForFrequency_with f :
  Mipmap.getExactIndexForFrequency logf f
  = exact_index_with f (logf (fmul f32 Mipmap.K f)) (logf (of_Z f32 600)).
Proof.
  unfold Mipmap.getExactIndexForFrequency, exact_index_with.
  by rewrite LogB_unfold.
Qed.

Lemma exact_index_candidate f :
  In (Mipmap.getExactIndexForFrequency logf f)
     (map (fun lx => exact_index_with f lx (logf (of_Z f32 600)))
          (candidates (RefLibm.ref_logf (fmul f32 Mipmap.K f)))).
Proof.
  rewrite getExactIndexForFrequency_with.
  apply (in_map (fun lx => exact_index_with f lx (logf (of_Z f32 600)))).
  apply within_ulp_candidates, logf_accurate.
Qed.

Definition hz_26_5 : spec_float := dyadic f32 53 (-1).

(** For every combination of libm results within one ulp of the
    reference: the interpolated index of 26.5 Hz truncates to 0, the exact
    index truncates to 1, and band 0 ends below 26.5 Hz. *)
Definition low_band_check (l600 : spec_float) : bool :=
  forallb (fun a =>
    forallb (fun b =>
      bool_decide (to_int (interpolate (table_position hz_26_5) 0 a b) = Some 0))
      (map (fun lx => exact_index_with (entry_frequency 1) lx l600)
           (candidates (RefLibm.ref_logf (fmul f32 Mipmap.K (entry_frequency 1))))))
    (map (fun lx => exact_index_with (entry_frequency 0) lx l600)
         (candidates (RefLibm.ref_logf (fmul f32 Mipmap.K (entry_frequency 0)))))
  && forallb (fun x => bool_decide (to_int x = Some 1))
       (map (fun lx => exact_index_with hz_26_5 lx l600)
            (candidates (RefLibm.ref_logf (fmul f32 Mipmap.K hz_26_5))))
  && forallb (fun hi => flt hi hz_26_5) (boundary_candidates l600 1).

Lemma low_band_checked :
  forallb low_band_check (candidates (RefLibm.ref_logf (of_Z f32 600))) = true.
Proof. by vm_compute. Qed.

(** C5 at 26.5 Hz, a frequency of [F1, FN]: with a libm accurate to one
    unit in the last place, the interpolated index truncates to band 0
    although the exact index truncates to band 1, and band 0 ends below
    26.5 Hz, so the band selected by [getIndexForFrequency] does not contain
    the frequency. *)
Theorem low_frequency_band :
  fle Mipmap.F1 hz_26_5 = true /\ fle hz_26_5 Mipmap.FN = true /\
  (exists x, Mipmap.getIndexForFrequency logf hz_26_5 = Some x /\
             to_int x = Some 0) /\
  to_int (Mipmap.getExactIndexForFrequency logf hz_26_5) = Some 1 /\
  flt (maxFrequency (Mipmap.getRangeForIndex logf expf 0)) hz_26_5 = true.
Proof.
  split; [by vm_compute|]. split; [by vm_compute|].
  pose proof low_band_checked as Hall. rewrite forallb_forall in Hall.
  specialize (Hall _ (within_ulp_candidates _ _ (logf_accurate (of_Z f32 600)))).
  unfold low_band_check in Hall.
  apply andb_prop in Hall as [Hall Hhi]. apply andb_prop in Hall as [Hidx Hex].
  split; [|split].
  - rewrite getIndexForFrequency_unfold.
    replace (to_int (table_position hz_26_5)) with (Some 0) by (by vm_compute).
    cbn [mbind option_bind]. eexists. split; [done|].
    change (std_min Z.ltb (0 + 1) 1023) with 1.
    rewrite !at_index_FrequencyToIndex_entry by lia.
    rewrite forallb_forall in Hidx.
    specialize (Hidx _ (exact_index_candidate (entry_frequency 0))).
    rewrite forallb_forall in Hidx.
    specialize (Hidx _ (exact_index_candidate (entry_frequency 1))).
    by apply bool_decide_eq_true in Hidx.
  - rewrite forallb_forall in Hex.
    specialize (Hex _ (exact_index_candidate hz_26_5)).
    by apply bool_decide_eq_true in Hex.
  - rewrite getRangeForIndex_in_range by lia. simpl.
    rewrite forallb_forall in Hhi. apply Hhi.
    apply (boundary_is_candidate 1). lia.
Qed.
End MipmapProps.

(** C6: consecutive bands share their boundary, the last boundary is
    22050, and with a libm accurate to one unit in the last place the
    [N + 1] boundaries are non-decreasing. *)
Theorem band_boundaries logf expf :
  (forall i, 0 <= i <= Mipmap.N - 2 ->
     maxFrequency (Mipmap.getRangeForIndex logf expf i)
     = minFrequency (Mipmap.getRangeForIndex logf expf (i + 1))) /\
  maxFrequency (Mipmap.getRangeForIndex logf expf (Mipmap.N - 1))
    = of_Z binary32 22050 /\
  ((forall x, within_ulp (logf x) (RefLibm.ref_logf x)) ->
   (forall x, within_ulp (expf x) (RefLibm.ref_expf x)) ->
   forall t, 0 <= t < Mipmap.N ->
     fle (Mipmap.at_index (Mipmap.IndexToStartFrequency logf expf) t)
         (Mipmap.at_index (Mipmap.IndexToStartFrequency logf expf) (t + 1))
     = true).
Proof.
  change Mipmap.N with 24. split; [|split].
  - intros i Hi. by rewrite !getRangeForIndex_in_range by lia.
  - rewrite getRangeForIndex_in_range by lia. simpl.
    apply at_index_IndexToStartFrequency_last.
  - intros Hl He t Ht. by apply boundaries_monotone.
Qed.

(** *** The interpolated index stays in range *)

(** [p] holds for the [n] integers from [i] on. *)
Fixpoint all_below (n : nat) (i : Z) (p : Z -> bool) : bool :=
  match n with
  | O => true
  | S n' => p i && all_below n' (i + 1) p
  end.

Lemma all_below_spec n i p k :
  all_below n i p = true -> i <= k < i + Z.of_nat n -> p k = true.
Proof.
  revert i. induction n as [|n IH]; intros i Hall Hk; [lia|].
  cbn [all_below] in Hall. apply andb_prop in Hall as [Hi Hrest].
  destruct (decide (k = i)) as [->|Hne]; [done|].
  apply (IH (i + 1)); [done|lia].
Qed.

Lemma prec32_pos : 0 < 24.
Proof. done. Qed.

Lemma emax32_big : 2 < 128.
Proof. done. Qed.

Section IndexRange.
Variable logf : spec_float -> spec_float.

#[local] Abbreviation f32 := binary32.
#[local] Abbreviation good32 := (good 24 128).
#[local] Abbreviation ival32 := (ival 24 128).

(** Small integers are converted exactly. *)
Definition int_check (i : Z) : bool :=
  goodb 24 128 (of_Z f32 i) && (ival 24 128 (of_Z f32 i) =? i * 2 ^ 149).

Lemma ints_checked : all_below (Z.to_nat 1024) 0 int_check = true.
Proof. by vm_compute. Qed.

Lemma of_Z_exact i :
  0 <= i <= 1023 -> good32 (of_Z f32 i) /\ ival32 (of_Z f32 i) = i * 2 ^ 149.
Proof.
  intros Hi.
  pose proof (all_below_spec _ _ _ i ints_checked ltac:(lia)) as H.
  unfold int_check in H. apply andb_prop in H as [Hg He].
  split; [by apply goodb_good|by apply Z.eqb_eq].
Qed.

(** Truncation of a good float. *)
Lemma trunc_good x : good32 x -> trunc_Z x = Some (ival32 x / 2 ^ 149).
Proof.
  intros Hx. pose proof (good_exponent 24 128 prec32_pos emax32_big x Hx) as He.
  destruct x as [[|]|[|]| |[|] m e]; try done.
  change (emin 24 128) with (-149) in He. cbn [dy snd] in He.
  unfold trunc_Z, ival. cbn [dy fst snd cond_Zopp]. f_equal.
  change (emin 24 128) with (-149).
  assert (Hnz : forall k, 0 <= k -> 2 ^ k <> 0)
    by (intros k Hk; apply Z.pow_nonzero; lia).
  destruct e as [|p|p].
  - change (0 - -149) with 149. rewrite Z.div_mul by (apply Hnz; lia).
    change (2 ^ 0) with 1. lia.
  - replace (Z.pos p - -149) with (Z.pos p + 149) by lia.
    rewrite Z.pow_add_r, Z.mul_assoc by lia. rewrite Z.div_mul by (apply Hnz; lia).
    done.
  - replace (2 ^ 149) with (2 ^ Z.pos p * 2 ^ (Z.neg p - -149)).
    + rewrite Z.div_mul_cancel_r by (apply Hnz; lia). done.
    + rewrite <- Z.pow_add_r by lia. f_equal. lia.
Qed.

(** The clamped table position is a good float of [0, 1023]. *)
Lemma table_position_good f :
  good32 (table_position f) /\ fle (table_position f) (of_Z f32 1023) = true.
Proof.
  unfold table_position.
  destruct (clamp_float_cases
              (fmul f32 (fsub f32 f Mipmap.F1)
                 (fdiv f32 (of_Z f32 1023) (fsub f32 Mipmap.FN Mipmap.F1)))
              (of_Z f32 0) (of_Z f32 1023))
    as [->|[[-> _]|(-> & Hlt & Hpos)]]; [by vm_compute|by vm_compute|].
  split; [|by apply SFltb_SFleb].
  revert Hlt Hpos.
  replace (fdiv f32 (of_Z f32 1023) (fsub f32 Mipmap.FN Mipmap.F1))
    with (S754_finite false 11461163 (-27)) by (by vm_compute).
  change (of_Z f32 0) with (S754_zero false).
  intros Hlt Hpos.
  by apply (positive_product_good 24 128 prec32_pos _ _ _ (of_Z f32 1023)).
Qed.

(** The integer part of a position. *)
Lemma position_index pos :
  good32 pos -> fle pos (of_Z f32 1023) = true ->
  exists i, to_int pos = Some i /\ 0 <= i <= 1023 /\
            i * 2 ^ 149 <= ival32 pos < (i + 1) * 2 ^ 149.
Proof.
  intros Hg Hle.
  destruct (of_Z_exact 1023 ltac:(lia)) as [Hg1023 Hv1023].
  apply (good_le_iff 24 128 prec32_pos emax32_big) in Hle; [|done|done].
  rewrite Hv1023 in Hle.
  pose proof (ival_nonneg 24 128 emax32_big pos) as Hnn.
  assert (Hs : 0 < 2 ^ 149) by done.
  exists (ival32 pos / 2 ^ 149).
  pose proof (Z.mul_div_le (ival32 pos) _ Hs).
  pose proof (Z.mul_succ_div_gt (ival32 pos) _ Hs).
  assert (0 <= ival32 pos / 2 ^ 149 <= 1023).
  { split; [by apply Z.div_pos|]. apply Z.div_le_upper_bound; lia. }
  split; [|split; [done|lia]].
  unfold to_int. rewrite trunc_good by done. cbn [mbind option_bind].
  rewrite decide_True; [done|]. unfold int_min, int_max. lia.
Qed.

(** An upper bound of the entries of [FrequencyToIndex] before the last. *)
Definition entry_bound : spec_float := S754_finite false 12056784 (-19).

Definition entry_check (ls : list spec_float) (i : Z) : bool :=
  let f := entry_frequency i in
  forallb (fun lx =>
    forallb (fun l600 =>
      let a := exact_index_with f lx l600 in
      goodb 24 128 a && fle a entry_bound) ls)
    (candidates (RefLibm.ref_logf (fmul f32 Mipmap.K f))).

Lemma entries_checked :
  all_below (Z.to_nat 1023) 0
    (entry_check (candidates (RefLibm.ref_logf (of_Z f32 600)))) = true.
Proof. by vm_compute. Qed.

(** [interp_bound lo hi a b]: the interpolation of the bounds [a] and [b]
    with a fraction between [lo] and [hi] does not exceed [N - 1]. *)
Definition interp_bound (lo hi a b : spec_float) : bool :=
  let g := fsub f32 (of_Z f32 1) lo in
  let p1 := fmul f32 g a in
  let p2 := fmul f32 hi b in
  let u := fadd f32 p1 p2 in
  goodb 24 128 lo && goodb 24 128 hi && goodb 24 128 p1 && goodb 24 128 p2
  && goodb 24 128 u && fle hi (of_Z f32 1) && fle u (of_Z f32 23).

Definition cell_check (j : Z) : bool :=
  interp_bound (dyadic f32 j (-13)) (dyadic f32 (j + 1) (-13))
    entry_bound entry_bound.

Definition last_check (d : Z) : bool :=
  interp_bound (dyadic f32 d (-14)) (dyadic f32 d (-14))
    entry_bound (of_Z f32 23).

Lemma cells_checked : all_below (Z.to_nat 8192) 0 cell_check = true.
Proof. by vm_compute. Qed.

Lemma last_checked : all_below (Z.to_nat 16384) 0 last_check = true.
Proof. by vm_compute. Qed.

Lemma interp_le frac lo hi a b a' b' :
  good32 frac -> good32 a -> good32 b -> good32 a' -> good32 b' ->
  fle lo frac = true -> fle frac hi = true ->
  fle a a' = true -> fle b b' = true ->
  interp_bound lo hi a' b' = true ->
  let r := fadd f32 (fmul f32 (fsub f32 (of_Z f32 1) frac) a) (fmul f32 frac b) in
  good32 r /\ fle (of_Z f32 0) r = true /\ fle r (of_Z f32 23) = true.
Proof.
  intros Hfrac Ha Hb Ha' Hb' Hlo Hhi Haa Hbb Hchk r.
  unfold interp_bound in Hchk.
  apply andb_prop in Hchk as [Hchk Hu23]. apply andb_prop in Hchk as [Hchk Hhi1].
  apply andb_prop in Hchk as [Hchk Hgu%goodb_good].
  apply andb_prop in Hchk as [Hchk Hgp2%goodb_good].
  apply andb_prop in Hchk as [Hchk Hgp1%goodb_good].
  apply andb_prop in Hchk as [Hglo%goodb_good Hghi%goodb_good].
  assert (Hg1 : good32 (of_Z f32 1)) by (by vm_compute).
  assert (Hg23 : good32 (of_Z f32 23)) by (by vm_compute).
  subst r. change (of_Z f32 0) with (S754_zero false).
  revert Hg1 Hg23 Hu23 Hhi1 Hgu Hgp2 Hgp1.
  generalize (of_Z f32 1) (of_Z f32 23). intros one top.
  unfold fle, fmul, fadd, fsub in *.
  change (fprec f32) with 24 in *. change (femax f32) with 128 in *.
  intros Hg1 Hg23 Hu23 Hhi1 Hgu Hgp2 Hgp1.
  pose proof (good_le_trans 24 128 prec32_pos emax32_big) as Htrans.
  assert (Hf1 : SFleb frac one = true) by (by apply (Htrans frac hi one)).
  assert (Hl1 : SFleb lo one = true) by (by apply (Htrans lo frac one)).
  assert (Hg : good32 (SFsub 24 128 one frac))
    by (by apply (good_sub_good 24 128 prec32_pos emax32_big)).
  assert (Hg' : good32 (SFsub 24 128 one lo))
    by (by apply (good_sub_good 24 128 prec32_pos emax32_big)).
  assert (Hgg : SFleb (SFsub 24 128 one frac) (SFsub 24 128 one lo) = true)
    by (by apply (good_sub_anti 24 128 prec32_pos emax32_big)).
  assert (Hp1 : SFleb (SFmul 24 128 (SFsub 24 128 one frac) a)
                      (SFmul 24 128 (SFsub 24 128 one lo) a') = true)
    by (by apply (good_mul_mono 24 128 prec32_pos emax32_big)).
  assert (Hp2 : SFleb (SFmul 24 128 frac b) (SFmul 24 128 hi b') = true)
    by (by apply (good_mul_mono 24 128 prec32_pos emax32_big)).
  pose proof (good_mul_below 24 128 prec32_pos emax32_big _ _ _ Hg Ha Hgp1 Hp1)
    as Hq1.
  pose proof (good_mul_below 24 128 prec32_pos emax32_big _ _ _ Hfrac Hb Hgp2 Hp2)
    as Hq2.
  assert (Hr : SFleb (SFadd 24 128 (SFmul 24 128 (SFsub 24 128 one frac) a)
                                   (SFmul 24 128 frac b))
                     (SFadd 24 128 (SFmul 24 128 (SFsub 24 128 one lo) a')
                                   (SFmul 24 128 hi b')) = true)
    by (by apply (good_add_mono 24 128 prec32_pos emax32_big)).
  pose proof (good_add_below 24 128 prec32_pos emax32_big _ _ _ Hq1 Hq2 Hgu Hr)
    as Hgr.
  split; [done|split].
  - by apply (good_zero_le 24 128 prec32_pos emax32_big).
  - by apply (Htrans _ _ top Hgr Hgu Hg23 Hr).
Qed.

Lemma good_entry_bound : good32 entry_bound.
Proof. by vm_compute. Qed.

(** The fraction of a position, as a rounded value. *)
Lemma fraction_value pos i :
  good32 pos -> 0 <= i <= 1023 -> i * 2 ^ 149 <= ival32 pos ->
  good32 (fsub f32 pos (of_Z f32 i)) /\
  fsub f32 pos (of_Z f32 i) = nearest 24 128 (ival32 pos - i * 2 ^ 149) (-149).
Proof.
  intros Hpos Hi Hv. destruct (of_Z_exact i Hi) as [Hgi Hvi].
  unfold fsub. change (fprec f32) with 24. change (femax f32) with 128.
  split.
  - apply (good_sub_good 24 128 prec32_pos emax32_big); [done|done|].
    apply (good_le_iff 24 128 prec32_pos emax32_big); [done|done|lia].
  - rewrite (good_sub 24 128 prec32_pos emax32_big) by (done || lia).
    by rewrite Hvi.
Qed.

(** Positions whose second neighbour is not the last entry. *)
Lemma interpolate_inner pos i a b :
  good32 pos -> 0 <= i <= 1023 ->
  i * 2 ^ 149 <= ival32 pos < (i + 1) * 2 ^ 149 ->
  good32 a -> good32 b ->
  fle a entry_bound = true -> fle b entry_bound = true ->
  good32 (interpolate pos i a b) /\
  fle (of_Z f32 0) (interpolate pos i a b) = true /\
  fle (interpolate pos i a b) (of_Z f32 23) = true.
Proof.
  intros Hpos Hi Hv Ha Hb Hac Hbc.
  destruct (fraction_value pos i Hpos Hi ltac:(lia)) as [Hgf Hf].
  set (R := ival32 pos - i * 2 ^ 149) in *.
  assert (H136 : 0 < 2 ^ 136) by done.
  assert (HR : 0 <= R < 8192 * 2 ^ 136).
  { unfold R. change (2 ^ 149) with (8192 * 2 ^ 136) in Hv. lia. }
  pose proof (Z.mul_div_le R _ H136) as Hjl.
  pose proof (Z.mul_succ_div_gt R _ H136) as Hjh.
  assert (Hj : 0 <= R / 2 ^ 136 < 8192).
  { split; [apply Z.div_pos; lia|apply Z.div_lt_upper_bound; lia]. }
  revert Hjl Hjh Hj. generalize (R / 2 ^ 136). intros j Hjl Hjh Hj.
  pose proof (all_below_spec _ _ _ j cells_checked ltac:(lia)) as Hcell.
  unfold cell_check in Hcell.
  unfold interpolate.
  apply (interp_le _ (dyadic f32 j (-13)) (dyadic f32 (j + 1) (-13))
           a b entry_bound entry_bound);
    try done; try apply good_entry_bound.
  - rewrite Hf. unfold fle, dyadic.
    apply (nearest_mono 24 128 prec32_pos emax32_big); [lia|lia|].
    apply (dle_iff _ _ _ _ (-149)); [lia|lia|].
    change (2 ^ (-13 - -149)) with (2 ^ 136).
    change (2 ^ (-149 - -149)) with 1. lia.
  - rewrite Hf. unfold fle, dyadic.
    apply (nearest_mono 24 128 prec32_pos emax32_big); [lia|lia|].
    apply (dle_iff _ _ _ _ (-149)); [lia|lia|].
    change (2 ^ (-13 - -149)) with (2 ^ 136).
    change (2 ^ (-149 - -149)) with 1. lia.
Qed.

(** A position of [[1022, 1023)] is a multiple of [2^-14]. *)
Lemma last_cell_fraction pos :
  good32 pos -> 1022 * 2 ^ 149 <= ival32 pos < 1023 * 2 ^ 149 ->
  exists d, 0 <= d < 16384 /\ ival32 pos - 1022 * 2 ^ 149 = d * 2 ^ 135.
Proof.
  intros Hpos Hv.
  destruct pos as [[|]|[|]| |[|] m e]; try done.
  { unfold ival in Hv. cbn [dy fst snd] in Hv. lia. }
  destruct (valid_canonical 24 128 prec32_pos false m e Hpos)
    as (_ & _ & Hm & He & _).
  unfold ival in *. cbn [dy fst snd] in *.
  change (emin 24 128) with (-149) in *.
  assert (He14 : -14 <= e).
  { destruct (Z.le_gt_cases (-14) e) as [|Hlt]; [done|]. exfalso.
    assert (2 ^ (e - -149) <= 2 ^ 134) by (apply Z.pow_le_mono_r; lia).
    assert (Z.pos m * 2 ^ (e - -149) <= (2 ^ 24 - 1) * 2 ^ 134)
      by (apply Z.mul_le_mono_nonneg; lia).
    lia. }
  assert (Heq : Z.pos m * 2 ^ (e - -149) = Z.pos m * 2 ^ (e + 14) * 2 ^ 135).
  { rewrite <- Z.mul_assoc, <- Z.pow_add_r by lia. do 2 f_equal. lia. }
  rewrite Heq in *. clear Heq.
  revert Hv. generalize (Z.pos m * 2 ^ (e + 14)). intros X Hv.
  exists (X - 1022 * 2 ^ 14).
  change (2 ^ 149) with (2 ^ 14 * 2 ^ 135) in *.
  assert (0 < 2 ^ 135) by done. split; [nia|ring].
Qed.

(** Positions between the last two entries. *)
Lemma interpolate_last pos a :
  good32 pos -> 1022 * 2 ^ 149 <= ival32 pos < 1023 * 2 ^ 149 ->
  good32 a -> fle a entry_bound = true ->
  good32 (interpolate pos 1022 a (of_Z f32 23)) /\
  fle (of_Z f32 0) (interpolate pos 1022 a (of_Z f32 23)) = true /\
  fle (interpolate pos 1022 a (of_Z f32 23)) (of_Z f32 23) = true.
Proof.
  intros Hpos Hv Ha Hac.
  destruct (fraction_value pos 1022 Hpos ltac:(lia) ltac:(lia)) as [Hgf Hf].
  destruct (last_cell_fraction pos Hpos Hv) as (d & Hd & HR).
  rewrite HR in Hf.
  assert (Hfd : fsub f32 pos (of_Z f32 1022) = dyadic f32 d (-14)).
  { rewrite Hf. unfold dyadic.
    assert (0 < 2 ^ 135) by done.
    apply (nearest_ext 24 128 prec32_pos emax32_big); [lia|lia| |];
      apply (dle_iff _ _ _ _ (-149)); try lia;
      change (2 ^ (-14 - -149)) with (2 ^ 135);
      change (2 ^ (-149 - -149)) with 1; lia. }
  pose proof (all_below_spec _ _ _ d last_checked ltac:(lia)) as Hlast.
  unfold last_check in Hlast. rewrite <- Hfd in Hlast.
  assert (Hg23 : good32 (of_Z f32 23)) by (by vm_compute).
  unfold interpolate.
  apply (interp_le (fsub f32 pos (of_Z f32 1022)) (fsub f32 pos (of_Z f32 1022))
           (fsub f32 pos (of_Z f32 1022)) a (of_Z f32 23) entry_bound
           (of_Z f32 23) Hgf Ha Hg23 good_entry_bound Hg23); try done.
  - by apply (good_le_refl 24 128 prec32_pos emax32_big).
  - by apply (good_le_refl 24 128 prec32_pos emax32_big).
Qed.

Hypothesis logf_accurate : forall x, within_ulp (logf x) (RefLibm.ref_logf x).

Lemma entry_in_range i :
  0 <= i < 1023 ->
  good32 (Mipmap.at_index (Mipmap.FrequencyToIndex logf) i) /\
  fle (Mipmap.at_index (Mipmap.FrequencyToIndex logf) i) entry_bound = true.
Proof.
  intros Hi. rewrite at_index_FrequencyToIndex_entry by lia.
  change (Mipmap.FrequencyToIndex_entry logf i)
    with (Mipmap.getExactIndexForFrequency logf (entry_frequency i)).
  rewrite getExactIndexForFrequency_with.
  pose proof (all_below_spec _ _ _ i entries_checked ltac:(lia)) as H.
  unfold entry_check in H. rewrite forallb_forall in H.
  specialize (H _ (within_ulp_candidates _ _
                     (logf_accurate (fmul f32 Mipmap.K (entry_frequency i))))).
  rewrite forallb_forall in H.
  specialize (H _ (within_ulp_candidates _ _ (logf_accurate (of_Z f32 600)))).
  apply andb_prop in H as [Hg Hle]. split; [by apply goodb_good|done].
Qed.

(** The interpolated index is a good float of [[0, N - 1]]. *)
Lemma getIndexForFrequency_good f :
  exists x, Mipmap.getIndexForFrequency logf f = Some x /\ good32 x /\
            fle (of_Z f32 0) x = true /\ fle x (of_Z f32 (Mipmap.N - 1)) = true.
Proof.
  rewrite getIndexForFrequency_unfold.
  destruct (table_position_good f) as [Hg Hle].
  destruct (position_index _ Hg Hle) as (i & Hto & Hi & Hv).
  rewrite Hto. cbn [mbind option_bind]. eexists. split; [done|].
  change (Mipmap.N - 1) with 23.
  destruct (decide (i = 1023)) as [->|Hne].
  - assert (Hpos : table_position f = of_Z f32 1023).
    { destruct (of_Z_exact 1023 ltac:(lia)) as [Hg1023 Hv1023].
      apply (good_le_iff 24 128 prec32_pos emax32_big) in Hle; [|done|done].
      rewrite (good_repr 24 128 prec32_pos emax32_big _ Hg).
      rewrite (good_repr 24 128 prec32_pos emax32_big _ Hg1023).
      f_equal. lia. }
    rewrite Hpos. change (std_min Z.ltb (1023 + 1) 1023) with 1023.
    rewrite at_index_FrequencyToIndex_last. by vm_compute.
  - destruct (decide (i = 1022)) as [->|Hne'].
    + change (std_min Z.ltb (1022 + 1) 1023) with 1023.
      rewrite at_index_FrequencyToIndex_last.
      destruct (entry_in_range 1022 ltac:(lia)) as [Ha Hac].
      change (Mipmap.N - 1) with 23. by apply interpolate_last.
    + replace (std_min Z.ltb (i + 1) 1023) with (i + 1)
        by (unfold std_min; destruct (Z.ltb_spec 1023 (i + 1)); lia).
      destruct (entry_in_range i ltac:(lia)) as [Ha Hac].
      destruct (entry_in_range (i + 1) ltac:(lia)) as [Hb Hbc].
      by apply interpolate_inner.
Qed.

Lemma getIndexForFrequency_range f :
  exists x, Mipmap.getIndexForFrequency logf f = Some x /\
            fle (of_Z f32 0) x = true /\ fle x (of_Z f32 (Mipmap.N - 1)) = true.
Proof.
  destruct (getIndexForFrequency_good f) as (x & Hx & _ & Hrange).
  by exists x.
Qed.
End IndexRange.

(** C7: [getIndexForFrequency], [getExactIndexForFrequency] and
    [getRangeForIndex] have no error path.  For every frequency [f] (in
    particular every [f >= 0]) the exact index lies in [[0, N - 1]] and is
    [0] when [f < F1]; with a libm accurate to one unit in the last place
    the interpolated index is defined and lies in [[0, N - 1]]; and for
    every integer [o], [getRangeForIndex] reads the boundaries of band
    [max 0 (min (N - 1) o)], both inside [IndexToStartFrequency]. *)
Theorem index_lookups_total logf expf :
  (forall f,
     fle (of_Z binary32 0) (Mipmap.getExactIndexForFrequency logf f) = true /\
     fle (Mipmap.getExactIndexForFrequency logf f)
         (of_Z binary32 (Mipmap.N - 1)) = true) /\
  (forall f, flt f Mipmap.F1 = true ->
     Mipmap.getExactIndexForFrequency logf f = of_Z binary32 0) /\
  ((forall x, within_ulp (logf x) (RefLibm.ref_logf x)) ->
   forall f, exists x,
     Mipmap.getIndexForFrequency logf f = Some x /\
     fle (of_Z binary32 0) x = true /\
     fle x (of_Z binary32 (Mipmap.N - 1)) = true) /\
  (forall o,
     let c := Z.max 0 (Z.min (Mipmap.N - 1) o) in
     0 <= c <= Mipmap.N - 1 /\
     (Z.to_nat (c + 1) < length (Mipmap.IndexToStartFrequency logf expf))%nat /\
     Mipmap.getRangeForIndex logf expf o
     = {| minFrequency := Mipmap.at_index (Mipmap.IndexToStartFrequency logf expf) c;
          maxFrequency :=
            Mipmap.at_index (Mipmap.IndexToStartFrequency logf expf) (c + 1) |}).
Proof.
  split; [|split; [|split]].
  - apply getExactIndexForFrequency_range.
  - intros f Hf. unfold Mipmap.getExactIndexForFrequency. rewrite Hf.
    by vm_compute.
  - intros Hl f. by apply getIndexForFrequency_range.
  - intros o c. change (Mipmap.N - 1) with 23 in *.
    split; [lia|]. split.
    + unfold Mipmap.IndexToStartFrequency.
      rewrite length_app, length_map, length_seq.
      change (Z.to_nat Mipmap.N) with 24%nat. cbn [length]. lia.
    + unfold Mipmap.getRangeForIndex. change (Mipmap.N - 1) with 23.
      by rewrite clamp_int_spec by lia.
Qed.

(** ** Further properties of the lookups *)

(** *** Frequencies outside [[F1, FN]] *)

(** The sign bit is set, or the value is a zero. *)
Definition nonpos (x : spec_float) : Prop :=
  match x with
  | S754_zero _ => True
  | S754_infinity s | S754_finite s _ _ => s = true
  | S754_nan => False
  end.

Lemma finish_nonpos prec emax m E : nonpos (finish prec emax true m E).
Proof.
  unfold finish.
  destruct (m =? 0); [done|].
  destruct (m <? 2 ^ prec);
    [by destruct (E <=? emax - prec)|by destruct (E + 1 <=? emax - prec)].
Qed.

Lemma binary_normalize_nonpos prec emax z e :
  0 < prec -> z <= 0 -> nonpos (binary_normalize prec emax z e false).
Proof.
  intros Hp Hz. destruct z as [|p|p]; [done|lia|].
  cbn [binary_normalize]. rewrite binary_round_spec by done.
  apply finish_nonpos.
Qed.

Section Saturation.
Variable logf : spec_float -> spec_float.

#[local] Abbreviation f32 := binary32.
#[local] Abbreviation good32 := (good 24 128).
#[local] Abbreviation ival32 := (ival 24 128).

(** The factor [(tableSize - 1) / (FN - F1)] of the table position. *)
Definition position_scale : spec_float := S754_finite false 11461163 (-27).

Lemma position_scale_eq :
  fdiv f32 (of_Z f32 1023) (fsub f32 Mipmap.FN Mipmap.F1) = position_scale.
Proof. by vm_compute. Qed.

Lemma table_position_unfold f :
  table_position f
  = clamp_float (fmul f32 (fsub f32 f Mipmap.F1) position_scale)
      (of_Z f32 0) (of_Z f32 1023).
Proof. unfold table_position. by rewrite position_scale_eq. Qed.

(** [f - F1] is not positive when [f <= F1]. *)
Lemma below_F1_nonpos f :
  fvalid f32 f = true -> fle f Mipmap.F1 = true ->
  nonpos (fsub f32 f Mipmap.F1).
Proof.
  intros Hv Hle.
  replace Mipmap.F1 with (S754_finite false 10485760 (-19)) in * by (by vm_compute).
  unfold fsub, fle, fvalid in *.
  change (fprec f32) with 24 in *. change (femax f32) with 128 in *.
  destruct f as [s|s| |s m e]; [done|by destruct s|done|].
  cbn [SFsub]. apply binary_normalize_nonpos; [done|].
  destruct s; cbn [cond_Zopp]; [lia|].
  rewrite (Z.min_comm e (-19)) at 2. rewrite !shl_align_min.
  rewrite (Z.min_comm (-19) e).
  assert (Hg : good32 (S754_finite false m e)) by done.
  assert (Hg1 : good32 (S754_finite false 10485760 (-19))) by (by vm_compute).
  pose proof (good_SFleb_dle 24 128 prec32_pos _ _ Hg Hg1 Hle) as Hd.
  unfold dle in Hd. cbn [dy fst snd] in Hd. lia.
Qed.

Lemma scaled_nonpos x :
  nonpos x -> nonpos (fmul f32 x position_scale).
Proof.
  unfold fmul, position_scale.
  change (fprec f32) with 24. change (femax f32) with 128.
  destruct x as [s|s| |s m e]; [done|by intros ->|done|intros ->].
  rewrite SFmul_aligned; [apply finish_nonpos|done|].
  unfold aligned. rewrite fexp_spec, Pos2Z.inj_mul.
  pose proof (Zdigits2_mul_ge (Z.pos m) 11461163 ltac:(lia) ltac:(lia)) as Hd.
  change (Zdigits2 11461163) with 24 in Hd.
  assert (1 <= Zdigits2 (Z.pos m)) by (simpl; lia). lia.
Qed.

Lemma clamp_nonpos x hi :
  nonpos x -> flt (S754_zero false) hi = true ->
  (exists m e, hi = S754_finite false m e) ->
  clamp_float x (S754_zero false) hi = S754_zero false.
Proof.
  intros Hx Hhi (m & e & ->).
  unfold clamp_float, clamp, std_max, std_min.
  destruct x as [[|]|s| |s a b]; cbn [nonpos] in Hx; subst; done.
Qed.

Lemma position_saturates_low f :
  fvalid f32 f = true -> fle f Mipmap.F1 = true ->
  table_position f = S754_zero false.
Proof.
  intros Hv Hle. rewrite table_position_unfold.
  change (of_Z f32 0) with (S754_zero false).
  apply clamp_nonpos.
  - by apply scaled_nonpos, below_F1_nonpos.
  - by vm_compute.
  - by vm_compute; eauto.
Qed.

Lemma clamp_above x :
  flt x (of_Z f32 1023) = false ->
  clamp_float x (of_Z f32 0) (of_Z f32 1023) = of_Z f32 1023.
Proof.
  intros Hx. unfold clamp_float, clamp, std_max, std_min. by rewrite Hx.
Qed.

(** A rounded non-negative value above a good float is not below it. *)
Lemma nearest_not_below m e y :
  0 <= m -> good32 y -> SFleb y (nearest 24 128 m e) = true ->
  SFltb (nearest 24 128 m e) y = false.
Proof.
  intros Hm Hy Hle. apply (SFleb_trans_ltb y (nearest 24 128 m e)); [done|].
  destruct (nearest_cases 24 128 prec32_pos m e Hm) as [Hg| ->]; [|done].
  by apply (good_le_refl 24 128 prec32_pos emax32_big).
Qed.

Lemma position_saturates_high f :
  fvalid f32 f = true -> fle Mipmap.FN f = true ->
  table_position f = of_Z f32 1023.
Proof.
  intros Hv Hle. rewrite table_position_unfold.
  assert (HgFN : good32 Mipmap.FN) by (by vm_compute).
  assert (HgF1 : good32 Mipmap.F1) by (by vm_compute).
  assert (Hgs : good32 position_scale) by (by vm_compute).
  assert (Hg1023 : good32 (of_Z f32 1023)) by (by vm_compute).
  assert (H1N : ival32 Mipmap.F1 <= ival32 Mipmap.FN) by (by vm_compute).
  destruct f as [s|s| |s m e].
  { by destruct s; vm_compute in Hle. }
  { destruct s; [by vm_compute in Hle|by vm_compute]. }
  { by vm_compute in Hle. }
  destruct s; [by vm_compute in Hle|].
  assert (Hg : good32 (S754_finite false m e)) by done.
  set (f := S754_finite false m e) in *.
  apply (good_le_iff 24 128 prec32_pos emax32_big) in Hle; [|done|done].
  pose proof (ival_nonneg 24 128 emax32_big Mipmap.F1) as Hn1.
  apply clamp_above. unfold flt, fmul, fsub.
  change (fprec f32) with 24. change (femax f32) with 128.
  rewrite (good_sub 24 128 prec32_pos emax32_big f Mipmap.F1) by (done || lia).
  assert (Hx0 : SFleb (fsub f32 Mipmap.FN Mipmap.F1)
                  (nearest 24 128 (ival32 f - ival32 Mipmap.F1) (emin 24 128))
                = true).
  { unfold fsub. change (fprec f32) with 24. change (femax f32) with 128.
    rewrite (good_sub 24 128 prec32_pos emax32_big Mipmap.FN Mipmap.F1)
      by done.
    apply (nearest_le 24 128 prec32_pos emax32_big). lia. }
  assert (Hgx0 : good32 (fsub f32 Mipmap.FN Mipmap.F1)) by (by vm_compute).
  destruct (nearest_cases 24 128 prec32_pos (ival32 f - ival32 Mipmap.F1)
              (emin 24 128) ltac:(lia)) as [Hgx|Hinf]; [|by rewrite Hinf].
  revert Hx0 Hgx.
  generalize (nearest 24 128 (ival32 f - ival32 Mipmap.F1) (emin 24 128)).
  intros x Hx0 Hgx.
  pose proof (good_mul_mono 24 128 prec32_pos emax32_big _ _ _ _
                Hgx0 Hgx Hgs Hgs Hx0
                (good_le_refl 24 128 prec32_pos emax32_big _ Hgs)) as Hmono.
  rewrite (good_mul 24 128 prec32_pos emax32_big x position_scale) in *
    by done.
  apply nearest_not_below; [|done|].
  - pose proof (ival_nonneg 24 128 emax32_big x).
    pose proof (ival_nonneg 24 128 emax32_big position_scale). nia.
  - pose proof (nearest_cases 24 128 prec32_pos
                  (ival32 x * ival32 position_scale) (2 * emin 24 128)) as Hc.
    revert Hmono Hc.
    generalize (nearest 24 128 (ival32 x * ival32 position_scale)
                  (2 * emin 24 128)).
    intros p Hmono Hc.
    assert (Htop : SFleb (of_Z f32 1023)
                     (SFmul 24 128 (fsub f32 Mipmap.FN Mipmap.F1) position_scale)
                   = true) by (by vm_compute).
    assert (Hgtop : good32 (SFmul 24 128 (fsub f32 Mipmap.FN Mipmap.F1)
                              position_scale)) by (by vm_compute).
    destruct Hc as [Hgp|Hinf].
    + pose proof (ival_nonneg 24 128 emax32_big x).
      pose proof (ival_nonneg 24 128 emax32_big position_scale). nia.
    + by apply (good_le_trans 24 128 prec32_pos emax32_big _ _ _
                  Hg1023 Hgtop Hgp).
    + by rewrite Hinf.
Qed.

(** The interpolation at the two ends of the table. *)
Lemma index_at_last_position f :
  table_position f = of_Z f32 1023 ->
  Mipmap.getIndexForFrequency logf f = Some (of_Z f32 (Mipmap.N - 1)).
Proof.
  intros Hpos. rewrite getIndexForFrequency_unfold, Hpos.
  replace (to_int (of_Z f32 1023)) with (Some 1023) by (by vm_compute).
  cbn [mbind option_bind].
  change (std_min Z.ltb (1023 + 1) 1023) with 1023.
  rewrite at_index_FrequencyToIndex_last. by vm_compute.
Qed.

Lemma index_at_first_position f :
  logf (of_Z f32 1) = S754_zero false ->
  flt (of_Z f32 0) (Mipmap.LogB logf) = true ->
  table_position f = S754_zero false ->
  Mipmap.getIndexForFrequency logf f = Some (of_Z f32 0).
Proof.
  intros Hlog1 HlogB Hpos. rewrite getIndexForFrequency_unfold, Hpos.
  change (to_int (S754_zero false)) with (Some 0). cbn [mbind option_bind].
  change (std_min Z.ltb (0 + 1) 1023) with 1.
  rewrite !at_index_FrequencyToIndex_entry by lia.
  unfold interpolate.
  replace (fsub f32 (S754_zero false) (of_Z f32 0)) with (S754_zero false)
    by (by vm_compute).
  unfold Mipmap.FrequencyToIndex_entry at 2. rewrite zero_times_index.
  unfold Mipmap.FrequencyToIndex_entry.
  match goal with
  | |- context [Mipmap.getExactIndexForFrequency logf ?x] =>
      replace x with Mipmap.F1 by (by vm_compute)
  end.
  unfold Mipmap.getExactIndexForFrequency.
  replace (flt Mipmap.F1 Mipmap.F1) with false by (by vm_compute).
  replace (fmul f32 Mipmap.K Mipmap.F1) with (of_Z f32 1) by (by vm_compute).
  rewrite Hlog1.
  destruct (Mipmap.LogB logf) as [s|s| |s m e]; try discriminate;
    destruct s; try discriminate; by vm_compute.
Qed.
End Saturation.

(** X1: a frequency at or above [FN] (infinity included) and a NaN both
    select the last table: [getIndexForFrequency] returns exactly
    [N - 1], whatever libm computes. *)
Theorem getIndexForFrequency_saturates_high logf f :
  f = S754_nan \/ (fvalid binary32 f = true /\ fle Mipmap.FN f = true) ->
  Mipmap.getIndexForFrequency logf f = Some (of_Z binary32 (Mipmap.N - 1)).
Proof.
  intros [->|[Hv Hle]]; apply index_at_last_position;
    [by vm_compute|by apply position_saturates_high].
Qed.

(** X2: with a libm for which [logf(1) = +0] and [LogB > 0], every
    frequency at or below [F1] (zero, negative values and minus infinity
    included) gets index exactly [0]. *)
Theorem getIndexForFrequency_saturates_low logf f :
  logf (of_Z binary32 1) = S754_zero false ->
  flt (of_Z binary32 0) (Mipmap.LogB logf) = true ->
  fvalid binary32 f = true -> fle f Mipmap.F1 = true ->
  Mipmap.getIndexForFrequency logf f = Some (of_Z binary32 0).
Proof.
  intros Hlog1 HlogB Hv Hle. apply index_at_first_position; [done|done|].
  by apply position_saturates_low.
Qed.

(** *** Lookups by frequency *)

(** Truncation of an index of [[0, N - 1]]. *)
Lemma index_truncation x :
  good 24 128 x -> fle x (of_Z binary32 23) = true ->
  exists t, 0 <= t <= 23 /\ trunc_Z x = Some t.
Proof.
  intros Hg Hle.
  destruct (of_Z_exact 23 ltac:(lia)) as [Hg23 Hv23].
  apply (good_le_iff 24 128 prec32_pos emax32_big) in Hle; [|done|done].
  rewrite Hv23 in Hle.
  pose proof (ival_nonneg 24 128 emax32_big x) as Hnn.
  assert (Hs : 0 < 2 ^ 149) by done.
  exists (ival 24 128 x / 2 ^ 149). split; [|by apply trunc_good].
  split; [by apply Z.div_pos|]. apply Z.div_le_upper_bound; lia.
Qed.

Section FrequencyLookups.
Variable logf expf : spec_float -> spec_float.
Hypothesis logf_accurate : forall x, within_ulp (logf x) (RefLibm.ref_logf x).

Lemma band_of_frequency f :
  exists x t, Mipmap.getIndexForFrequency logf f = Some x /\
              trunc_Z x = Some t /\ 0 <= t <= 23.
Proof.
  destruct (getIndexForFrequency_good logf logf_accurate f)
    as (x & Hx & Hg & _ & Hle).
  destruct (index_truncation x Hg Hle) as (t & Ht & Htr).
  by exists x, t.
Qed.

Lemma getRangeForFrequency_band f :
  exists t, 0 <= t <= 23 /\
    Mipmap.getRangeForFrequency logf expf f
    = Some (Mipmap.getRangeForIndex logf expf t).
Proof.
  destruct (band_of_frequency f) as (x & t & Hx & Htr & Ht).
  exists t. split; [done|].
  unfold Mipmap.getRangeForFrequency. rewrite Hx. cbn [mbind option_bind].
  unfold to_int. rewrite Htr. cbn [mbind option_bind].
  rewrite decide_True; [done|]. unfold int_min, int_max. lia.
Qed.

Lemma getTableForFrequency_band wm f :
  exists t, 0 <= t <= 23 /\
    Wavetable.getTableForFrequency logf wm f = Some (Wavetable.getTable wm t).
Proof.
  destruct (band_of_frequency f) as (x & t & Hx & Htr & Ht).
  exists t. split; [done|].
  unfold Wavetable.getTableForFrequency. rewrite Hx. cbn [mbind option_bind].
  unfold to_unsigned. rewrite Htr. cbn [mbind option_bind].
  rewrite decide_True; [done|]. lia.
Qed.
End FrequencyLookups.

(** X3: with a libm accurate to one unit in the last place,
    [getRangeForFrequency] is defined for every float and returns the
    range of one of the [N] bands, whose start is not above its end. *)
Theorem getRangeForFrequency_total logf expf :
  (forall x, within_ulp (logf x) (RefLibm.ref_logf x)) ->
  (forall x, within_ulp (expf x) (RefLibm.ref_expf x)) ->
  forall f, exists t,
    0 <= t <= Mipmap.N - 1 /\
    Mipmap.getRangeForFrequency logf expf f
    = Some (Mipmap.getRangeForIndex logf expf t) /\
    fle (minFrequency (Mipmap.getRangeForIndex logf expf t))
        (maxFrequency (Mipmap.getRangeForIndex logf expf t)) = true.
Proof.
  intros Hl He f.
  destruct (getRangeForFrequency_band logf expf Hl f) as (t & Ht & Hrange).
  exists t. change (Mipmap.N - 1) with 23. split; [done|]. split; [done|].
  rewrite getRangeForIndex_in_range by done. cbn [minFrequency maxFrequency].
  apply boundaries_monotone; (done || lia).
Qed.

Lemma SFleb_refl x : x <> S754_nan -> SFleb x x = true.
Proof.
  intros Hx. unfold SFleb.
  destruct x as [[|]|[|]| |s m e]; [done|done|done|done|by destruct Hx|].
  cbn [SFcompare].
  destruct s; rewrite Z.compare_refl;
    change (Pos.compare_cont Eq m m) with (Pos.compare m m);
    by rewrite Pos.compare_refl.
Qed.

(** X5: [clamp] keeps its result between the bounds.  For integers with
    [lo <= hi] the result lies in [[lo, hi]] and is [x] when [x] does; for
    floats with [lo < hi] the result lies in [[lo, hi]] for every input,
    and a NaN input gives [hi]. *)
Theorem clamp_in_range :
  (forall x lo hi : Z, lo <= hi ->
     lo <= clamp_int x lo hi <= hi /\
     (lo <= x <= hi -> clamp_int x lo hi = x)) /\
  (forall t lo hi, flt lo hi = true ->
     fle lo (clamp_float t lo hi) = true /\
     fle (clamp_float t lo hi) hi = true /\
     clamp_float S754_nan lo hi = hi).
Proof.
  split.
  - intros x lo hi Hle. rewrite clamp_int_spec by done. lia.
  - intros t lo hi Hlt.
    assert (Hlo : lo <> S754_nan) by (by intros ->).
    assert (Hhi : hi <> S754_nan) by (by intros ->; destruct lo as [[|]|[|]| |[|] m e]).
    split; [|split].
    + destruct (clamp_float_cases t lo hi) as [->|[[-> _]|(-> & _ & H2)]];
        [by apply SFleb_refl|by apply SFltb_SFleb|by apply SFltb_SFleb].
    + destruct (clamp_float_cases t lo hi) as [->|[[-> _]|(-> & H1 & _)]];
        [by apply SFltb_SFleb|by apply SFleb_refl|by apply SFltb_SFleb].
    + unfold clamp_float, clamp, std_max, std_min.
      change (flt S754_nan hi) with false. cbn iota. by rewrite Hlt.
Qed.

(** ** Further properties of the storage *)

(** *** Shape of a created multisample *)

Lemma getTable_length wm m :
  no_wrap (_tableSize wm) ->
  Z.of_nat (length (_multiData wm)) = 24 * (Z.of_nat (_tableSize wm) + 8) ->
  0 <= m < 24 ->
  length (Wavetable.getTable wm m) = _tableSize wm.
Proof.
  intros Hnw Hlen Hm. unfold Wavetable.getTable.
  rewrite getTablePointer_no_wrap by done.
  rewrite length_take, length_drop. nia.
Qed.

Section Shape.
Variable logf expf : spec_float -> spec_float.
Variable polar : spec_float -> spec_float -> cpx.
Variable cmul cmul_assign : cpx -> cpx -> cpx.
Variable kiss_fftr_alloc : nat -> bool -> bool.
Variable kiss_fftr : nat -> list spec_float -> nat -> cpx.
Variable kiss_fftri : nat -> list cpx -> nat -> spec_float.

#[local] Abbreviation createForHarmonicProfile :=
  (Wavetable.createForHarmonicProfile logf expf polar cmul kiss_fftr_alloc kiss_fftri).
#[local] Abbreviation createFromAudioData :=
  (Wavetable.createFromAudioData logf expf polar cmul cmul_assign
     kiss_fftr_alloc kiss_fftr kiss_fftri).

Definition well_shaped (tableSize : nat) (wm : WavetableMulti) : Prop :=
  _tableSize wm = tableSize /\
  (Z.of_nat tableSize + 8) * 24 < 2 ^ 32 /\
  Z.of_nat (length (_multiData wm)) = 24 * (Z.of_nat tableSize + 8) /\
  forall m, 0 <= m < 24 ->
    Wavetable.getTablePointer wm m = m * (Z.of_nat tableSize + 8) + 4 /\
    length (Wavetable.getTable wm m) = tableSize.

Lemma createForHarmonicProfile_shape {P} `{HarmonicProfile P} (hp : P)
    amplitude tableSize refSampleRate wm :
  createForHarmonicProfile hp amplitude tableSize refSampleRate = Some wm ->
  well_shaped tableSize wm.
Proof.
  intros Hrun.
  apply createForHarmonicProfile_inv in Hrun as (wm1 & _ & Hfill & [Hts Hlen] & Hnw).
  destruct (fillExtra_inv wm1 wm Hfill) as [Hts' _].
  pose proof (fillExtra_length wm1 wm Hfill) as Hlen'.
  rewrite storage_size_no_wrap in Hlen by done.
  assert (Htsw : _tableSize wm = tableSize) by congruence.
  split; [done|]. split; [done|]. split; [lia|].
  intros m Hm. split.
  - rewrite getTablePointer_no_wrap by (by rewrite ?Htsw). by rewrite Htsw.
  - rewrite <- Htsw. apply getTable_length; rewrite ?Htsw; (done || lia).
Qed.

Lemma createFromAudioData_shape audioData amplitude tableSize refSampleRate wm :
  createFromAudioData audioData amplitude tableSize refSampleRate = Some wm ->
  well_shaped tableSize wm.
Proof.
  unfold Wavetable.createFromAudioData.
  destruct (kiss_fftr_alloc _ false); [|done].
  intros (spec & _ & Hrun)%bind_Some.
  by eapply createForHarmonicProfile_shape.
Qed.
End Shape.

(** X6: a multisample returned by either constructor holds [tableSize],
    its buffer has [24 * (tableSize + 8)] samples, a size that fits 32
    bits, and table [m] starts at offset [m * (tableSize + 8) + 4] and has
    [tableSize] samples. *)
Theorem created_multisample_shape logf expf polar cmul cmul_assign
    kiss_fftr_alloc kiss_fftr kiss_fftri :
  (forall (P : Type) (H : HarmonicProfile P) (hp : P)
          amplitude tableSize refSampleRate wm,
     Wavetable.createForHarmonicProfile logf expf polar cmul kiss_fftr_alloc
       kiss_fftri hp amplitude tableSize refSampleRate = Some wm ->
     well_shaped tableSize wm) /\
  (forall audioData amplitude tableSize refSampleRate wm,
     Wavetable.createFromAudioData logf expf polar cmul cmul_assign
       kiss_fftr_alloc kiss_fftr kiss_fftri
       audioData amplitude tableSize refSampleRate = Some wm ->
     well_shaped tableSize wm).
Proof.
  split.
  - intros P H hp amplitude tableSize refSampleRate wm Hrun.
    by eapply createForHarmonicProfile_shape.
  - intros audioData amplitude tableSize refSampleRate wm Hrun.
    by eapply createFromAudioData_shape.
Qed.

(** X4: on a multisample built by [createForHarmonicProfile],
    [getTableForFrequency] returns, for every float, one of the [N]
    tables, of [tableSize] samples. *)
Theorem getTableForFrequency_total logf expf polar cmul kiss_fftr_alloc kiss_fftri
    {P} `{HarmonicProfile P} (hp : P) amplitude tableSize refSampleRate wm :
  (forall x, within_ulp (logf x) (RefLibm.ref_logf x)) ->
  Wavetable.createForHarmonicProfile logf expf polar cmul kiss_fftr_alloc
    kiss_fftri hp amplitude tableSize refSampleRate = Some wm ->
  forall f, exists t,
    0 <= t < Wavetable.numTables /\
    Wavetable.getTableForFrequency logf wm f = Some (Wavetable.getTable wm t) /\
    length (Wavetable.getTable wm t) = tableSize.
Proof.
  intros Hl Hrun f.
  destruct (getTableForFrequency_band logf Hl wm f) as (t & Ht & Htable).
  exists t. change Wavetable.numTables with 24. split; [lia|]. split; [done|].
  destruct (createForHarmonicProfile_shape _ _ _ _ _ _ _ _ _ _ _ Hrun)
    as (_ & _ & _ & Hrows).
  apply Hrows. lia.
Qed.

(** *** [fillExtra] runs whenever the rows fit, and changes guards only *)

Lemma store_in_range data p v :
  0 <= p < Z.of_nat (length data) -> exists data', store data p v = Some data'.
Proof. intros Hp. unfold store. rewrite decide_True by done. eauto. Qed.

Lemma store_same data p v :
  load data p = Some v -> store data p v = Some data.
Proof.
  intros Hv. pose proof (load_Some _ _ _ Hv) as Hp.
  unfold store. rewrite decide_True by done. f_equal.
  apply list_insert_id. unfold load in Hv. by rewrite decide_True in Hv by lia.
Qed.

Lemma load_ext d d' :
  length d = length d' -> (forall p, load d p = load d' p) -> d = d'.
Proof.
  intros Hlen Hload. apply list_eq. intros i.
  specialize (Hload (Z.of_nat i)). unfold load in Hload.
  rewrite !decide_True, Nat2Z.id in Hload by lia. done.
Qed.

Lemma fillExtra_table_progress tableSize beg data :
  0 <= beg - 4 -> beg + Z.of_nat tableSize + 4 <= Z.of_nat (length data) ->
  exists data', Wavetable.fillExtra_table tableSize beg data = Some data'.
Proof.
  intros Hlo Hhi. unfold Wavetable.fillExtra_table.
  set (end_ := beg + Z.of_nat tableSize).
  change (Z.to_nat Wavetable._tableExtra) with 4%nat.
  assert (Hright0 : right_inv tableSize beg data 0 (beg, end_, data)).
  { unfold right_inv. rewrite Zmod_0_l, Z.add_0_r.
    repeat split; try done; try lia. }
  destruct (for_range_progress (fun _ => Wavetable.fill_right_step beg end_)
              (right_inv tableSize beg data) 4 0 (beg, end_, data) Hright0)
    as [[[src1 dst1] data1] Hrun1].
  { intros i [[src dst] d] Hi Hinv.
    pose proof Hinv as (_ & Hsrc & Hdst & Hlen & _).
    destruct (load_in_bounds d src) as [v Hv].
    { destruct (cyclic_position (Z.of_nat tableSize) i ltac:(lia))
        as [[? ?]|[? ?]]; lia. }
    destruct (store_in_range d dst v) as [d' Hd']; [lia|].
    exists (if decide (src + 1 ≠ end_) then src + 1 else beg, dst + 1, d').
    assert (Hstep : Wavetable.fill_right_step beg end_ (src, dst, d)
                    = Some (if decide (src + 1 ≠ end_) then src + 1 else beg,
                            dst + 1, d')).
    { unfold Wavetable.fill_right_step. rewrite Hv. cbn [mbind option_bind].
      by rewrite Hd'. }
    split; [done|]. by eapply fill_right_step_inv. }
  rewrite Hrun1. cbn [mbind option_bind].
  pose proof (for_range_invariant _ (right_inv tableSize beg data) _ _ _ _
                Hright0
                (fun i t t' _ Hinv Hstep =>
                   fill_right_step_inv tableSize beg data i t t' Hinv Hstep)
                Hrun1) as (_ & _ & _ & Hlen1 & _).
  assert (Hleft0 : left_inv tableSize beg data1 0 (end_ - 1, beg - 1, data1)).
  { unfold left_inv, end_. rewrite Z.sub_0_r.
    repeat split; try done; try lia.
    destruct (decide (Z.of_nat tableSize = 0)) as [->|Hz];
      [rewrite Z.mod_0_r|rewrite Z.mod_small by lia]; lia. }
  destruct (for_range_progress (fun _ => Wavetable.fill_left_step beg end_)
              (left_inv tableSize beg data1) 4 0 (end_ - 1, beg - 1, data1)
              Hleft0)
    as [[[src2 dst2] data2] Hrun2].
  { intros i [[src dst] d] Hi Hinv.
    pose proof Hinv as (_ & Hsrc & Hdst & Hlen & _).
    destruct (load_in_bounds d src) as [v Hv].
    { destruct (cyclic_position (Z.of_nat tableSize)
                  (Z.of_nat tableSize - 1 - i) ltac:(lia))
        as [[? ?]|[? ?]]; lia. }
    destruct (store_in_range d dst v) as [d' Hd']; [lia|].
    exists (if decide (src ≠ beg) then src - 1 else end_ - 1, dst - 1, d').
    assert (Hstep : Wavetable.fill_left_step beg end_ (src, dst, d)
                    = Some (if decide (src ≠ beg) then src - 1 else end_ - 1,
                            dst - 1, d')).
    { unfold Wavetable.fill_left_step. rewrite Hv. cbn [mbind option_bind].
      by rewrite Hd'. }
    split; [done|]. by eapply fill_left_step_inv. }
  rewrite Hrun2. cbn [mbind option_bind]. eauto.
Qed.

Lemma for_range_fixpoint {S : Type} (body : Z -> S -> option S) n start s :
  (forall i, start <= i < start + Z.of_nat n -> body i s = Some s) ->
  for_range n start body s = Some s.
Proof.
  revert start. induction n as [|n IH]; intros start Hfix; [done|].
  cbn [for_range]. rewrite Hfix by lia. cbn [mbind option_bind].
  apply IH. intros i Hi. apply Hfix. lia.
Qed.

Lemma fillExtra_progress wm :
  no_wrap (_tableSize wm) ->
  Z.of_nat (length (_multiData wm)) = 24 * (Z.of_nat (_tableSize wm) + 8) ->
  exists wm', Wavetable.fillExtra wm = Some wm'.
Proof.
  intros Hnw Hlen. unfold Wavetable.fillExtra.
  destruct (for_range_progress
              (fun m data => Wavetable.fillExtra_table (_tableSize wm)
                               (Wavetable.getTablePointer wm m) data)
              (fun _ d => length d = length (_multiData wm))
              (Z.to_nat Wavetable.numTables) 0 (_multiData wm) eq_refl)
    as [data' Hrun].
  { change (Z.of_nat (Z.to_nat Wavetable.numTables)) with 24.
    intros m d Hm Hd.
    destruct (fillExtra_table_progress (_tableSize wm)
                (Wavetable.getTablePointer wm m) d) as [d' Hd'].
    - rewrite getTablePointer_no_wrap by (done || lia). nia.
    - rewrite getTablePointer_no_wrap by (done || lia). nia.
    - exists d'. split; [done|].
      destruct (fillExtra_table_spec _ _ _ _ Hd') as [Hl _]. congruence. }
  rewrite Hrun. cbn [mbind option_bind]. eauto.
Qed.

Section FillExtraTwice.
Variable wm wm' : WavetableMulti.
Hypothesis allocated :
  Z.of_nat (length (_multiData wm)) = storage_size (_tableSize wm).
Hypothesis run : Wavetable.fillExtra wm = Some wm'.

Lemma filled_no_wrap : no_wrap (_tableSize wm).
Proof. by destruct (fillExtra_wrap_padded wm wm' allocated run). Qed.

Lemma fillExtra_getTable m :
  0 <= m < 24 -> Wavetable.getTable wm' m = Wavetable.getTable wm m.
Proof.
  intros Hm. pose proof filled_no_wrap as Hnw.
  destruct (fillExtra_inv wm wm' run) as [Hts _].
  pose proof (getTablePointer_ext wm' wm m Hts) as Hptr.
  apply list_eq. intros j.
  rewrite !getTable_lookup
    by (rewrite ?Hptr, getTablePointer_no_wrap by done; lia).
  rewrite Hts, Hptr. destruct (decide (j < _tableSize wm)%nat); [|done].
  apply (fillExtra_interior wm wm' run Hnw); lia.
Qed.

(** Filling the guards of one row of an already filled buffer changes
    nothing. *)
Lemma fillExtra_table_filled m :
  0 <= m < 24 ->
  Wavetable.fillExtra_table (_tableSize wm') (Wavetable.getTablePointer wm' m)
    (_multiData wm') = Some (_multiData wm').
Proof.
  intros Hm. pose proof filled_no_wrap as Hnw.
  destruct (fillExtra_inv wm wm' run) as [Hts _].
  rewrite (getTablePointer_ext wm' wm m Hts), Hts.
  pose proof (fillExtra_length wm wm' run) as Hlen.
  pose proof (fillExtra_rows_in_bounds wm wm' run m Hm) as [Hlo Hhi].
  destruct (fillExtra_table_progress (_tableSize wm)
              (Wavetable.getTablePointer wm m) (_multiData wm'))
    as [d Hd]; [done|lia|].
  rewrite Hd. f_equal.
  destruct (fillExtra_table_spec _ _ _ _ Hd) as (Hl & _ & Hright & Hleft & Hrest).
  destruct (fillExtra_padded wm wm' run Hnw) as [Hpad _].
  specialize (Hpad m).
  pose proof (fillExtra_interior wm wm' run Hnw m) as Hint.
  assert (Hsz : 0 <= Z.of_nat (_tableSize wm)) by lia.
  revert Hlo Hhi Hl Hright Hleft Hrest Hpad Hint Hsz.
  generalize (Wavetable.getTablePointer wm m) (Z.of_nat (_tableSize wm)).
  intros beg sz Hlo Hhi Hl Hright Hleft Hrest Hpad Hint Hsz.
  apply load_ext; [done|]. intros p.
  destruct (decide (beg + sz <= p < beg + sz + 4)) as [Hr|Hnr].
  { replace p with (beg + sz + (p - beg - sz)) by lia.
    rewrite Hright by lia.
    destruct (cyclic_position sz (p - beg - sz) Hsz) as [[Hpos Hmod]|[Hz Hmod]].
    - destruct (Hpad (p - beg - sz) Hm ltac:(lia)) as [Hp _].
      rewrite Hp. apply Hint; [done|lia].
    - rewrite Hmod. f_equal. lia. }
  destruct (decide (beg - 4 <= p < beg)) as [Hl'|Hnl].
  { replace p with (beg - 1 - (beg - 1 - p)) by lia.
    rewrite Hleft by lia.
    destruct (cyclic_position sz (sz - 1 - (beg - 1 - p)) Hsz)
      as [[Hpos Hmod]|[Hz Hmod]].
    - destruct (Hpad (beg - 1 - p) Hm ltac:(lia)) as [_ Hp].
      rewrite Hp. apply Hint; [done|lia].
    - rewrite Hmod. f_equal. lia. }
  by apply Hrest.
Qed.

Lemma fillExtra_again : Wavetable.fillExtra wm' = Some wm'.
Proof.
  unfold Wavetable.fillExtra.
  rewrite for_range_fixpoint.
  - cbn [mbind option_bind]. by destruct wm'.
  - change (Z.of_nat (Z.to_nat Wavetable.numTables)) with 24.
    intros m Hm. apply fillExtra_table_filled. lia.
Qed.
End FillExtraTwice.

Lemma allocated_size wm :
  length (_multiData wm)
    = length (_multiData (Wavetable.allocateStorage (_tableSize wm))) ->
  Z.of_nat (length (_multiData wm)) = storage_size (_tableSize wm).
Proof.
  intros ->. unfold Wavetable.allocateStorage. cbn [_multiData].
  rewrite length_replicate. fold (storage_size (_tableSize wm)).
  pose proof (wrap32_bound (wrap32 (Z.of_nat (_tableSize wm)
                                    + wrap32 (2 * Wavetable._tableExtra))
                            * Wavetable.numTables)).
  unfold storage_size. lia.
Qed.

(** X8: [fillExtra] writes guard samples only: on a buffer of the size
    [allocateStorage] gives it, the table size, the buffer length and the
    samples of every table are unchanged. *)
Theorem fillExtra_preserves_tables wm wm' :
  length (_multiData wm)
    = length (_multiData (Wavetable.allocateStorage (_tableSize wm))) ->
  Wavetable.fillExtra wm = Some wm' ->
  _tableSize wm' = _tableSize wm /\
  length (_multiData wm') = length (_multiData wm) /\
  forall m, 0 <= m < Wavetable.numTables ->
    Wavetable.getTable wm' m = Wavetable.getTable wm m.
Proof.
  intros Hlen%allocated_size Hrun.
  split; [by destruct (fillExtra_inv wm wm' Hrun)|].
  split; [by apply fillExtra_length|].
  intros m Hm. by apply fillExtra_getTable.
Qed.

(** X9: [fillExtra] is idempotent: filling the guards of a filled
    multisample succeeds and changes nothing. *)
Theorem fillExtra_idempotent wm wm' :
  length (_multiData wm)
    = length (_multiData (Wavetable.allocateStorage (_tableSize wm))) ->
  Wavetable.fillExtra wm = Some wm' ->
  Wavetable.fillExtra wm' = Some wm'.
Proof. intros Hlen%allocated_size Hrun. by eapply fillExtra_again. Qed.

(** X7: [fillExtra] stays inside the buffer exactly when the size
    [allocateStorage] computed did not wrap around: on a buffer of the
    allocated size it returns for every [tableSize] with
    [(tableSize + 8) * 24 < 2 ^ 32], 0 included, and for a larger
    [tableSize] one of its reads or writes is outside the buffer. *)
Theorem fillExtra_in_bounds wm :
  length (_multiData wm)
    = length (_multiData (Wavetable.allocateStorage (_tableSize wm))) ->
  is_Some (Wavetable.fillExtra wm)
  <-> (Z.of_nat (_tableSize wm) + 8) * 24 < 2 ^ 32.
Proof.
  intros Hlen%allocated_size. split.
  - intros [wm' Hrun]. by apply (filled_no_wrap wm wm').
  - intros Hnw. apply fillExtra_progress; [done|].
    by rewrite Hlen, storage_size_no_wrap.
Qed.

(** ** Further properties of [generate] *)

(** *** The gate of [generate] as a function of the cutoff *)

(** What is not above a cutoff is not above a larger one. *)
Lemma gate_weaker c c' x :
  flt c x = false -> fle c c' = true -> flt c' x = false.
Proof.
  unfold flt, fle, SFleb, SFltb.
  destruct c as [sa|sa| |sa ma ea], c' as [sb|sb| |sb mb eb], x as [sc|sc| |sc mc ec];
    simpl; try discriminate; try reflexivity;
    try (destruct sa; try discriminate; try reflexivity);
    try (destruct sb; try discriminate; try reflexivity);
    try (destruct sc; try discriminate; try reflexivity);
    repeat match goal with
    | |- context [Z.compare ?x ?y] => destruct (Z.compare_spec x y); try lia
    end; simpl; try discriminate; try reflexivity;
    change (Pos.compare_cont Eq) with Pos.compare;
    repeat match goal with
    | |- context [Pos.compare ?x ?y] => destruct (Pos.compare_spec x y); try lia
    end; simpl; try discriminate; try reflexivity; try lia.
Qed.

Lemma for_range_ext {S : Type} (body1 body2 : Z -> S -> option S) n start s :
  (forall i t, body1 i t = body2 i t) ->
  for_range n start body1 s = for_range n start body2 s.
Proof.
  intros Hext. revert start s. induction n as [|n IH]; intros start s; [done|].
  cbn [for_range]. rewrite Hext. destruct (body2 start s); [|done].
  cbn [mbind option_bind]. apply IH.
Qed.

Section Gate.
Variable polar : spec_float -> spec_float -> cpx.
Variable cmul : cpx -> cpx -> cpx.
Context {P : Type} `{HarmonicProfile P}.
Variable hp : P.
Variable size : nat.
Variable amplitude : spec_float.

#[local] Abbreviation spectrum :=
  (Wavetable.generate_spectrum polar cmul hp size amplitude).
#[local] Abbreviation value := (Wavetable.bin_value polar cmul hp amplitude).

Lemma all_within_weaker c c' lo n :
  fle c c' = true -> all_within size c lo n = true ->
  all_within size c' lo n = true.
Proof.
  intros Hle Hall. apply all_within_spec. intros j Hj.
  apply (gate_weaker c); [|done]. by apply (all_within_spec size c lo n).
Qed.

Lemma spectrum_monotone c c' i :
  fle c c' = true ->
  spectrum c !! i = Some czero \/ spectrum c' !! i = spectrum c !! i.
Proof.
  intros Hle. destruct (decide (i = 0%nat)) as [->|Hne].
  { left. apply generate_spectrum_dc. }
  destruct (decide (i <= size / 2)%nat) as [Hi|Hi].
  - rewrite !generate_spectrum_bin by lia.
    destruct (all_within size c 1 i) eqn:Hall; [right|by left].
    by rewrite (all_within_weaker c c' 1 i Hle Hall).
  - right. rewrite !lookup_ge_None_2; [done| |];
      rewrite generate_spectrum_length; lia.
Qed.

Lemma spectrum_unbounded c i :
  c = S754_nan \/ c = S754_infinity false ->
  (1 <= i <= size / 2)%nat ->
  spectrum c !! i = Some (value i).
Proof.
  intros Hc Hi. rewrite generate_spectrum_bin by done.
  replace (all_within size c 1 i) with true; [done|].
  symmetry. apply all_within_spec. intros j _.
  destruct Hc as [-> | ->]; [done|].
  unfold flt, SFltb.
  by destruct (Wavetable.normalized_frequency size j) as [[|]|[|]| |[|] m e].
Qed.

Lemma spectrum_silent c :
  flt c (Wavetable.normalized_frequency size 1) = true ->
  spectrum c = replicate (size / 2 + 1) czero.
Proof.
  intros Hc. unfold Wavetable.generate_spectrum.
  replace (size / 2 + 1)%nat with (S (size / 2)) at 1 by lia.
  rewrite fill_bins_S, Hc. by destruct (decide (1 < size / 2 + 1)%nat).
Qed.
End Gate.

Section ProfileDC.
Variable logf expf : spec_float -> spec_float.
Variable polar : spec_float -> spec_float -> cpx.
Variable cmul : cpx -> cpx -> cpx.
Variable kiss_fftr_alloc : nat -> bool -> bool.
Variable kiss_fftri : nat -> list cpx -> nat -> spec_float.
Context {P1 P2 : Type} {H1 : HarmonicProfile P1} {H2 : HarmonicProfile P2}.
Variable hp1 : P1.
Variable hp2 : P2.
Hypothesis agree : forall i, (1 <= i)%nat -> getHarmonic hp1 i = getHarmonic hp2 i.

Lemma generate_agree size amplitude cutoff :
  Wavetable.generate polar cmul kiss_fftr_alloc kiss_fftri hp1 size amplitude cutoff
  = Wavetable.generate polar cmul kiss_fftr_alloc kiss_fftri hp2 size amplitude cutoff.
Proof.
  unfold Wavetable.generate, Wavetable.generate_spectrum.
  by rewrite (fill_bins_agree polar cmul hp1 hp2 agree).
Qed.

Lemma createForHarmonicProfile_agree amplitude tableSize refSampleRate :
  Wavetable.createForHarmonicProfile logf expf polar cmul kiss_fftr_alloc kiss_fftri
    hp1 amplitude tableSize refSampleRate
  = Wavetable.createForHarmonicProfile logf expf polar cmul kiss_fftr_alloc kiss_fftri
      hp2 amplitude tableSize refSampleRate.
Proof.
  unfold Wavetable.createForHarmonicProfile.
  rewrite (for_range_ext _
             (Wavetable.create_table logf expf polar cmul kiss_fftr_alloc
                kiss_fftri hp2 amplitude tableSize refSampleRate)); [done|].
  intros m wm. unfold Wavetable.create_table. by rewrite generate_agree.
Qed.
End ProfileDC.

(** X10: raising the cutoff only adds harmonics: when [c <= c'], every
    bin of the spectrum for [c] is zero or equals the same bin of the
    spectrum for [c']. *)
Theorem generate_cutoff_monotone polar cmul {P} `{HarmonicProfile P} (hp : P)
    size amplitude c c' i :
  fle c c' = true ->
  Wavetable.generate_spectrum polar cmul hp size amplitude c !! i = Some czero \/
  Wavetable.generate_spectrum polar cmul hp size amplitude c' !! i
  = Wavetable.generate_spectrum polar cmul hp size amplitude c !! i.
Proof. apply spectrum_monotone. Qed.

(** X11: the two ends of the gate.  A cutoff that is NaN or plus
    infinity stops nothing: every bin from 1 to [size / 2] holds its
    harmonic.  A cutoff below the normalised frequency of the fundamental
    stops everything: the spectrum is all zero. *)
Theorem generate_gate_extremes polar cmul {P} `{HarmonicProfile P} (hp : P)
    size amplitude cutoff :
  (cutoff = S754_nan \/ cutoff = S754_infinity false ->
   forall i, (1 <= i <= size / 2)%nat ->
     Wavetable.generate_spectrum polar cmul hp size amplitude cutoff !! i
     = Some (Wavetable.bin_value polar cmul hp amplitude i)) /\
  (flt cutoff (Wavetable.normalized_frequency size 1) = true ->
   Wavetable.generate_spectrum polar cmul hp size amplitude cutoff
   = replicate (size / 2 + 1) czero).
Proof.
  split.
  - intros Hc i Hi. by apply spectrum_unbounded.
  - apply spectrum_silent.
Qed.

(** X12: the DC coefficient of a profile does not reach the multisample:
    two profiles that agree on every index from 1 on give the same result
    of [createForHarmonicProfile]. *)
Theorem createForHarmonicProfile_independent_of_dc logf expf polar cmul
    kiss_fftr_alloc kiss_fftri {P1 P2} `{HarmonicProfile P1} `{HarmonicProfile P2}
    (hp1 : P1) (hp2 : P2) amplitude tableSize refSampleRate :
  (forall i, (1 <= i)%nat -> getHarmonic hp1 i = getHarmonic hp2 i) ->
  Wavetable.createForHarmonicProfile logf expf polar cmul kiss_fftr_alloc kiss_fftri
    hp1 amplitude tableSize refSampleRate
  = Wavetable.createForHarmonicProfile logf expf polar cmul kiss_fftr_alloc
      kiss_fftri hp2 amplitude tableSize refSampleRate.
Proof. intros Hagree. by apply createForHarmonicProfile_agree. Qed.

(** ** Widening and narrowing *)

(** Rounding does nothing to a value that fits. *)
Lemma round_dyadic_exact prec emax m e :
  0 < m -> fexp prec emax (Zdigits2 m + e) <= e ->
  let e0 := fexp prec emax (Zdigits2 m + e) in
  round_dyadic prec emax m e = (m * 2 ^ (e - e0), e0).
Proof.
  intros Hm He e0. unfold round_dyadic. fold e0.
  rewrite Z.min_r by done. unfold round_pos.
  rewrite Zdigits2_mul_pow2 by (done || lia).
  replace (Zdigits2 m + (e - e0) + e0) with (Zdigits2 m + e) by lia.
  fold e0. rewrite Z.sub_diag. change (Z.to_nat 0) with 0%nat.
  unfold Nat.iter. cbn [nat_rect]. by rewrite rounded_exact.
Qed.

(** Two representations of one value have the same rounding. *)
Lemma round_dyadic_ext prec emax m1 e1 m2 e2 :
  0 < prec -> 0 < m1 -> 0 < m2 -> dle m1 e1 m2 e2 -> dle m2 e2 m1 e1 ->
  round_dyadic prec emax m1 e1 = round_dyadic prec emax m2 e2.
Proof.
  intros Hp Hm1 Hm2 H12 H21.
  pose proof (round_dyadic_mono prec emax Hp m1 e1 m2 e2 Hm1 Hm2 H12) as Ha.
  pose proof (round_dyadic_mono prec emax Hp m2 e2 m1 e1 Hm2 Hm1 H21) as Hb.
  unfold rounds_below in Ha, Hb.
  destruct (round_dyadic prec emax m1 e1) as [a1 b1].
  destruct (round_dyadic prec emax m2 e2) as [a2 b2].
  cbn [fst snd] in *. f_equal; lia.
Qed.

Lemma prec64_pos : 0 < 53.
Proof. done. Qed.

(** A binary32 value widened to binary64 and narrowed again is
    unchanged. *)
Lemma widen_narrow x :
  fvalid binary32 x = true -> convert binary32 (convert binary64 x) = x.
Proof.
  intros Hv. destruct x as [s|s| |s m e]; try done.
  unfold fvalid in Hv. change (fprec binary32) with 24 in Hv.
  change (femax binary32) with 128 in Hv.
  destruct (valid_canonical 24 128 prec32_pos s m e Hv)
    as (_ & Heh & Hm & Hel & _).
  change (emin 24 128) with (-149) in Hel.
  cbn [convert]. change (fprec binary64) with 53. change (femax binary64) with 1024.
  rewrite (binary_round_spec 53 1024 prec64_pos).
  pose proof (Zdigits2_bounds (Z.pos m) ltac:(lia)) as Hd.
  assert (Hd24 : Zdigits2 (Z.pos m) <= 24).
  { destruct (Z.le_gt_cases (Zdigits2 (Z.pos m)) 24) as [|Hgt]; [done|].
    assert (2 ^ 24 <= 2 ^ (Zdigits2 (Z.pos m) - 1))
      by (apply Z.pow_le_mono_r; lia).
    lia. }
  assert (Hd1 : 1 <= Zdigits2 (Z.pos m)) by (simpl; lia).
  assert (He0 : fexp 53 1024 (Zdigits2 (Z.pos m) + e) <= e).
  { rewrite fexp_spec. change (emin 53 1024) with (-1074). lia. }
  rewrite (round_dyadic_exact 53 1024 (Z.pos m) e ltac:(lia) He0).
  cbn [fst snd].
  set (e0 := fexp 53 1024 (Zdigits2 (Z.pos m) + e)) in *.
  assert (He0l : Zdigits2 (Z.pos m) + e - 53 <= e0).
  { unfold e0. rewrite fexp_spec. lia. }
  assert (Hpow : 0 < 2 ^ (e - e0)) by (apply Z.pow_pos_nonneg; lia).
  assert (Hwide : Z.pos m * 2 ^ (e - e0) < 2 ^ 53).
  { pose proof (Zdigits2_bounds (Z.pos m * 2 ^ (e - e0)) ltac:(nia)) as Hb.
    rewrite Zdigits2_mul_pow2 in Hb by lia.
    assert (2 ^ (Zdigits2 (Z.pos m) + (e - e0)) <= 2 ^ 53)
      by (apply Z.pow_le_mono_r; lia).
    lia. }
  unfold finish.
  destruct (Z.eqb_spec (Z.pos m * 2 ^ (e - e0)) 0) as [Hz|_]; [nia|].
  destruct (Z.ltb_spec (Z.pos m * 2 ^ (e - e0)) (2 ^ 53)) as [_|Hge]; [|lia].
  destruct (Z.leb_spec e0 (1024 - 53)) as [_|Hgt]; [|lia].
  cbn [convert]. change (fprec binary32) with 24. change (femax binary32) with 128.
  rewrite (binary_round_spec 24 128 prec32_pos).
  rewrite Z2Pos.id by nia.
  rewrite (round_dyadic_ext 24 128 _ _ (Z.pos m) e prec32_pos);
    [|nia|lia| |].
  - destruct (valid_round_id 24 128 prec32_pos s m e Hv) as [-> Hf]. exact Hf.
  - apply (dle_iff _ _ _ _ e0); [lia|lia|]. rewrite Z.sub_diag. lia.
  - apply (dle_iff _ _ _ _ e0); [lia|lia|]. rewrite Z.sub_diag. lia.
Qed.

(** X13: a tabulated profile returns its coefficients without loss:
    narrowing [getHarmonic(index)] back to [complex<float>] gives the
    stored coefficient. *)
Theorem getHarmonic_lossless (harmonics : list cpx) (index : nat) (h : cpx) :
  harmonics !! index = Some h ->
  fvalid binary32 (fst h) = true -> fvalid binary32 (snd h) = true ->
  cpx_convert binary32 (getHarmonic {| _harmonics := harmonics |} index) = h.
Proof.
  intros Hh Hre Him. unfold getHarmonic, Tabulated_profile.
  cbn [_harmonics]. rewrite Hh. unfold cpx_convert. cbn [fst snd].
  rewrite !widen_narrow by done. by destruct h.
Qed.

(** ** [main.cpp]: reading the wave file and writing the tables *)

Lemma land_1_even z : Z.land z 1 = 0 <-> Z.even z = true.
Proof.
  change 1 with (Z.ones 1). rewrite Z.land_ones by lia.
  change (2 ^ 1) with 2. rewrite Zeven_mod.
  split; [by intros ->|]. by intros ->%Z.eqb_eq.
Qed.

Section ReadFileProps.
Variable drwav_init_file : String.string -> option Main.drwav.
Variable drwav_read_pcm_frames_f32 : Main.drwav -> Z -> Z * list spec_float.

#[local] Abbreviation read_file_waveform :=
  (Main.read_file_waveform drwav_init_file drwav_read_pcm_frames_f32).

(** The files [read_file_waveform] accepts. *)
Definition acceptable (wav : Main.drwav) (frames : list spec_float) : Prop :=
  Main.channels wav = 1 /\
  4 <= Main.totalPCMFrameCount wav <= 65536 /\
  Z.even (Main.totalPCMFrameCount wav) = true /\
  drwav_read_pcm_frames_f32 wav (Main.totalPCMFrameCount wav)
  = (Main.totalPCMFrameCount wav, frames).

Lemma read_file_waveform_accepted path wave wav frames :
  drwav_init_file path = Some wav -> acceptable wav frames ->
  read_file_waveform path wave
  = (0, {| Main.data := Some frames; Main.size := Main.totalPCMFrameCount wav |}, []).
Proof.
  intros Hinit (Hch & Hcount & Heven & Hread).
  unfold Main.read_file_waveform. rewrite Hinit.
  rewrite decide_False by lia. rewrite decide_False by lia.
  rewrite decide_False by lia.
  rewrite decide_False by (intros Hodd; by apply Hodd, land_1_even).
  rewrite wrap32_small by lia. rewrite Hread.
  by rewrite decide_False by lia.
Qed.

Lemma read_file_waveform_result path wave code wave' msgs :
  read_file_waveform path wave = (code, wave', msgs) ->
  (code = 0 /\ msgs = [] /\
   exists wav frames,
     drwav_init_file path = Some wav /\ acceptable wav frames /\
     wave' = {| Main.data := Some frames;
                Main.size := Main.totalPCMFrameCount wav |}) \/
  (code = 1 /\ length msgs = 1%nat).
Proof.
  unfold Main.read_file_waveform.
  destruct (drwav_init_file path) as [wav|] eqn:Hinit;
    [|intros [= <- <- <-]; by right].
  destruct (decide (Main.channels wav ≠ 1)) as [|Hch];
    [intros [= <- <- <-]; by right|].
  destruct (decide (Main.totalPCMFrameCount wav > 65536)) as [|Hhi];
    [intros [= <- <- <-]; by right|].
  destruct (decide (Main.totalPCMFrameCount wav < 4)) as [|Hlo];
    [intros [= <- <- <-]; by right|].
  destruct (decide (Z.land (Main.totalPCMFrameCount wav) 1 ≠ 0)) as [|Heven];
    [intros [= <- <- <-]; by right|].
  rewrite wrap32_small by lia.
  destruct (drwav_read_pcm_frames_f32 wav (Main.totalPCMFrameCount wav))
    as [n frames] eqn:Hread.
  destruct (decide (n ≠ Main.totalPCMFrameCount wav)) as [|Hn];
    intros [= <- <- <-]; [by right|left].
  split; [done|]. split; [done|]. exists wav, frames.
  split; [done|]. split; [|done].
  assert (n = Main.totalPCMFrameCount wav) as -> by lia.
  repeat split; try lia; try done.
  apply land_1_even. lia.
Qed.
End ReadFileProps.

(** X15: [read_file_waveform] returns 0 exactly for a file that opens,
    has one channel and an even number of frames from 4 to 65536, all of
    which are read; [wave] then holds the frames and their number (the
    cast to 32 bits loses nothing) and nothing is printed.  Every other
    outcome returns 1 and prints one line. *)
Theorem read_file_waveform_accepts drwav_init_file drwav_read_pcm_frames_f32
    path wave :
  (forall wav frames,
     drwav_init_file path = Some wav ->
     acceptable drwav_read_pcm_frames_f32 wav frames ->
     Main.read_file_waveform drwav_init_file drwav_read_pcm_frames_f32 path wave
     = (0, {| Main.data := Some frames;
              Main.size := Main.totalPCMFrameCount wav |}, [])) /\
  (forall code wave' msgs,
     Main.read_file_waveform drwav_init_file drwav_read_pcm_frames_f32 path wave
     = (code, wave', msgs) ->
     (code = 0 /\ msgs = [] /\
      exists wav frames,
        drwav_init_file path = Some wav /\
        acceptable drwav_read_pcm_frames_f32 wav frames /\
        wave' = {| Main.data := Some frames;
                   Main.size := Main.totalPCMFrameCount wav |}) \/
     (code = 1 /\ length msgs = 1%nat)).
Proof.
  split.
  - intros wav frames. apply read_file_waveform_accepted.
  - intros code wave' msgs. apply read_file_waveform_result.
Qed.

(** *** [write_mipmap] prints the tables, and only them *)

(** The values printed with the format of the samples. *)
Definition printed_samples (out : list Main.fprintf_call) : list spec_float :=
  flat_map (fun c => match c with
                     | Main.fprintf _ [Main.arg_string _; Main.arg_double x] => [x]
                     | _ => []
                     end) out.

Lemma printed_samples_app out1 out2 :
  printed_samples (out1 ++ out2) = printed_samples out1 ++ printed_samples out2.
Proof. apply flat_map_app. Qed.

Lemma write_samples_loop table n start out :
  0 <= start -> (Z.to_nat start + n <= length table)%nat ->
  exists out',
    for_range n start (Main.write_sample table) out = Some out' /\
    printed_samples out'
    = printed_samples out
      ++ map (convert binary64) (take n (drop (Z.to_nat start) table)).
Proof.
  revert start out. induction n as [|n IH]; intros start out Hs Hn.
  { exists out. split; [done|]. by rewrite take_0, app_nil_r. }
  destruct (lookup_lt_is_Some_2 table (Z.to_nat start) ltac:(lia)) as [x Hx].
  assert (Hstep : Main.write_sample table start out
                  = Some (out ++ [Main.sample_call start x])).
  { unfold Main.write_sample. by rewrite Hx. }
  cbn [for_range]. rewrite Hstep. cbn [mbind option_bind].
  destruct (IH (start + 1) (out ++ [Main.sample_call start x])
              ltac:(lia) ltac:(lia)) as (out' & Hrun & Hprinted).
  exists out'. split; [done|]. rewrite Hprinted, printed_samples_app.
  rewrite (drop_S _ _ _ Hx). cbn [take map].
  replace (Z.to_nat (start + 1)) with (S (Z.to_nat start)) by lia.
  rewrite <- app_assoc. done.
Qed.

Lemma write_table_samples wm tableNo out :
  length (Wavetable.getTable wm tableNo) = _tableSize wm ->
  exists out',
    Main.write_table wm (Z.of_nat (_tableSize wm)) tableNo out = Some out' /\
    printed_samples out'
    = printed_samples out
      ++ map (convert binary64) (Wavetable.getTable wm tableNo).
Proof.
  intros Hlen. unfold Main.write_table. rewrite Nat2Z.id.
  destruct (write_samples_loop (Wavetable.getTable wm tableNo) (_tableSize wm)
              0 out ltac:(lia) ltac:(cbn; lia)) as (out1 & -> & Hprinted).
  cbn [mbind option_bind]. eexists. split; [done|].
  change (Z.to_nat 0) with 0%nat in Hprinted. rewrite drop_0 in Hprinted.
  rewrite take_ge in Hprinted by lia.
  destruct (decide (tableNo + 1 < Mipmap.N));
    rewrite !printed_samples_app, Hprinted; cbn; by rewrite ?app_nil_r.
Qed.

Lemma write_tables_loop wm n start out :
  (forall m, start <= m < start + Z.of_nat n ->
     length (Wavetable.getTable wm m) = _tableSize wm) ->
  exists out',
    for_range n start (Main.write_table wm (Z.of_nat (_tableSize wm))) out
    = Some out' /\
    printed_samples out'
    = printed_samples out
      ++ map (convert binary64)
           (concat (map (Wavetable.getTable wm) (seqZ start (Z.of_nat n)))).
Proof.
  revert start out. induction n as [|n IH]; intros start out Hlen.
  { exists out. split; [done|]. cbn. by rewrite app_nil_r. }
  destruct (write_table_samples wm start out (Hlen start ltac:(lia)))
    as (out1 & Hrow & Hprinted1).
  destruct (IH (start + 1) out1 ltac:(intros m Hm; apply Hlen; lia))
    as (out' & Hrun & Hprinted).
  exists out'. cbn [for_range]. rewrite Hrow. cbn [mbind option_bind].
  split; [done|]. rewrite Hprinted, Hprinted1.
  rewrite (seqZ_cons start (Z.of_nat (S n))) by lia.
  replace (Z.pred (Z.of_nat (S n))) with (Z.of_nat n) by lia.
  replace (Z.succ start) with (start + 1) by lia.
  cbn [map concat]. by rewrite map_app, <- app_assoc.
Qed.

Lemma write_mipmap_tables tableSize wm :
  well_shaped tableSize wm ->
  exists out,
    Main.write_mipmap wm = Some out /\
    printed_samples out
    = map (convert binary64)
        (concat (map (Wavetable.getTable wm) (seqZ 0 Wavetable.numTables))) /\
    length (printed_samples out) = (24 * tableSize)%nat.
Proof.
  intros (Hts & _ & _ & Hrows). unfold Main.write_mipmap.
  destruct (write_tables_loop wm (Z.to_nat Mipmap.N) 0
              (Main.header (Z.of_nat (_tableSize wm)))) as (out & Hrun & Hp).
  { intros m Hm. rewrite Hts. apply Hrows.
    change (Z.of_nat (Z.to_nat Mipmap.N)) with 24 in Hm. lia. }
  rewrite Hrun. cbn [mbind option_bind]. eexists. split; [done|].
  rewrite printed_samples_app, Hp.
  change (Z.of_nat (Z.to_nat Mipmap.N)) with Wavetable.numTables.
  change (printed_samples (Main.header _)) with (@nil spec_float).
  change (printed_samples [Main.footer]) with (@nil spec_float).
  rewrite app_nil_r, app_nil_l. split; [done|].
  rewrite length_map. change Wavetable.numTables with 24.
  assert (Hall : forall m, 0 <= m < 24 ->
                   length (Wavetable.getTable wm m) = tableSize)
    by (intros m Hm; by apply Hrows).
  revert Hall. generalize (Wavetable.getTable wm). intros rows Hall.
  change (seqZ 0 24) with
    [0; 1; 2; 3; 4; 5; 6; 7; 8; 9; 10; 11; 12; 13; 14; 15; 16; 17; 18; 19; 20;
     21; 22; 23].
  cbn [map concat]. rewrite !length_app, !Hall by lia. cbn [length]. lia.
Qed.

(** X16: on a multisample returned by [createFromAudioData], as in
    [main], [write_mipmap] reads inside every table, and the values it
    prints with [%e] are the samples of tables 0 to 23 in order, converted
    to double: [24 * tableSize] values, none of them a guard sample. *)
Theorem write_mipmap_prints_tables logf expf polar cmul cmul_assign
    kiss_fftr_alloc kiss_fftr kiss_fftri audioData amplitude tableSize
    refSampleRate wm :
  Wavetable.createFromAudioData logf expf polar cmul cmul_assign
    kiss_fftr_alloc kiss_fftr kiss_fftri
    audioData amplitude tableSize refSampleRate = Some wm ->
  exists out,
    Main.write_mipmap wm = Some out /\
    printed_samples out
    = map (convert binary64)
        (concat (map (Wavetable.getTable wm) (seqZ 0 Wavetable.numTables))) /\
    length (printed_samples out) = (24 * tableSize)%nat.
Proof.
  intros Hrun. apply write_mipmap_tables.
  by eapply createFromAudioData_shape.
Qed.

(** ** The cutoffs of successive bands *)

Lemma emax64_big : 2 < 1024.
Proof. done. Qed.

(** A zero, a positive finite number or plus infinity. *)
Definition not_below_zero (x : spec_float) : Prop :=
  match x with
  | S754_zero _ | S754_finite false _ _ | S754_infinity false => True
  | _ => False
  end.

(** A positive finite number. *)
Definition positive_finite (x : spec_float) : Prop :=
  match x with
  | S754_finite false _ _ => True
  | _ => False
  end.

Lemma finish_not_below_zero prec emax r :
  0 < prec -> rounded_ok prec emax r ->
  not_below_zero (finish prec emax false (fst r) (snd r)).
Proof.
  intros Hp Hok.
  by destruct (finish_cases prec emax Hp false r Hok)
    as [[-> _]|[[-> _]|(a & b & -> & _)]].
Qed.

Lemma fle_zero_not_below x :
  fle (of_Z binary64 0) x = true -> not_below_zero x.
Proof. by destruct x as [s|[|]| |[|] m e]. Qed.

Lemma half_not_below_zero x :
  not_below_zero x -> not_below_zero (fmul binary64 (dyadic binary64 1 (-1)) x).
Proof.
  change (dyadic binary64 1 (-1)) with (S754_finite false 4503599627370496 (-53)).
  unfold fmul. change (fprec binary64) with 53. change (femax binary64) with 1024.
  destruct x as [s|[|]| |[|] m e]; try done. intros _.
  destruct (SFmul_finite_spec 53 1024 prec64_pos false 4503599627370496 (-53)
              false m e ltac:(done)) as [-> Hal].
  apply finish_not_below_zero; [done|].
  by apply round_pos_ok.
Qed.

(** [tableSize] as a double. *)
Lemma table_size_finite n :
  0 < n < 2 ^ 32 -> positive_finite (of_Z binary64 n).
Proof.
  intros Hn.
  pose proof (nearest_le 53 1024 prec64_pos emax64_big 1 n 0 ltac:(lia)) as Hlo.
  pose proof (nearest_le 53 1024 prec64_pos emax64_big n (2 ^ 32) 0 ltac:(lia))
    as Hhi.
  change (nearest 53 1024 1 0) with (S754_finite false 4503599627370496 (-52))
    in Hlo.
  change (nearest 53 1024 (2 ^ 32) 0)
    with (S754_finite false 4503599627370496 (-20)) in Hhi.
  change (of_Z binary64 n) with (nearest 53 1024 n 0).
  destruct (nearest_cases 53 1024 prec64_pos n 0 ltac:(lia)) as [Hg|Hinf].
  - by destruct (nearest 53 1024 n 0) as [[|]|[|]| |[|] a b].
  - by rewrite Hinf in Hhi.
Qed.

Lemma quotient_not_below_zero x y :
  not_below_zero x -> positive_finite y -> not_below_zero (fdiv binary64 x y).
Proof.
  unfold fdiv. change (fprec binary64) with 53. change (femax binary64) with 1024.
  destruct y as [?|?| |[|] my ey]; try done.
  destruct x as [s|[|]| |[|] mx ex]; try done. intros _ _.
  rewrite SFdiv_finite by done.
  apply finish_not_below_zero; [done|]. by apply div_round_ok.
Qed.

(** [y <= y'] for two positive finite numbers. *)
Definition ordered_pair (y y' : spec_float) : bool :=
  match y, y' with
  | S754_finite false my ey, S754_finite false my' ey' =>
      Z.pos my * 2 ^ (ey - Z.min ey ey') <=? Z.pos my' * 2 ^ (ey' - Z.min ey ey')
  | _, _ => false
  end.

(** Dividing by more gives no more. *)
Lemma quotient_antitone x y y' :
  not_below_zero x -> ordered_pair y y' = true ->
  fle (fdiv binary64 x y') (fdiv binary64 x y) = true.
Proof.
  unfold fdiv, fle. change (fprec binary64) with 53.
  change (femax binary64) with 1024.
  destruct y as [?|?| |[|] my ey]; try done.
  destruct y' as [?|?| |[|] my' ey']; try done.
  cbn [ordered_pair]. intros Hx Hle%Z.leb_le.
  destruct x as [s|[|]| |[|] mx ex]; try done.
  by apply SFdiv_antitone.
Qed.

(** The upper ends of bands [t - 1] and [t], as doubles, whatever the
    library returned for the exponentials. *)
Definition cutoffs_ordered (l600 : spec_float) : bool :=
  forallb (fun t : nat =>
             forallb (fun a =>
                        forallb (fun b =>
                                   ordered_pair (convert binary64 a)
                                                (convert binary64 b))
                                (boundary_candidates l600 (Z.of_nat t + 1)))
                     (boundary_candidates l600 (Z.of_nat t)))
          (seq 1 23).

Lemma cutoffs_ordered_checked :
  forallb cutoffs_ordered
    (candidates (RefLibm.ref_logf (of_Z binary32 600))) = true.
Proof. by vm_compute. Qed.

Section Cutoffs.
Variable logf expf : spec_float -> spec_float.
Hypothesis logf_accurate : forall x, within_ulp (logf x) (RefLibm.ref_logf x).
Hypothesis expf_accurate : forall x, within_ulp (expf x) (RefLibm.ref_expf x).
Variable tableSize : nat.
Variable refSampleRate : spec_float.

Lemma band_ends_ordered m :
  0 <= m < 23 ->
  ordered_pair
    (convert binary64 (maxFrequency (Mipmap.getRangeForIndex logf expf m)))
    (convert binary64 (maxFrequency (Mipmap.getRangeForIndex logf expf (m + 1))))
  = true.
Proof.
  intros Hm. rewrite !getRangeForIndex_in_range by lia. cbn [maxFrequency].
  pose proof cutoffs_ordered_checked as Hall.
  rewrite forallb_forall in Hall.
  specialize (Hall _ (within_ulp_candidates _ _ (logf_accurate (of_Z binary32 600)))).
  unfold cutoffs_ordered in Hall. rewrite forallb_forall in Hall.
  specialize (Hall (Z.to_nat (m + 1)) ltac:(apply in_seq; lia)).
  rewrite Z2Nat.id in Hall by lia.
  rewrite forallb_forall in Hall.
  specialize (Hall _ (boundary_is_candidate logf expf expf_accurate (m + 1)
                        ltac:(lia))).
  rewrite forallb_forall in Hall.
  exact (Hall _ (boundary_is_candidate logf expf expf_accurate (m + 1 + 1)
                   ltac:(lia))).
Qed.

Lemma cutoffs_antitone m :
  0 < Z.of_nat tableSize < 2 ^ 32 ->
  fle (of_Z binary64 0) refSampleRate = true ->
  0 <= m < 23 ->
  fle (Wavetable.band_cutoff logf expf tableSize refSampleRate (m + 1))
      (Wavetable.band_cutoff logf expf tableSize refSampleRate m) = true.
Proof.
  intros Hsize Hrate Hm. unfold Wavetable.band_cutoff.
  apply quotient_antitone; [|by apply band_ends_ordered].
  apply quotient_not_below_zero; [|by apply table_size_finite].
  by apply half_not_below_zero, fle_zero_not_below.
Qed.
End Cutoffs.

(** X17: with a libm accurate to one unit in the last place, a table
    size that is not 0 and a reference sample rate that is not negative
    (and not NaN), the cutoff of band [m + 1] is at most the cutoff of band
    [m]; so every bin of the spectrum of table [m + 1] is zero or equals
    the same bin of the spectrum of table [m]: a higher band never holds a
    harmonic that the band below it lacks. *)
Theorem band_cutoffs_decrease logf expf polar cmul {P} `{HarmonicProfile P}
    (hp : P) amplitude tableSize refSampleRate m i :
  (forall x, within_ulp (logf x) (RefLibm.ref_logf x)) ->
  (forall x, within_ulp (expf x) (RefLibm.ref_expf x)) ->
  0 < Z.of_nat tableSize < 2 ^ 32 ->
  fle (of_Z binary64 0) refSampleRate = true ->
  0 <= m < Mipmap.N - 1 ->
  fle (Wavetable.band_cutoff logf expf tableSize refSampleRate (m + 1))
      (Wavetable.band_cutoff logf expf tableSize refSampleRate m) = true /\
  (Wavetable.generate_spectrum polar cmul hp tableSize amplitude
     (Wavetable.band_cutoff logf expf tableSize refSampleRate (m + 1)) !! i
   = Some czero \/
   Wavetable.generate_spectrum polar cmul hp tableSize amplitude
     (Wavetable.band_cutoff logf expf tableSize refSampleRate m) !! i
   = Wavetable.generate_spectrum polar cmul hp tableSize amplitude
       (Wavetable.band_cutoff logf expf tableSize refSampleRate (m + 1)) !! i).
Proof.
  intros Hl He Hsize Hrate Hm.
  assert (Hle : fle (Wavetable.band_cutoff logf expf tableSize refSampleRate
                       (m + 1))
                    (Wavetable.band_cutoff logf expf tableSize refSampleRate m)
                = true) by (by apply cutoffs_antitone).
  split; [done|]. by apply spectrum_monotone.
Qed.

(** ** The theorems above on the reference instance *)

Section Instances.
Import RefLibm RefPrims Examples.

Lemma generate_independent_of_dc_witness :
  ref_generate fundamental 4%nat unit_amplitude (dyadic binary64 1 (-1))
  = ref_generate fundamental_dc 4%nat unit_amplitude (dyadic binary64 1 (-1)).
Proof.
  apply (generate_independent_of_dc ref_polar ref_cmul ref_kiss_fftr_alloc
           ref_kiss_fftri fundamental fundamental_dc).
  intros [|[|i]] Hi; [lia|reflexivity|reflexivity].
Defined.

Lemma createForHarmonicProfile_row_cutoff_witness :
  ref_generate fundamental 2%nat unit_amplitude
    (fdiv binary64
       (fdiv binary64 (fmul binary64 (dyadic binary64 1 (-1)) rate_44100)
                      (of_Z binary64 2))
       (convert binary64
          (maxFrequency (Mipmap.getRangeForIndex ref_logf ref_expf 3))))
  = Some (Wavetable.getTable tables_of_fundamental 3).
Proof.
  apply (createForHarmonicProfile_row_cutoff ref_logf ref_expf ref_polar ref_cmul
           ref_kiss_fftr_alloc ref_kiss_fftri fundamental unit_amplitude 2%nat
           rate_44100 tables_of_fundamental 3).
  - vm_compute. reflexivity.
  - vm_compute. split; congruence.
Defined.

Lemma created_tables_wrap_padded_witness :
  wrap_padded tables_of_fundamental /\ wrap_padded tables_of_sine4.
Proof.
  destruct (created_tables_wrap_padded ref_logf ref_expf ref_polar ref_cmul
              ref_cmul_assign ref_kiss_fftr_alloc ref_kiss_fftr ref_kiss_fftri)
    as [Hprofile Haudio].
  split.
  - apply (Hprofile _ _ fundamental unit_amplitude 2%nat rate_44100).
    vm_compute. reflexivity.
  - apply (Haudio sine4 unit_amplitude 2%nat rate_44100).
    vm_compute. reflexivity.
Defined.

Lemma createFromAudioData_delegates_witness :
  ref_createFromAudioData sine4 unit_amplitude 4%nat rate_44100
  = ref_createForHarmonicProfile
      {| _harmonics :=
           map (fun i =>
                  ref_cmul_assign (ref_kiss_fftr 4 sine4 i)
                    (ref_polar (fdiv binary64 (of_Z binary64 2) (of_Z binary64 4))
                               (fdiv binary64 (SFopp M_PI) (of_Z binary64 2))))
               (seq 0 3) |}
      unit_amplitude 4%nat rate_44100.
Proof.
  apply (createFromAudioData_delegates ref_logf ref_expf ref_polar ref_cmul
           ref_cmul_assign ref_kiss_fftr_alloc ref_kiss_fftr ref_kiss_fftri
           sine4 unit_amplitude 4%nat rate_44100).
  reflexivity.
Defined.



Lemma within_ulp_refl x : within_ulp x x.
Proof. by left. Qed.

Lemma getIndexForFrequency_boundaries_witness :
  Mipmap.getIndexForFrequency ref_logf Mipmap.F1 = Some (of_Z binary32 0) /\
  Mipmap.getIndexForFrequency ref_logf Mipmap.FN
    = Some (of_Z binary32 (Mipmap.N - 1)).
Proof.
  apply (getIndexForFrequency_boundaries ref_logf).
  - vm_compute. reflexivity.
  - vm_compute. reflexivity.
Defined.

Lemma band_boundaries_witness :
  fle (Mipmap.at_index (Mipmap.IndexToStartFrequency ref_logf ref_expf) 5)
      (Mipmap.at_index (Mipmap.IndexToStartFrequency ref_logf ref_expf) (5 + 1))
  = true.
Proof.
  apply (band_boundaries ref_logf ref_expf).
  - intros x. apply within_ulp_refl.
  - intros x. apply within_ulp_refl.
  - vm_compute. split; congruence.
Defined.

Lemma low_frequency_band_witness :
  flt (maxFrequency (Mipmap.getRangeForIndex ref_logf ref_expf 0)) hz_26_5 = true.
Proof.
  apply (low_frequency_band ref_logf ref_expf).
  - intros x. apply within_ulp_refl.
  - intros x. apply within_ulp_refl.
Defined.

Lemma index_lookups_total_witness :
  exists x,
    Mipmap.getIndexForFrequency ref_logf (of_Z binary32 440) = Some x /\
    fle (of_Z binary32 0) x = true /\
    fle x (of_Z binary32 (Mipmap.N - 1)) = true.
Proof.
  destruct (index_lookups_total ref_logf ref_expf) as (_ & _ & Hindex & _).
  apply Hindex. intros x. apply within_ulp_refl.
Defined.

Lemma getIndexForFrequency_saturates_high_witness :
  Mipmap.getIndexForFrequency ref_logf (of_Z binary32 20000)
  = Some (of_Z binary32 (Mipmap.N - 1)).
Proof.
  apply (getIndexForFrequency_saturates_high ref_logf). right.
  split; vm_compute; reflexivity.
Defined.

Lemma getIndexForFrequency_saturates_low_witness :
  Mipmap.getIndexForFrequency ref_logf (of_Z binary32 10)
  = Some (of_Z binary32 0).
Proof.
  apply (getIndexForFrequency_saturates_low ref_logf); vm_compute; reflexivity.
Defined.

Lemma getRangeForFrequency_total_witness :
  exists t,
    0 <= t <= Mipmap.N - 1 /\
    Mipmap.getRangeForFrequency ref_logf ref_expf (of_Z binary32 440)
    = Some (Mipmap.getRangeForIndex ref_logf ref_expf t) /\
    fle (minFrequency (Mipmap.getRangeForIndex ref_logf ref_expf t))
        (maxFrequency (Mipmap.getRangeForIndex ref_logf ref_expf t)) = true.
Proof.
  apply (getRangeForFrequency_total ref_logf ref_expf);
    intros x; apply within_ulp_refl.
Defined.

Lemma getTableForFrequency_total_witness :
  exists t,
    0 <= t < Wavetable.numTables /\
    Wavetable.getTableForFrequency ref_logf tables_of_fundamental
      (of_Z binary32 440)
    = Some (Wavetable.getTable tables_of_fundamental t) /\
    length (Wavetable.getTable tables_of_fundamental t) = 2%nat.
Proof.
  apply (getTableForFrequency_total ref_logf ref_expf ref_polar ref_cmul
           ref_kiss_fftr_alloc ref_kiss_fftri fundamental unit_amplitude 2%nat
           rate_44100 tables_of_fundamental).
  - intros x. apply within_ulp_refl.
  - vm_compute. reflexivity.
Defined.

Lemma clamp_in_range_witness :
  0 <= clamp_int 31 0 23 <= 23 /\ (0 <= 31 <= 23 -> clamp_int 31 0 23 = 31).
Proof.
  destruct clamp_in_range as [Hint _]. apply Hint. lia.
Defined.

Lemma fillExtra_in_bounds_witness :
  is_Some (Wavetable.fillExtra (Wavetable.allocateStorage 2))
  <-> (Z.of_nat 2 + 8) * 24 < 2 ^ 32.
Proof.
  apply (fillExtra_in_bounds (Wavetable.allocateStorage 2)). reflexivity.
Defined.

Lemma fillExtra_preserves_tables_witness :
  _tableSize tables_of_fundamental = _tableSize tables_of_fundamental /\
  length (_multiData tables_of_fundamental)
    = length (_multiData tables_of_fundamental) /\
  forall m, 0 <= m < Wavetable.numTables ->
    Wavetable.getTable tables_of_fundamental m
    = Wavetable.getTable tables_of_fundamental m.
Proof.
  apply (fillExtra_preserves_tables tables_of_fundamental tables_of_fundamental).
  - vm_compute. reflexivity.
  - vm_compute. reflexivity.
Defined.

Lemma fillExtra_idempotent_witness :
  Wavetable.fillExtra tables_of_sine4 = Some tables_of_sine4.
Proof.
  apply (fillExtra_idempotent tables_of_sine4 tables_of_sine4).
  - vm_compute. reflexivity.
  - vm_compute. reflexivity.
Defined.

Lemma generate_cutoff_monotone_witness :
  Wavetable.generate_spectrum ref_polar ref_cmul fundamental 8%nat
    unit_amplitude (dyadic binary64 1 (-4)) !! 1%nat = Some czero \/
  Wavetable.generate_spectrum ref_polar ref_cmul fundamental 8%nat
    unit_amplitude (dyadic binary64 1 (-1)) !! 1%nat
  = Wavetable.generate_spectrum ref_polar ref_cmul fundamental 8%nat
      unit_amplitude (dyadic binary64 1 (-4)) !! 1%nat.
Proof.
  apply (generate_cutoff_monotone ref_polar ref_cmul fundamental 8%nat
           unit_amplitude (dyadic binary64 1 (-4)) (dyadic binary64 1 (-1))).
  vm_compute. reflexivity.
Defined.

Lemma generate_gate_extremes_witness :
  Wavetable.generate_spectrum ref_polar ref_cmul fundamental 8%nat
    unit_amplitude (dyadic binary64 1 (-4))
  = replicate (8 / 2 + 1) czero.
Proof.
  destruct (generate_gate_extremes ref_polar ref_cmul fundamental 8%nat
              unit_amplitude (dyadic binary64 1 (-4))) as [_ Hsilent].
  apply Hsilent. vm_compute. reflexivity.
Defined.

Lemma createForHarmonicProfile_independent_of_dc_witness :
  Wavetable.createForHarmonicProfile ref_logf ref_expf ref_polar ref_cmul
    ref_kiss_fftr_alloc ref_kiss_fftri fundamental unit_amplitude 2%nat rate_44100
  = Wavetable.createForHarmonicProfile ref_logf ref_expf ref_polar ref_cmul
      ref_kiss_fftr_alloc ref_kiss_fftri fundamental_dc unit_amplitude 2%nat
      rate_44100.
Proof.
  refine (createForHarmonicProfile_independent_of_dc ref_logf ref_expf ref_polar
            ref_cmul ref_kiss_fftr_alloc ref_kiss_fftri fundamental fundamental_dc
            unit_amplitude 2%nat rate_44100 _).
  intros [|[|i]] Hi; [lia|reflexivity|reflexivity].
Defined.

Lemma getHarmonic_lossless_witness :
  cpx_convert binary32 (getHarmonic fundamental 1%nat)
  = (of_Z binary32 1, S754_zero false).
Proof.
  apply (getHarmonic_lossless (_harmonics fundamental) 1%nat); reflexivity.
Defined.

Lemma write_mipmap_prints_tables_witness :
  exists out,
    Main.write_mipmap tables_of_sine4 = Some out /\
    printed_samples out
    = map (convert binary64)
        (concat (map (Wavetable.getTable tables_of_sine4)
                   (seqZ 0 Wavetable.numTables))) /\
    length (printed_samples out) = (24 * 2)%nat.
Proof.
  apply (write_mipmap_prints_tables ref_logf ref_expf ref_polar ref_cmul
           ref_cmul_assign ref_kiss_fftr_alloc ref_kiss_fftr ref_kiss_fftri
           sine4 unit_amplitude 2%nat rate_44100 tables_of_sine4).
  vm_compute. reflexivity.
Defined.
Lemma band_cutoffs_decrease_witness :
  fle (Wavetable.band_cutoff ref_logf ref_expf 8%nat (of_Z binary64 44100) (0 + 1))
      (Wavetable.band_cutoff ref_logf ref_expf 8%nat (of_Z binary64 44100) 0)
  = true /\
  (Wavetable.generate_spectrum ref_polar ref_cmul fundamental 8%nat
     unit_amplitude
     (Wavetable.band_cutoff ref_logf ref_expf 8%nat (of_Z binary64 44100)
        (0 + 1)) !! 1%nat
   = Some czero \/
   Wavetable.generate_spectrum ref_polar ref_cmul fundamental 8%nat
     unit_amplitude
     (Wavetable.band_cutoff ref_logf ref_expf 8%nat (of_Z binary64 44100) 0)
     !! 1%nat
   = Wavetable.generate_spectrum ref_polar ref_cmul fundamental 8%nat
       unit_amplitude
       (Wavetable.band_cutoff ref_logf ref_expf 8%nat (of_Z binary64 44100)
          (0 + 1)) !! 1%nat).
Proof.
  refine (band_cutoffs_decrease ref_logf ref_expf ref_polar ref_cmul
            fundamental unit_amplitude 8%nat (of_Z binary64 44100) 0 1%nat
            _ _ _ _ _).
  - intros x. apply within_ulp_refl.
  - intros x. apply within_ulp_refl.
  - vm_compute. split; reflexivity.
  - vm_compute. reflexivity.
  - vm_compute. split; [discriminate|reflexivity].
Defined.
End Instances.
